(** * DocuNation: the heuristic C scanner of [docunation.c]

    A shallow embedding of the scanner (comment tracker, line
    reconstruction, classifier, entity extractors, document model) and
    of the string helpers of the bulk mode and the JSON renderer; the
    properties of the scanner that the specification states; further
    properties of the code.

    Conventions of the embedding.
    - A C string is the list of its characters up to, and excluding, the
      terminating NUL ([cstr]).
    - The parser's line buffer [p->line] is kept as raw bytes
      ([buffer]): [fgets] and the in-place [trim] leave stale bytes
      behind the terminator, and [parse_variable] reads through a
      pointer into that buffer after the buffer has been refilled.
    - The input stream is held as the sequence of pieces that successive
      [fgets(p->line, MAX_LINE, p->fp)] calls return; every call site
      uses the same buffer size, so the sequence does not depend on who
      reads.
    - [int] line numbers are integers of [Z]; [line_num] counts
      successful [fgets] calls, so on a file of at most [INT_MAX]
      pieces ([counters_in_range]) the C counter never overflows and
      the integers of the embedding are its values.  The theorems on
      the line numbers of a whole scan assume such a file.
    - The character classes are those of the "C" locale (the program
      never calls [setlocale]).
    - Where the C code would read or write before the start of a local
      array ([sig[-1]] in [parse_function] when the signature begins
      with a parenthesis), the embedding leaves the name empty and sets
      the flag [out_of_bounds] of the parser; the C code copies the
      byte it finds there.  What the embedding says of the names of a
      run is what the code does when the flag stays false.
    - The clock is a parameter: the texts [strftime] produces for the
      two readings of the time are arguments of the scan. *)

From Stdlib Require Import Ascii String List ZArith Lia Bool Arith.
Import ListNotations.

Set Warnings "-abstract-large-number".

(* ------------------------------------------------------------------ *)
(** ** Characters and C strings *)

Definition cstr := list ascii.

Definition cs (s : string) : cstr := list_ascii_of_string s.
Arguments cs s%_string.

Definition NUL : ascii := "000"%char.
Definition TAB : ascii := "009"%char.
Definition LF : ascii := "010"%char.
Definition DQUOTE : ascii := "034"%char.

Definition chr_eq (a b : ascii) : bool := Ascii.eqb a b.

(** [isspace] of <ctype.h> in the "C" locale: space, and \t \n \v \f \r. *)
Definition isspace (c : ascii) : bool :=
  let n := nat_of_ascii c in
  (n =? 32) || ((9 <=? n) && (n <=? 13)).

(** [isalnum] of <ctype.h> in the "C" locale. *)
Definition isalnum (c : ascii) : bool :=
  let n := nat_of_ascii c in
  ((48 <=? n) && (n <=? 57)) || ((65 <=? n) && (n <=? 90))
  || ((97 <=? n) && (n <=? 122)).

(* ------------------------------------------------------------------ *)
(** ** Configuration *)

Definition MAX_LINE : nat := 4096.
Definition MAX_NAME : nat := 256.
Definition MAX_DOC : nat := 8192.
Definition MAX_SIG : nat := 8192.
Definition MAX_NODES : nat := 2048.

(** [INT_MAX] of <limits.h> for the 32-bit [int] of the platforms the
    program is built for: the range of [p->line_num] and [node->line]. *)
Definition INT_MAX : Z := 2147483647.

Arguments MAX_LINE : simpl never.
Arguments MAX_NAME : simpl never.
Arguments MAX_DOC : simpl never.
Arguments MAX_SIG : simpl never.
Arguments MAX_NODES : simpl never.

(* ------------------------------------------------------------------ *)
(** ** <string.h> *)

Definition strlen (s : cstr) : nat := List.length s.

(** Offset of the first occurrence of [c], [None] for a null result. *)
Fixpoint strchr (s : cstr) (c : ascii) : option nat :=
  match s with
  | [] => None
  | x :: s' => if chr_eq x c then Some 0 else option_map S (strchr s' c)
  end.

(** Offset of the last occurrence of [c]. *)
Fixpoint strrchr (s : cstr) (c : ascii) : option nat :=
  match s with
  | [] => None
  | x :: s' =>
      match strrchr s' c with
      | Some i => Some (S i)
      | None => if chr_eq x c then Some 0 else None
      end
  end.

(* ------------------------------------------------------------------ *)
(** ** String utilities *)

(** [strncmp(str, prefix, strlen(prefix)) == 0] *)
Fixpoint starts_with (str prefix : cstr) {struct prefix} : bool :=
  match prefix with
  | [] => true
  | p :: prefix' =>
      match str with
      | [] => false
      | c :: str' => chr_eq c p && starts_with str' prefix'
      end
  end.

(** Offset of the first occurrence of [pat] in [s]. *)
Fixpoint strstr (s pat : cstr) : option nat :=
  if starts_with s pat then Some 0
  else match s with
       | [] => None
       | _ :: s' => option_map S (strstr s' pat)
       end.

Definition found (r : option nat) : bool :=
  match r with Some _ => true | None => false end.

(** [ltrim] returns the pointer advanced past the leading whitespace:
    [leading_ws] is what it skips, [ltrim] what it points at. *)
Fixpoint ltrim (s : cstr) : cstr :=
  match s with
  | c :: s' => if isspace c then ltrim s' else s
  | [] => []
  end.

Fixpoint leading_ws (s : cstr) : cstr :=
  match s with
  | c :: s' => if isspace c then c :: leading_ws s' else []
  | [] => []
  end.

Fixpoint strip_trailing (s : cstr) : cstr :=
  match s with
  | [] => []
  | c :: s' =>
      match strip_trailing s' with
      | [] => if isspace c then [] else [c]
      | t => c :: t
      end
  end.

(** [rtrim]: [end] walks back from the last character while it is
    beyond [s] and on whitespace, so the first character always stays. *)
Definition rtrim (s : cstr) : cstr :=
  match s with
  | [] => []
  | c :: s' => c :: strip_trailing s'
  end.

Definition trim (s : cstr) : cstr := rtrim (ltrim s).

(** What a buffer that held [s] holds after [trim(s)] was called on it:
    the terminator is moved, the leading whitespace stays where it is. *)
Definition trim_inplace (s : cstr) : cstr := leading_ws s ++ trim s.

Definition safe_strcpy (dest src : cstr) (size : nat) : cstr :=
  if size =? 0 then dest else firstn (size - 1) src.

Definition safe_append (dest src : cstr) (size : nat) : cstr :=
  if size =? 0 then dest
  else if size - 1 <=? strlen dest then dest
  else dest ++ firstn (size - strlen dest - 1) src.

Definition is_ident_char (c : ascii) : bool :=
  isalnum c || chr_eq c "_"%char.

(** [strncpy(dest, src, len); dest[len] = 0] on a zeroed [dest]. *)
Definition strncpy (src : cstr) (len : nat) : cstr := firstn len src.

(** [*q = 0] for [q = s + i] inside the string. *)
Definition cut (s : cstr) (i : nat) : cstr := firstn i s.

Definition cut_at (s : cstr) (r : option nat) : cstr :=
  match r with Some i => cut s i | None => s end.

Definition extract_module_name (filepath : cstr) (size : nat) : cstr :=
  let base :=
    match strrchr filepath "/"%char with
    | Some i => skipn (S i) filepath
    | None =>
        match strrchr filepath "\"%char with
        | Some i => skipn (S i) filepath
        | None => filepath
        end
    end in
  let name := safe_strcpy [] base size in
  cut_at name (strrchr name "."%char).

(* ------------------------------------------------------------------ *)
(** ** The line buffer and the input stream *)

(** Raw bytes of a [char] array from offset 0; bytes past the end of the
    list are NUL (the [Parser] is [calloc]ed). *)
Definition buffer := list ascii.

Fixpoint cstr_of (b : buffer) : cstr :=
  match b with
  | [] => []
  | c :: b' => if chr_eq c NUL then [] else c :: cstr_of b'
  end.

(** The C string a pointer [b + k] designates. *)
Definition cstr_at (b : buffer) (k : nat) : cstr := cstr_of (skipn k b).

(** [memcpy(b, bytes, n)] *)
Definition store (b : buffer) (bytes : list ascii) : buffer :=
  bytes ++ skipn (List.length bytes) b.

(** The buffer after a successful [fgets] that read [piece]. *)
Definition fgets_into (b : buffer) (piece : list ascii) : buffer :=
  store b (piece ++ [NUL]).

(** [b[i] = 0] *)
Definition poke_nul (b : buffer) (i : nat) : buffer :=
  if i <? List.length b then firstn i b ++ NUL :: skipn (S i) b else b.

(** The buffer after [trim(b)]: [rtrim] writes one terminator. *)
Definition trim_buffer (b : buffer) : buffer :=
  poke_nul b (strlen (trim_inplace (cstr_of b))).

(** One [fgets] with a buffer of [S room] bytes: at most [room]
    characters, stopping after a newline. *)
Fixpoint read_piece (room : nat) (s : list ascii) : list ascii * list ascii :=
  match room, s with
  | S r, c :: s' =>
      if chr_eq c LF then ([c], s')
      else let (l, rest) := read_piece r s' in (c :: l, rest)
  | _, _ => ([], s)
  end.

Fixpoint pieces_fuel (fuel : nat) (s : list ascii) : list (list ascii) :=
  match fuel, s with
  | S f, _ :: _ =>
      let (l, rest) := read_piece (MAX_LINE - 1) s in l :: pieces_fuel f rest
  | _, _ => []
  end.

(** The sequence of results of [fgets(p->line, MAX_LINE, p->fp)] until
    it returns NULL. *)
Definition pieces (s : list ascii) : list (list ascii) :=
  pieces_fuel (List.length s) s.

(* ------------------------------------------------------------------ *)
(** ** Node types and the document *)

Inductive NodeType : Type :=
| NODE_FUNCTION
| NODE_STRUCT
| NODE_UNION
| NODE_ENUM
| NODE_TYPEDEF
| NODE_MACRO
| NODE_VARIABLE
| NODE_INCLUDE.

Record DocNode : Type := {
  name : cstr;
  type : NodeType;
  line : Z;
  docstring : cstr;
  signature : cstr;
  return_type : cstr;
  is_static : bool;
  is_inline : bool;
  is_extern : bool
}.

(** [nodes] holds the recorded entries [nodes[0 .. node_count-1]]; the
    slot [nodes[node_count]] an extractor fills before [ADD_NODE] is not
    part of the document until the count is incremented.
    [d_docstring] is the field [docstring] of the C struct. *)
Record DOCUNATION : Type := {
  filepath : cstr;
  module_name : cstr;
  d_docstring : cstr;
  nodes : list DocNode;
  timestamp : cstr
}.

Definition node_count (d : DOCUNATION) : nat := List.length (nodes d).

(** [p_line] is the field [line] of the C struct.  [out_of_bounds]
    is not a field of the C struct: it records that the run performed
    an access before the start of a local array (see [parse_function]),
    where C gives the access no meaning and the embedding continues
    with an empty name. *)
Record Parser : Type := {
  fp : list (list ascii);
  p_line : buffer;
  line_num : Z;
  pending_comment : cstr;
  pending_comment_line : Z;
  doc : DOCUNATION;
  out_of_bounds : bool
}.

Definition set_line (p : Parser) (b : buffer) : Parser :=
  {| fp := fp p; p_line := b; line_num := line_num p;
     pending_comment := pending_comment p;
     pending_comment_line := pending_comment_line p;
     doc := doc p; out_of_bounds := out_of_bounds p |}.

Definition set_pending_comment (p : Parser) (c : cstr) : Parser :=
  {| fp := fp p; p_line := p_line p; line_num := line_num p;
     pending_comment := c;
     pending_comment_line := pending_comment_line p;
     doc := doc p; out_of_bounds := out_of_bounds p |}.

Definition set_pending_comment_line (p : Parser) (n : Z) : Parser :=
  {| fp := fp p; p_line := p_line p; line_num := line_num p;
     pending_comment := pending_comment p;
     pending_comment_line := n;
     doc := doc p; out_of_bounds := out_of_bounds p |}.

Definition set_doc (p : Parser) (d : DOCUNATION) : Parser :=
  {| fp := fp p; p_line := p_line p; line_num := line_num p;
     pending_comment := pending_comment p;
     pending_comment_line := pending_comment_line p;
     doc := d; out_of_bounds := out_of_bounds p |}.

Definition flag_out_of_bounds (p : Parser) (b : bool) : Parser :=
  {| fp := fp p; p_line := p_line p; line_num := line_num p;
     pending_comment := pending_comment p;
     pending_comment_line := pending_comment_line p;
     doc := doc p; out_of_bounds := out_of_bounds p || b |}.

Definition set_d_docstring (d : DOCUNATION) (s : cstr) : DOCUNATION :=
  {| filepath := filepath d; module_name := module_name d;
     d_docstring := s; nodes := nodes d; timestamp := timestamp d |}.

Definition set_timestamp (d : DOCUNATION) (s : cstr) : DOCUNATION :=
  {| filepath := filepath d; module_name := module_name d;
     d_docstring := d_docstring d; nodes := nodes d; timestamp := s |}.

Definition push_node (d : DOCUNATION) (n : DocNode) : DOCUNATION :=
  {| filepath := filepath d; module_name := module_name d;
     d_docstring := d_docstring d; nodes := nodes d ++ [n];
     timestamp := timestamp d |}.

(** The macro [ADD_NODE]: at [MAX_NODES - 1] recorded entries it warns
    and returns from the extractor without counting the entry. *)
Definition ADD_NODE (p : Parser) (node : DocNode) : Parser :=
  if MAX_NODES - 1 <=? node_count (doc p) then p
  else set_doc p (push_node (doc p) node).

(** A successful [fgets(p->line, MAX_LINE, p->fp)] that returned [piece]
    and left [rest] in the stream, followed by [p->line_num++]. *)
Definition read_line (p : Parser) (piece : list ascii)
    (rest : list (list ascii)) : Parser :=
  {| fp := rest; p_line := fgets_into (p_line p) piece;
     line_num := line_num p + 1;
     pending_comment := pending_comment p;
     pending_comment_line := pending_comment_line p;
     doc := doc p; out_of_bounds := out_of_bounds p |}.

(** [trim(p->line)]: the trimmed string and the parser whose buffer
    carries the moved terminator. *)
Definition trim_line (p : Parser) : cstr * Parser :=
  (trim (cstr_of (p_line p)), set_line p (trim_buffer (p_line p))).

(* ------------------------------------------------------------------ *)
(** ** Comment parsing *)

Fixpoint skip_blanks (p : cstr) : cstr :=
  match p with
  | c :: p' => if chr_eq c " "%char || chr_eq c TAB then skip_blanks p' else p
  | [] => []
  end.

(** The loop of [clean_comment]; [room] is [end - out].  An iteration
    either advances [p] or clears [at_line_start], so
    [2 * strlen p + 2] iterations are never exhausted. *)
Fixpoint clean_loop (fuel : nat) (p : cstr) (at_line_start : bool)
    (room : nat) : cstr :=
  match fuel with
  | 0 => []
  | S fuel' =>
      match p, room with
      | [], _ => []
      | _, 0 => []
      | c :: p', S room' =>
          if starts_with p (cs "*/") then
            clean_loop fuel' (skipn 2 p) at_line_start room
          else if chr_eq c LF then
            LF :: clean_loop fuel' p' true room'
          else if at_line_start then
            let p1 := skip_blanks p in
            let p2 :=
              match p1 with
              | x :: q =>
                  if chr_eq x "*"%char && negb (starts_with q (cs "/"))
                  then match q with
                       | y :: q' => if chr_eq y " "%char then q' else q
                       | [] => q
                       end
                  else p1
              | [] => p1
              end in
            clean_loop fuel' p2 false room
          else c :: clean_loop fuel' p' false room'
      end
  end.

Definition clean_comment (raw : cstr) (size : nat) : cstr :=
  let p :=
    if starts_with raw (cs "/**") then skipn 3 raw
    else if starts_with raw (cs "/*") then skipn 2 raw
    else if starts_with raw (cs "//") then skipn 2 raw
    else raw in
  trim_inplace (clean_loop (2 * strlen p + 2) p true (size - 1)).

(* ------------------------------------------------------------------ *)
(** ** The parser *)

(** Read next non-empty line. *)
Fixpoint next_line_from (rest : list (list ascii)) (p : Parser)
    : bool * Parser :=
  match rest with
  | [] => (false, p)
  | piece :: rest' =>
      let (trimmed, p1) := trim_line (read_line p piece rest') in
      if 0 <? strlen trimmed then (true, p1) else next_line_from rest' p1
  end.

Definition next_line (p : Parser) : bool * Parser := next_line_from (fp p) p.

Fixpoint block_comment_loop (rest : list (list ascii)) (p : Parser)
    (buf : cstr) : Parser * cstr :=
  match rest with
  | [] => (p, buf)
  | piece :: rest' =>
      let p1 := read_line p piece rest' in
      let l := cstr_of (p_line p1) in
      let buf1 :=
        if strlen buf + strlen l <? MAX_DOC - 1
        then safe_append buf l MAX_DOC else buf in
      if found (strstr l (cs "*/")) then (p1, buf1)
      else block_comment_loop rest' p1 buf1
  end.

Definition parse_block_comment (p : Parser) : Parser :=
  let buf := safe_append [] (cstr_of (p_line p)) MAX_DOC in
  if found (strstr (cstr_of (p_line p)) (cs "*/")) then
    set_pending_comment_line
      (set_pending_comment p (clean_comment buf MAX_DOC)) (line_num p)
  else
    let (p1, buf1) := block_comment_loop (fp p) p buf in
    set_pending_comment_line
      (set_pending_comment p1 (clean_comment buf1 MAX_DOC)) (line_num p1).

(** [while (k > 0 && isspace(s[k])) k--] *)
Fixpoint back_over_space (s : cstr) (k : nat) : nat :=
  match k with
  | 0 => 0
  | S k' => if isspace (nth k s NUL) then back_over_space s k' else k
  end.

(** [while (k > 0 && is_ident_char(s[k-1])) k--] *)
Fixpoint back_over_ident (s : cstr) (k : nat) : nat :=
  match k with
  | 0 => 0
  | S k' => if is_ident_char (nth k' s NUL) then back_over_ident s k' else k
  end.

(** Length of the identifier run at the start of [s] (the loops that
    advance [name_end] while it is on an identifier character). *)
Fixpoint ident_len (s : cstr) : nat :=
  match s with
  | c :: s' => if is_ident_char c then S (ident_len s') else 0
  | [] => 0
  end.

(** [if (len > 0 && len < MAX_NAME) { strncpy(node->name, from, len); ... }]
    on the zeroed node. *)
Definition copy_name (from : cstr) (len : nat) : cstr :=
  if (0 <? len) && (len <? MAX_NAME) then strncpy from len else [].

(** The "copy docstring" block of the extractors, under its test. *)
Definition attach_doc (p : Parser) (test : bool) : cstr * Parser :=
  if test
  then (safe_strcpy [] (pending_comment p) MAX_DOC, set_pending_comment p [])
  else ([], p).

(** The signature loop of [parse_function]. *)
Fixpoint function_sig_loop (rest : list (list ascii)) (p : Parser)
    (sig : cstr) : Parser * cstr :=
  if found (strchr sig "{"%char) || found (strchr sig ";"%char) then (p, sig)
  else
    match rest with
    | [] => (p, sig)
    | piece :: rest' =>
        let (trimmed, p1) := trim_line (read_line p piece rest') in
        function_sig_loop rest' p1
          (safe_append (safe_append sig (cs " ") MAX_SIG) trimmed MAX_SIG)
    end.

(** Parse a function declaration/definition: the node it fills and the
    parser before [ADD_NODE].  When ['('] is the first character of
    [sig], [name_end = paren - 1] lies before the array; the C code
    reads and writes that byte, the embedding flags the run. *)
Definition function_node (p : Parser) (is_static is_inline is_extern : bool)
    : DocNode * Parser :=
  let node_line := line_num p in
  let (p1, sig) :=
    function_sig_loop (fp p) p (safe_append [] (cstr_of (p_line p)) MAX_SIG) in
  let sig := cut_at sig (strchr sig "{"%char) in
  let sig := cut_at sig (strchr sig ";"%char) in
  let node_signature := safe_strcpy [] (trim sig) MAX_SIG in
  let sig := trim_inplace sig in
  let '(node_name, node_return_type, oob) :=
    match strchr sig "("%char with
    | Some (S before) =>
        let sig := cut sig (S before) in
        let name_end := back_over_space sig before in
        let name_start := back_over_ident sig name_end in
        let len := name_end - name_start + 1 in
        let nm := copy_name (skipn name_start sig) len in
        let sig := cut sig name_start in
        (nm, safe_strcpy [] (trim sig) MAX_NAME, false)
    | Some 0 => ([], [], true)
    | None => ([], [], false)
    end in
  let (doc_text, p2) :=
    attach_doc p1
      ((pending_comment_line p1 =? node_line - 1)%Z
       || (pending_comment_line p1 =? node_line)%Z) in
  ({| name := node_name; type := NODE_FUNCTION; line := node_line;
      docstring := doc_text; signature := node_signature;
      return_type := node_return_type;
      is_static := is_static; is_inline := is_inline;
      is_extern := is_extern |},
   flag_out_of_bounds p2 oob).

Definition parse_function (p : Parser) (is_static is_inline is_extern : bool)
    : Parser :=
  let (node, p1) := function_node p is_static is_inline is_extern in
  ADD_NODE p1 node.

Definition keyword_of (t : NodeType) : cstr :=
  match t with
  | NODE_STRUCT => cs "struct"
  | NODE_UNION => cs "union"
  | _ => cs "enum"
  end.

(** Parse a struct/union/enum. *)
Definition aggregate_node (p : Parser) (t : NodeType) : DocNode * Parser :=
  let node_line := line_num p in
  let l := cstr_of (p_line p) in
  let keyword := keyword_of t in
  let nm :=
    match strstr l keyword with
    | Some kw_pos =>
        let name_start := ltrim (skipn (kw_pos + strlen keyword) l) in
        copy_name name_start (ident_len name_start)
    | None => []
    end in
  let nm :=
    match nm with
    | [] => cs "(anonymous " ++ keyword ++ cs ")"
    | _ => nm
    end in
  let (trimmed, p1) := trim_line p in
  let (doc_text, p2) :=
    attach_doc p1 (pending_comment_line p1 =? node_line - 1)%Z in
  ({| name := nm; type := t; line := node_line;
      docstring := doc_text;
      signature := safe_strcpy [] trimmed MAX_SIG;
      return_type := [];
      is_static := false; is_inline := false; is_extern := false |},
   p2).

Definition parse_aggregate (p : Parser) (t : NodeType) : Parser :=
  let (node, p1) := aggregate_node p t in ADD_NODE p1 node.

(** The reading loop of [parse_typedef]. *)
Fixpoint typedef_sig_loop (rest : list (list ascii)) (p : Parser)
    (sig : cstr) : Parser * cstr :=
  if found (strchr sig ";"%char) then (p, sig)
  else
    match rest with
    | [] => (p, sig)
    | piece :: rest' =>
        let (trimmed, p1) := trim_line (read_line p piece rest') in
        typedef_sig_loop rest' p1
          (safe_append (safe_append sig (cs " ") MAX_SIG) trimmed MAX_SIG)
    end.

(** Parse a typedef.  An empty [sig] would put [end] before the array;
    the embedding flags it (the classifier never passes such a line). *)
Definition typedef_node (p : Parser) : DocNode * Parser :=
  let node_line := line_num p in
  let (p1, sig) :=
    typedef_sig_loop (fp p) p (safe_append [] (cstr_of (p_line p)) MAX_SIG) in
  let sig := cut_at sig (strchr sig ";"%char) in
  let '(nm, oob) :=
    match sig with
    | [] => ([], true)
    | _ :: _ =>
        let e := back_over_space sig (strlen sig - 1) in
        let name_start := back_over_ident sig e in
        (copy_name (skipn name_start sig) (e - name_start + 1), false)
    end in
  let (doc_text, p2) :=
    attach_doc p1 (pending_comment_line p1 =? node_line - 1)%Z in
  ({| name := nm; type := NODE_TYPEDEF; line := node_line;
      docstring := doc_text;
      signature := safe_strcpy [] (trim sig) MAX_SIG;
      return_type := [];
      is_static := false; is_inline := false; is_extern := false |},
   flag_out_of_bounds p2 oob).

Definition parse_typedef (p : Parser) : Parser :=
  let (node, p1) := typedef_node p in ADD_NODE p1 node.

(** [sig_len > 0 && sig[sig_len - 1] == c] *)
Definition last_is (s : cstr) (c : ascii) : bool :=
  match rev s with
  | x :: _ => chr_eq x c
  | [] => false
  end.

(** [sig_len > 1 && sig[sig_len - 2] == c] *)
Definition penultimate_is (s : cstr) (c : ascii) : bool :=
  match rev s with
  | _ :: y :: _ => chr_eq y c
  | _ => false
  end.

(** The continuation loop of [parse_macro]. *)
Fixpoint macro_loop (rest : list (list ascii)) (p : Parser) (sig : cstr)
    : Parser * cstr :=
  let has_backslash := last_is sig "\"%char in
  let penultimate_backslash := penultimate_is sig "\"%char in
  if negb has_backslash && negb penultimate_backslash then (p, sig)
  else
    let sig1 := if has_backslash then removelast sig ++ cs " " else sig in
    match rest with
    | [] => (p, sig1)
    | piece :: rest' =>
        let (trimmed, p1) := trim_line (read_line p piece rest') in
        macro_loop rest' p1
          (if strlen sig1 + strlen trimmed <? MAX_SIG - 1
           then safe_append sig1 trimmed MAX_SIG else sig1)
    end.

(** Parse a #define macro; [None] is the early [return] taken when
    [strstr] finds no "#define" in the line. *)
Definition macro_node (p : Parser) : option (DocNode * Parser) :=
  let node_line := line_num p in
  match strstr (cstr_of (p_line p)) (cs "#define") with
  | None => None
  | Some def =>
      let (p1, sig) :=
        macro_loop (fp p) p
          (safe_strcpy [] (skipn def (cstr_of (p_line p))) MAX_SIG) in
      let name_start := ltrim (skipn 7 sig) in
      let nm := copy_name name_start (ident_len name_start) in
      let (doc_text, p2) :=
        attach_doc p1 (pending_comment_line p1 =? node_line - 1)%Z in
      Some ({| name := nm; type := NODE_MACRO; line := node_line;
               docstring := doc_text;
               signature := safe_strcpy [] (trim sig) MAX_SIG;
               return_type := [];
               is_static := false; is_inline := false;
               is_extern := false |},
            p2)
  end.

Definition parse_macro (p : Parser) : Parser :=
  match macro_node p with
  | Some (node, p1) => ADD_NODE p1 node
  | None => p
  end.

(** Parse an #include. *)
Definition include_node (p : Parser) : DocNode * Parser :=
  let l := cstr_of (p_line p) in
  let between (start : cstr) (close : ascii) : cstr :=
    match strchr start close with
    | Some len => copy_name start len
    | None => []
    end in
  let nm :=
    match strchr l "<"%char with
    | Some i => between (skipn (S i) l) ">"%char
    | None =>
        match strchr l DQUOTE with
        | Some i => between (skipn (S i) l) DQUOTE
        | None => []
        end
    end in
  let (trimmed, p1) := trim_line p in
  ({| name := nm; type := NODE_INCLUDE; line := line_num p;
      docstring := [];
      signature := safe_strcpy [] trimmed MAX_SIG;
      return_type := [];
      is_static := false; is_inline := false; is_extern := false |},
   p1).

Definition parse_include (p : Parser) : Parser :=
  let (node, p1) := include_node p in ADD_NODE p1 node.

(** The reading loop of [parse_variable]: the test on the lengths
    guards an append of one space; the line read is not appended. *)
Fixpoint variable_loop (rest : list (list ascii)) (p : Parser) (sig : cstr)
    : Parser * cstr :=
  match rest with
  | [] => (p, sig)
  | piece :: rest' =>
      let p1 := read_line p piece rest' in
      let l := cstr_of (p_line p1) in
      let sig1 :=
        if strlen sig + strlen l <? MAX_SIG - 10
        then safe_append sig (cs " ") MAX_SIG else sig in
      if found (strchr l "}"%char) || found (strchr l ";"%char)
      then (p1, sig1)
      else variable_loop rest' p1 sig1
  end.

(** "Build full declaration (may span multiple lines)": the string
    [sig] of [parse_variable] after its reading loop.  [k] is the offset
    of the argument [line] in [p->line]. *)
Definition variable_declaration (p : Parser) (k : nat) : Parser * cstr :=
  let sig := safe_strcpy [] (cstr_at (p_line p) k) MAX_SIG in
  if found (strchr sig "{"%char) && negb (found (strchr sig "}"%char))
  then variable_loop (fp p) p sig
  else (p, sig).

(** The loop "skip the type" of [parse_variable], which finds the name. *)
Fixpoint variable_name (s : cstr) : cstr :=
  match s with
  | [] => []
  | c :: s1 =>
      if is_ident_char c || chr_eq c " "%char || chr_eq c "*"%char then
        if chr_eq c "="%char || chr_eq c "["%char then []
        else
          match s1 with
          | c1 :: s2 =>
              if isspace c && is_ident_char c1 then
                let len := ident_len s1 in
                let after := ltrim (skipn len s1) in
                if starts_with after (cs "[") || starts_with after (cs "=")
                   || starts_with after (cs ";")
                then copy_name s1 len
                else variable_name s2
              else variable_name s1
          | [] => []
          end
      else []
  end.

(** Parse a static/const variable or constant.  The name is read
    through [line], that is from [p->line + k], after the reading loop
    has refilled [p->line]. *)
Definition variable_node (p : Parser) (k : nat) (is_static : bool)
    : DocNode * Parser :=
  let node_line := line_num p in
  let (p1, sig) := variable_declaration p k in
  let s := cstr_at (p_line p1) k in
  let s := if starts_with s (cs "static ") then skipn 7 s else s in
  let s := ltrim s in
  let s := if starts_with s (cs "const ") then skipn 6 s else s in
  let s := ltrim s in
  let nm := variable_name s in
  let sig :=
    match strstr sig (cs " = ") with
    | Some eq => cut sig eq
    | None => cut_at sig (strchr sig "{"%char)
    end in
  let (doc_text, p2) :=
    attach_doc p1 (pending_comment_line p1 =? node_line - 1)%Z in
  ({| name := nm; type := NODE_VARIABLE; line := node_line;
      docstring := doc_text;
      signature := safe_strcpy [] (trim sig) MAX_SIG;
      return_type := [];
      is_static := is_static; is_inline := false; is_extern := false |},
   p2).

Definition parse_variable (p : Parser) (k : nat) (is_static : bool)
    : Parser :=
  let (node, p1) := variable_node p k is_static in ADD_NODE p1 node.

(* ------------------------------------------------------------------ *)
(** ** The classifier: the chain of tests in the loop of [parse_file] *)

Inductive construct : Type :=
| C_block_comment
| C_line_comment
| C_include
| C_define
| C_directive
| C_aggregate (t : NodeType)
| C_typedef
| C_function
| C_variable
| C_other.

Definition has (s : cstr) (pat : string) : bool := found (strstr s (cs pat)).
Arguments has s pat%_string.

Definition begins (s : cstr) (pat : string) : bool := starts_with s (cs pat).
Arguments begins s pat%_string.

(** [pl] is the string in [p->line]; [line = ltrim(p->line)]. *)
Definition classify (pl : cstr) : construct :=
  let line := ltrim pl in
  if begins line "/*" then C_block_comment
  else if begins line "//" then C_line_comment
  else if begins line "#" then
    if begins line "#include" then C_include
    else if begins line "#define" then C_define
    else C_directive
  else
    let is_static := has line "static " in
    let is_inline := has line "inline " in
    let is_extern := has line "extern " in
    if has line "struct " && negb (has line "typedef")
    then C_aggregate NODE_STRUCT
    else if has line "union " && negb (has line "typedef")
    then C_aggregate NODE_UNION
    else if has line "enum " && negb (has line "typedef")
    then C_aggregate NODE_ENUM
    else if begins line "typedef" then C_typedef
    else if found (strchr line "("%char)
         && negb (begins line "if")
         && negb (begins line "while")
         && negb (begins line "for")
         && negb (begins line "switch")
         && negb (begins line "return")
         && negb (has line "sizeof")
         && negb (has line "= ")
         && negb (has line "->")
         && negb (has line ".")
         && (is_static || is_inline || is_extern
             || begins line "void"
             || begins line "int"
             || begins line "char"
             || begins line "long"
             || begins line "short"
             || begins line "unsigned"
             || begins line "signed"
             || begins line "float"
             || begins line "double"
             || begins line "size_t"
             || begins line "const"
             || has line "* "
             || found (strstr line ["*"%char; TAB]))
    then C_function
    else
      let at_file_scope :=
        match pl with
        | c :: _ => negb (isspace c)
        | [] => false
        end || is_static || is_extern in
      if at_file_scope
         && (is_static || begins line "const ")
         && negb (found (strchr line "("%char))
         && negb (has line "->")
         && (has line "=" || has line "[")
      then C_variable
      else C_other.

(** One iteration of the loop of [parse_file], after [next_line]. *)
Definition parse_line (p : Parser) : Parser :=
  let pl := cstr_of (p_line p) in
  let line := ltrim pl in
  match classify pl with
  | C_block_comment =>
      let p1 := parse_block_comment p in
      if (node_count (doc p1) =? 0)
         && match d_docstring (doc p1) with [] => true | _ => false end
      then set_doc p1 (set_d_docstring (doc p1)
                         (safe_strcpy [] (pending_comment p1) MAX_DOC))
      else p1
  | C_line_comment =>
      set_pending_comment_line
        (set_pending_comment p (clean_comment line MAX_DOC)) (line_num p)
  | C_include => parse_include p
  | C_define => parse_macro p
  | C_directive => p
  | C_aggregate t => parse_aggregate p t
  | C_typedef => parse_typedef p
  | C_function =>
      parse_function p (has line "static ") (has line "inline ")
        (has line "extern ")
  | C_variable =>
      parse_variable p (strlen (leading_ws pl)) (has line "static ")
  | C_other =>
      if (pending_comment_line p <? line_num p - 1)%Z
      then set_pending_comment p [] else p
  end.

(** The loop of [parse_file]; every iteration that goes on consumes a
    piece of the stream, so [S (length (fp p))] iterations suffice. *)
Fixpoint parse_file_loop (fuel : nat) (p : Parser) : Parser :=
  match fuel with
  | 0 => p
  | S fuel' =>
      let (more, p1) := next_line p in
      if more then parse_file_loop fuel' (parse_line p1) else p1
  end.

(** Main parser loop.  [now] is the text [strftime] writes for the
    local time read at entry. *)
Definition parse_file (now : cstr) (p : Parser) : Parser :=
  parse_file_loop (S (List.length (fp p)))
    (set_doc p (set_timestamp (doc p) now)).

(** The parser [parse_document] hands to [parse_file]: both structs
    are [calloc]ed. *)
Definition new_parser (filename : cstr) (content : list ascii)
    (now : cstr) : Parser :=
  {| fp := pieces content; p_line := []; line_num := 0;
     pending_comment := []; pending_comment_line := 0;
     doc := {| filepath := safe_strcpy [] filename MAX_LINE;
               module_name := extract_module_name filename MAX_NAME;
               d_docstring := []; nodes := [];
               timestamp := now |};
     out_of_bounds := false |}.

(** The parser at the end of the scan of a readable file. *)
Definition scan (filename : cstr) (content : list ascii)
    (now_document now_file : cstr) : Parser :=
  parse_file now_file (new_parser filename content now_document).

(** [parse_document]; [content] is [None] when [fopen] fails.
    [now_document] and [now_file] are the texts of the two clock
    readings (in [parse_document] and at the entry of [parse_file]). *)
Definition parse_document (filename : cstr) (content : option (list ascii))
    (now_document now_file : cstr) : option DOCUNATION :=
  match content with
  | None => None
  | Some c => Some (doc (scan filename c now_document now_file))
  end.

(** A source text given by its lines, each ended by a newline. *)
Definition text (ls : list string) : list ascii :=
  flat_map (fun l => cs l ++ [LF]) ls.

(** The nodes of the document of a source text. *)
Definition scan_nodes (content : list ascii) : list DocNode :=
  nodes (doc (scan (cs "input.c") content [] [])).

(* ------------------------------------------------------------------ *)
(** ** Helpers of the bulk mode and of the JSON renderer *)

Definition MAX_PATH_LEN : nat := 8192.

Arguments MAX_PATH_LEN : simpl never.

(** [ends_with]; both pointers are taken to be non-null, as at the
    only call, [ends_with(path, ".c")] in [walk_directory]. *)
Definition ends_with (str suffix : cstr) : bool :=
  if strlen str <? strlen suffix then false
  else starts_with (skipn (strlen str - strlen suffix) str) suffix.

(** The loop of [sanitize_rel_path]: [idx] characters are written
    already; the result is what the loop writes from there. *)
Fixpoint sanitize_loop (p : cstr) (idx size : nat) : cstr :=
  match p with
  | [] => []
  | c :: p' =>
      if idx + 1 <? size then
        if chr_eq c "/"%char || chr_eq c "\"%char then
          if size <=? idx + 2 then []
          else "_"%char :: "_"%char :: sanitize_loop p' (idx + 2) size
        else if chr_eq c " "%char then
          "_"%char :: sanitize_loop p' (idx + 1) size
        else c :: sanitize_loop p' (idx + 1) size
      else []
  end.

(** [sanitize_rel_path] for a non-null [rel]. *)
Definition sanitize_rel_path (rel : cstr) (size : nat) : cstr :=
  sanitize_loop rel 0 size.

(** The string [rel] of [bulk_process_file]: the path below the root,
    or the whole path when that is empty. *)
Definition bulk_rel (root filepath : cstr) : cstr :=
  let rel :=
    if starts_with filepath root then
      match skipn (strlen root) filepath with
      | c :: r => if chr_eq c "/"%char || chr_eq c "\"%char then r else c :: r
      | [] => []
      end
    else filepath in
  match rel with
  | [] => filepath
  | _ :: _ => rel
  end.

(** The string [base] of [bulk_process_file], from which the names of
    the three output files are made. *)
Definition bulk_base (root filepath : cstr) : cstr :=
  let safe := sanitize_rel_path (bulk_rel root filepath) MAX_PATH_LEN in
  let safe :=
    match safe with
    | [] => safe_strcpy safe (cs "file") MAX_PATH_LEN
    | _ :: _ => safe
    end in
  let base := safe_strcpy [] safe MAX_PATH_LEN in
  cut_at base (strrchr base "."%char).

(** What the loops of [output_json] print for one character of a
    docstring or signature. *)
Definition json_escape_char (c : ascii) : cstr :=
  if chr_eq c DQUOTE then ["\"%char; DQUOTE]
  else if chr_eq c LF then ["\"%char; "n"%char]
  else if chr_eq c "\"%char then ["\"%char; "\"%char]
  else [c].

(** What such a loop prints for the whole string. *)
Fixpoint json_escape (s : cstr) : cstr :=
  match s with
  | [] => []
  | c :: s' => json_escape_char c ++ json_escape s'
  end.

(* ================================================================== *)
(** * Vocabulary of the properties *)

(** [pat] occurs in [s] as a contiguous part. *)
Definition occurs (pat s : cstr) : Prop := exists a b, s = a ++ pat ++ b.

(** [q] comes from [p] by reading lines of the stream and nothing else. *)
Record reads (p q : Parser) : Prop := {
  reads_doc : doc q = doc p;
  reads_pending : pending_comment q = pending_comment p;
  reads_pending_line : pending_comment_line q = pending_comment_line p;
  reads_flag : out_of_bounds q = out_of_bounds p;
  reads_line_num : (line_num p <= line_num q)%Z;
  reads_fp : List.length (fp q) <= List.length (fp p);
  reads_count :
    (line_num q + Z.of_nat (List.length (fp q))
     = line_num p + Z.of_nat (List.length (fp p)))%Z
}.

(** The test under which an extractor copies the pending comment. *)
Inductive attach_rule : Type :=
| attach_never
| attach_previous
| attach_previous_or_same.

(** The test of rule [r] at the entry of an extractor, where the
    entity's line is [line_num p]. *)
Definition attach_test (r : attach_rule) (p : Parser) : bool :=
  match r with
  | attach_never => false
  | attach_previous => (pending_comment_line p =? line_num p - 1)%Z
  | attach_previous_or_same =>
      (pending_comment_line p =? line_num p - 1)%Z
      || (pending_comment_line p =? line_num p)%Z
  end.

(** The extractor entered at [p] filled [n] and left the parser [q]. *)
Record extracted (r : attach_rule) (p : Parser) (n : DocNode) (q : Parser)
    : Prop := {
  ex_line : line n = line_num p;
  ex_doc : doc q = doc p;
  ex_pending_line : pending_comment_line q = pending_comment_line p;
  ex_line_num : (line_num p <= line_num q)%Z;
  ex_fp : List.length (fp q) <= List.length (fp p);
  ex_count :
    (line_num q + Z.of_nat (List.length (fp q))
     = line_num p + Z.of_nat (List.length (fp p)))%Z;
  ex_docstring :
    docstring n =
    if attach_test r p then safe_strcpy [] (pending_comment p) MAX_DOC else [];
  ex_pending :
    pending_comment q = if attach_test r p then [] else pending_comment p
}.

(** What the extractors strip from the signature they store: a function
    loses everything from the first brace and from the first semicolon,
    a typedef everything from the first semicolon, a variable
    everything from the first " = ".  The aggregate, macro and include
    extractors store the trimmed text as it is. *)
Definition signature_stripped (n : DocNode) : Prop :=
  match type n with
  | NODE_FUNCTION =>
      ~ In "{"%char (signature n) /\ ~ In ";"%char (signature n)
  | NODE_TYPEDEF => ~ In ";"%char (signature n)
  | NODE_VARIABLE => strstr (signature n) (cs " = ") = None
  | _ => True
  end.

(** What [parse_line] can do to the parser: record (or, at the cap,
    drop) one entity, close a comment, or pass over the line. *)
Inductive line_step (p : Parser) : Parser -> Prop :=
| step_entity (r : attach_rule) (n : DocNode) (q : Parser) :
    extracted r p n q -> signature_stripped n ->
    line_step p (ADD_NODE q n)
| step_comment (q : Parser) :
    nodes (doc q) = nodes (doc p) ->
    (line_num p <= line_num q)%Z ->
    List.length (fp q) <= List.length (fp p) ->
    (line_num q + Z.of_nat (List.length (fp q))
     = line_num p + Z.of_nat (List.length (fp p)))%Z ->
    pending_comment_line q = line_num q ->
    List.length (pending_comment q) < MAX_DOC ->
    line_step p q
| step_skip (q : Parser) :
    doc q = doc p -> line_num q = line_num p -> fp q = fp p ->
    pending_comment_line q = pending_comment_line p ->
    pending_comment q = pending_comment p \/ pending_comment q = [] ->
    line_step p q.

(** Each entity's line is at least the line of the entity recorded
    before it. *)
Fixpoint lines_nondecreasing (ns : list DocNode) : Prop :=
  match ns with
  | a :: (b :: _) as rest => (line a <= line b)%Z /\ lines_nondecreasing rest
  | _ => True
  end.

(** [l'] keeps [l] as it is and adds entries behind it; nothing is
    added when [l] already has [MAX_NODES - 1] entries. *)
Definition extends (l l' : list DocNode) : Prop :=
  exists added, l' = l ++ added /\ (MAX_NODES - 1 <= List.length l -> added = []).

(** What holds of the parser at the head of the scanning loop. *)
Record scan_inv (p : Parser) : Prop := {
  inv_count : node_count (doc p) <= MAX_NODES - 1;
  inv_lines : lines_nondecreasing (nodes (doc p));
  inv_last : Forall (fun n => (line n <= line_num p)%Z) (nodes (doc p));
  inv_signatures : Forall signature_stripped (nodes (doc p));
  inv_pending_line : (pending_comment_line p <= line_num p)%Z;
  inv_pending : List.length (pending_comment p) < MAX_DOC
}.

(** The parser at the head of the scanning loop after at most [k]
    iterations of the scan of a file. *)
Definition scan_after (k : nat) (filename : cstr) (content : list ascii)
    (now_document now_file : cstr) : Parser :=
  let p := new_parser filename content now_document in
  parse_file_loop k (set_doc p (set_timestamp (doc p) now_file)).

(** The node that the extractor of a declaration (every extractor but
    [parse_include]) fills for the line in [p->line], and the parser it
    leaves for [ADD_NODE]; [None] when the line is dispatched to no
    such extractor. *)
Definition declaration_node (p : Parser) : option (DocNode * Parser) :=
  let pl := cstr_of (p_line p) in
  let line := ltrim pl in
  match classify pl with
  | C_define => macro_node p
  | C_aggregate t => Some (aggregate_node p t)
  | C_typedef => Some (typedef_node p)
  | C_function =>
      Some (function_node p (has line "static ") (has line "inline ")
              (has line "extern "))
  | C_variable =>
      Some (variable_node p (strlen (leading_ws pl)) (has line "static "))
  | _ => None
  end.

(** The lines the loop of [parse_file] sends to an extractor that
    attaches the pending comment (every extractor but
    [parse_include]). *)
Definition is_declaration (c : construct) : bool :=
  match c with
  | C_define | C_aggregate _ | C_typedef | C_function | C_variable => true
  | _ => false
  end.

(** The file is one on which the [int] counters of the code cannot
    overflow: [p->line_num] counts the pieces [fgets] returns, and
    [node->line] is a copy of it.  On such a file the integers of the
    embedding are the values of the C variables. *)
Definition counters_in_range (content : list ascii) : Prop :=
  (Z.of_nat (List.length (pieces content)) <= INT_MAX)%Z.

(** The parser with another text in the timestamp of its document. *)
Definition retime (t : cstr) (p : Parser) : Parser :=
  set_doc p (set_timestamp (doc p) t).

(** The document without its timestamp. *)
Definition without_timestamp (d : DOCUNATION) : DOCUNATION :=
  set_timestamp d [].

(** The parser at the first non-empty line of a source text, where the
    loop of [parse_file] classifies it. *)
Definition at_first_line (content : list ascii) : Parser :=
  snd (next_line (new_parser (cs "input.c") content [])).

(** A character that is no separator and no space. *)
Definition plain_char (c : ascii) : bool :=
  negb (chr_eq c "/"%char || chr_eq c "\"%char || chr_eq c " "%char).

(** The nodes the extractors fill, as the loop of [parse_file] calls
    them. *)
Inductive produced : DocNode -> Prop :=
| produced_function (p : Parser) (s i e : bool) :
    produced (fst (function_node p s i e))
| produced_aggregate (p : Parser) (t : NodeType) :
    t = NODE_STRUCT \/ t = NODE_UNION \/ t = NODE_ENUM ->
    produced (fst (aggregate_node p t))
| produced_typedef (p : Parser) :
    produced (fst (typedef_node p))
| produced_macro (p : Parser) (n : DocNode) (q : Parser) :
    macro_node p = Some (n, q) -> produced n
| produced_include (p : Parser) :
    produced (fst (include_node p))
| produced_variable (p : Parser) (k : nat) (s : bool) :
    produced (fst (variable_node p k s)).

(** Every string of the node fits the array of [DocNode] that holds
    it, terminator included. *)
Definition node_fits (n : DocNode) : Prop :=
  strlen (name n) < MAX_NAME
  /\ strlen (docstring n) < MAX_DOC
  /\ strlen (signature n) < MAX_SIG
  /\ strlen (return_type n) < MAX_NAME.

(** The fields only some kinds of entity use. *)
Definition fields_by_kind (n : DocNode) : Prop :=
  match type n with
  | NODE_FUNCTION => True
  | NODE_VARIABLE =>
      return_type n = [] /\ is_inline n = false /\ is_extern n = false
  | NODE_INCLUDE =>
      return_type n = [] /\ is_inline n = false /\ is_extern n = false
      /\ is_static n = false /\ docstring n = []
  | _ =>
      return_type n = [] /\ is_inline n = false /\ is_extern n = false
      /\ is_static n = false
  end.

(** The name of an aggregate: an identifier, or the placeholder of its
    kind. *)
Definition aggregate_named (n : DocNode) : Prop :=
  match type n with
  | NODE_STRUCT | NODE_UNION | NODE_ENUM =>
      name n <> []
      /\ (Forall (fun c => is_ident_char c = true) (name n)
          \/ name n = cs "(anonymous " ++ keyword_of (type n) ++ cs ")")
  | NODE_MACRO => Forall (fun c => is_ident_char c = true) (name n)
  | NODE_VARIABLE => Forall (fun c => is_ident_char c = true) (name n)
  | _ => True
  end.

(** A piece of the stream that [next_line] passes over. *)
Definition blank (piece : list ascii) : Prop := trim (cstr_of piece) = [].

(** A run of spaces and tabs. *)
Definition blanks (ws : cstr) : Prop :=
  Forall (fun c => c = " "%char \/ c = TAB) ws.

(** An identifier: a non-empty run of identifier characters. *)
Definition identifier (s : cstr) : Prop :=
  s <> [] /\ Forall (fun c => is_ident_char c = true) s.

(** The string is empty or begins with a character outside the class
    [f]. *)
Definition begins_without (f : ascii -> bool) (s : cstr) : Prop :=
  match s with c :: _ => f c = false | [] => True end.

(* ================================================================== *)
(** * Lemmas *)

(* ------------------------------------------------------------------ *)
(** ** Strings *)

Section Strings.

Lemma chr_eq_true (a b : ascii) : chr_eq a b = true <-> a = b.
Proof. unfold chr_eq. apply Ascii.eqb_eq. Qed.

Lemma chr_eq_false (a b : ascii) : chr_eq a b = false <-> a <> b.
Proof. unfold chr_eq. apply Ascii.eqb_neq. Qed.

Lemma cstr_of_app_nul (l r : list ascii) :
  cstr_of (l ++ NUL :: r) = cstr_of l.
Proof.
  induction l as [|c l IH]; simpl.
  - reflexivity.
  - destruct (chr_eq c NUL); [reflexivity | now rewrite IH].
Qed.

Lemma cstr_of_fgets_into (b : buffer) (piece : list ascii) :
  cstr_of (fgets_into b piece) = cstr_of piece.
Proof.
  unfold fgets_into, store. rewrite <- app_assoc. simpl.
  apply cstr_of_app_nul.
Qed.

Lemma strchr_None (s : cstr) (c : ascii) :
  strchr s c = None -> ~ In c s.
Proof.
  induction s as [|x s IH]; simpl; intros H.
  - tauto.
  - destruct (chr_eq x c) eqn:E; [discriminate|].
    apply chr_eq_false in E.
    destruct (strchr s c); [discriminate|].
    intros [->|Hin]; [congruence | now apply IH].
Qed.

Lemma strchr_Some (s : cstr) (c : ascii) (i : nat) :
  strchr s c = Some i -> ~ In c (firstn i s).
Proof.
  revert i. induction s as [|x s IH]; simpl; intros i H.
  - discriminate.
  - destruct (chr_eq x c) eqn:E.
    + injection H as <-. simpl. tauto.
    + apply chr_eq_false in E.
      destruct (strchr s c) as [j|]; [|discriminate].
      injection H as <-. simpl.
      intros [->|Hin]; [congruence | now apply (IH j)].
Qed.

(** Cutting a string at the first [c] leaves no [c]. *)
Lemma cut_at_strchr (s : cstr) (c : ascii) :
  ~ In c (cut_at s (strchr s c)).
Proof.
  destruct (strchr s c) as [i|] eqn:E; simpl.
  - now apply strchr_Some.
  - now apply strchr_None.
Qed.

Lemma In_cut_at (s : cstr) (r : option nat) (x : ascii) :
  In x (cut_at s r) -> In x s.
Proof.
  destruct r as [i|]; simpl; [|tauto].
  unfold cut. intros H. rewrite <- (firstn_skipn i s).
  apply in_or_app. now left.
Qed.

Lemma ltrim_split (s : cstr) : s = leading_ws s ++ ltrim s.
Proof.
  induction s as [|c s IH]; simpl; [reflexivity|].
  destruct (isspace c); simpl; [now f_equal | reflexivity].
Qed.

Lemma strip_trailing_split (s : cstr) : exists b, s = strip_trailing s ++ b.
Proof.
  induction s as [|c s [b IH]]; simpl.
  - now exists [].
  - destruct (strip_trailing s) as [|y t] eqn:E.
    + destruct (isspace c).
      * now exists (c :: s).
      * exists s. reflexivity.
    + exists b. simpl. simpl in IH. now rewrite <- IH.
Qed.

Lemma rtrim_split (s : cstr) : exists b, s = rtrim s ++ b.
Proof.
  destruct s as [|c s]; simpl.
  - now exists [].
  - destruct (strip_trailing_split s) as [b Hb]. exists b.
    now rewrite <- Hb.
Qed.

Lemma trim_inplace_split (s : cstr) : exists b, s = trim_inplace s ++ b.
Proof.
  unfold trim_inplace, trim.
  destruct (rtrim_split (ltrim s)) as [b Hb]. exists b.
  rewrite <- app_assoc, <- Hb. apply ltrim_split.
Qed.

(** [trim s] is a contiguous part of [s]. *)
Lemma trim_split (s : cstr) : exists a b, s = a ++ trim s ++ b.
Proof.
  destruct (trim_inplace_split s) as [b Hb].
  exists (leading_ws s), b. unfold trim_inplace in Hb.
  now rewrite <- app_assoc in Hb.
Qed.

Lemma In_trim (s : cstr) (x : ascii) : In x (trim s) -> In x s.
Proof.
  destruct (trim_split s) as (a & b & H). intros Hin. rewrite H.
  apply in_or_app. right. apply in_or_app. now left.
Qed.

Lemma trim_inplace_length (s : cstr) :
  List.length (trim_inplace s) <= List.length s.
Proof.
  destruct (trim_inplace_split s) as [b Hb].
  rewrite Hb at 2. rewrite length_app. lia.
Qed.

Lemma In_firstn (n : nat) (s : cstr) (x : ascii) :
  In x (firstn n s) -> In x s.
Proof.
  intros H. rewrite <- (firstn_skipn n s). apply in_or_app. now left.
Qed.

Lemma In_safe_strcpy (s : cstr) (size : nat) (x : ascii) :
  In x (safe_strcpy [] s size) -> In x s.
Proof.
  unfold safe_strcpy. destruct (size =? 0); simpl; [tauto|].
  apply In_firstn.
Qed.

Lemma safe_strcpy_fits (s : cstr) (size : nat) :
  List.length s < size -> safe_strcpy [] s size = s.
Proof.
  unfold safe_strcpy. intros H.
  destruct (size =? 0) eqn:E.
  - apply Nat.eqb_eq in E. lia.
  - apply firstn_all2. lia.
Qed.

Lemma starts_with_spec (s pat : cstr) :
  starts_with s pat = true <-> exists r, s = pat ++ r.
Proof.
  revert s. induction pat as [|x pat IH]; intros s; simpl.
  - split; [intros _; now exists s | reflexivity].
  - destruct s as [|c s].
    + split; [discriminate | intros [r H]; discriminate].
    + rewrite andb_true_iff, chr_eq_true, IH. split.
      * intros [-> [r ->]]. now exists r.
      * intros [r H]. injection H as -> ->. split; [reflexivity | now exists r].
Qed.

Lemma strstr_None (s pat : cstr) : strstr s pat = None -> ~ occurs pat s.
Proof.
  induction s as [|c s IH]; simpl; intros H [a [b Hab]].
  - destruct (starts_with [] pat) eqn:E; [discriminate|].
    destruct a; [|discriminate]. simpl in Hab.
    assert (starts_with [] pat = true) by (apply starts_with_spec; now exists b).
    congruence.
  - destruct (starts_with (c :: s) pat) eqn:E; [discriminate|].
    destruct (strstr s pat); [discriminate|].
    destruct a as [|x a]; simpl in Hab.
    + assert (starts_with (c :: s) pat = true)
        by (apply starts_with_spec; now exists b).
      congruence.
    + injection Hab as -> ->. apply IH; [reflexivity|]. now exists a, b.
Qed.

Lemma strstr_Some (s pat : cstr) (i : nat) :
  pat <> [] -> strstr s pat = Some i -> ~ occurs pat (firstn i s).
Proof.
  intros Hpat. revert i. induction s as [|c s IH]; simpl; intros i H [a [b Hab]].
  - rewrite firstn_nil in Hab. destruct a, pat; simpl in *; congruence.
  - destruct (starts_with (c :: s) pat) eqn:E.
    + injection H as <-. simpl in Hab. destruct a, pat; simpl in *; congruence.
    + destruct (strstr s pat) as [j|] eqn:Ej; [|discriminate].
      injection H as <-. simpl in Hab.
      destruct a as [|x a]; simpl in Hab.
      * assert (starts_with (c :: s) pat = true).
        { apply starts_with_spec. exists (b ++ skipn j s).
          rewrite <- (firstn_skipn j s) at 1.
          change (c :: firstn j s ++ skipn j s)
            with ((c :: firstn j s) ++ skipn j s).
          rewrite Hab. now rewrite <- app_assoc. }
        congruence.
      * injection Hab as -> Hab. apply (IH j); [reflexivity|]. now exists a, b.
Qed.

Lemma not_occurs_strstr (s pat : cstr) : ~ occurs pat s -> strstr s pat = None.
Proof.
  induction s as [|c s IH]; simpl; intros H.
  - destruct (starts_with [] pat) eqn:E; [|reflexivity].
    exfalso. apply H. apply starts_with_spec in E as [r Hr].
    exists [], r. exact Hr.
  - destruct (starts_with (c :: s) pat) eqn:E.
    + exfalso. apply H. apply starts_with_spec in E as [r Hr].
      exists [], r. exact Hr.
    + rewrite IH; [reflexivity|].
      intros (a & b & Hab). apply H. exists (c :: a), b. now rewrite Hab.
Qed.

Lemma occurs_part (pat t s : cstr) (a b : cstr) :
  s = a ++ t ++ b -> occurs pat t -> occurs pat s.
Proof.
  intros -> (a' & b' & ->). exists (a ++ a'), (b' ++ b).
  now rewrite <- !app_assoc.
Qed.

Lemma occurs_trim (pat s : cstr) : occurs pat (trim s) -> occurs pat s.
Proof.
  destruct (trim_split s) as (a & b & H). now apply occurs_part with a b.
Qed.

Lemma occurs_firstn (pat s : cstr) (n : nat) :
  occurs pat (firstn n s) -> occurs pat s.
Proof.
  apply occurs_part with [] (skipn n s). simpl.
  symmetry. apply firstn_skipn.
Qed.

Lemma occurs_safe_strcpy (pat s : cstr) (size : nat) :
  pat <> [] -> occurs pat (safe_strcpy [] s size) -> occurs pat s.
Proof.
  unfold safe_strcpy. intros Hpat. destruct (size =? 0).
  - intros (a & b & H). destruct a, pat; simpl in *; congruence.
  - apply occurs_firstn.
Qed.

End Strings.

(* ------------------------------------------------------------------ *)
(** ** Reading lines *)

Section Reading.

Lemma reads_refl (p : Parser) : reads p p.
Proof. constructor; try reflexivity; lia. Qed.

Lemma reads_trans (p q r : Parser) : reads p q -> reads q r -> reads p r.
Proof.
  intros [] []. constructor; try congruence; lia.
Qed.

Lemma reads_read_line (p : Parser) (piece : list ascii) (rest : list (list ascii)) :
  fp p = piece :: rest -> reads p (read_line p piece rest).
Proof.
  intros H. constructor; cbn [read_line doc pending_comment
    pending_comment_line out_of_bounds line_num fp];
    try reflexivity; rewrite ?H; cbn [List.length]; lia.
Qed.

Lemma reads_trim_line (p : Parser) : reads p (snd (trim_line p)).
Proof. constructor; simpl; try reflexivity; lia. Qed.

Lemma reads_read_trim (p : Parser) (piece : list ascii) (rest : list (list ascii)) :
  fp p = piece :: rest ->
  reads p (snd (trim_line (read_line p piece rest))).
Proof.
  intros H. apply reads_trans with (read_line p piece rest).
  - now apply reads_read_line.
  - apply reads_trim_line.
Qed.

Lemma next_line_from_reads (rest : list (list ascii)) (p : Parser) :
  fp p = rest -> reads p (snd (next_line_from rest p)).
Proof.
  revert p. induction rest as [|piece rest IH]; intros p H; simpl.
  - apply reads_refl.
  - destruct (0 <? strlen (trim (cstr_of (fgets_into (p_line p) piece)))).
    + apply (reads_read_trim p piece rest H).
    + eapply reads_trans; [apply (reads_read_trim p piece rest H)|].
      now apply IH.
Qed.

Lemma next_line_reads (p : Parser) : reads p (snd (next_line p)).
Proof. now apply next_line_from_reads. Qed.

(** A line was found: the counter advanced and the stream got shorter. *)
Lemma next_line_from_true (rest : list (list ascii)) (p q : Parser) :
  fp p = rest -> next_line_from rest p = (true, q) ->
  (line_num p < line_num q)%Z /\ List.length (fp q) < List.length (fp p).
Proof.
  revert p. induction rest as [|piece rest IH]; intros p H; simpl.
  - discriminate.
  - destruct (0 <? strlen (trim (cstr_of (fgets_into (p_line p) piece)))) eqn:E.
    + intros [= <-]. simpl. rewrite H. simpl. lia.
    + intros Hn.
      destruct (IH (snd (trim_line (read_line p piece rest))) eq_refl Hn)
        as (H1 & H2).
      simpl in H1, H2. rewrite H. simpl. lia.
Qed.

Lemma next_line_true (p q : Parser) :
  next_line p = (true, q) ->
  (line_num p < line_num q)%Z /\ List.length (fp q) < List.length (fp p).
Proof. now apply next_line_from_true. Qed.

(** No line was found: the stream is at its end. *)
Lemma next_line_from_false (rest : list (list ascii)) (p q : Parser) :
  fp p = rest -> next_line_from rest p = (false, q) -> fp q = [].
Proof.
  revert p. induction rest as [|piece rest IH]; intros p H; simpl.
  - now intros [= <-].
  - destruct (0 <? strlen (trim (cstr_of (fgets_into (p_line p) piece)))) eqn:E.
    + discriminate.
    + now apply IH.
Qed.

Lemma next_line_false (p q : Parser) :
  next_line p = (false, q) -> fp q = [].
Proof. now apply next_line_from_false. Qed.

Lemma next_line_at_end (p : Parser) : fp p = [] -> next_line p = (false, p).
Proof. unfold next_line. now intros ->. Qed.

End Reading.

(* ------------------------------------------------------------------ *)
(** ** The reading loops of the extractors *)

Section Loops.

Ltac loop_step p piece rest H IH :=
  eapply reads_trans;
    [apply (reads_read_trim p piece rest H) | now apply IH].

Lemma function_sig_loop_reads (rest : list (list ascii)) (p : Parser) (sig : cstr) :
  fp p = rest -> reads p (fst (function_sig_loop rest p sig)).
Proof.
  revert p sig. induction rest as [|piece rest IH]; intros p sig H; simpl;
    destruct (found (strchr sig "{"%char) || found (strchr sig ";"%char));
    simpl; try apply reads_refl.
  loop_step p piece rest H IH.
Qed.

Lemma typedef_sig_loop_reads (rest : list (list ascii)) (p : Parser) (sig : cstr) :
  fp p = rest -> reads p (fst (typedef_sig_loop rest p sig)).
Proof.
  revert p sig. induction rest as [|piece rest IH]; intros p sig H; simpl;
    destruct (found (strchr sig ";"%char));
    simpl; try apply reads_refl.
  loop_step p piece rest H IH.
Qed.

Lemma macro_loop_reads (rest : list (list ascii)) (p : Parser) (sig : cstr) :
  fp p = rest -> reads p (fst (macro_loop rest p sig)).
Proof.
  revert p sig. induction rest as [|piece rest IH]; intros p sig H; simpl;
    destruct (negb (last_is sig "\"%char) && negb (penultimate_is sig "\"%char));
    simpl; try apply reads_refl.
  loop_step p piece rest H IH.
Qed.

Lemma variable_loop_reads (rest : list (list ascii)) (p : Parser) (sig : cstr) :
  fp p = rest -> reads p (fst (variable_loop rest p sig)).
Proof.
  revert p sig. induction rest as [|piece rest IH]; intros p sig H; simpl.
  - apply reads_refl.
  - match goal with |- context [if ?c then (_, _) else _] => destruct c end.
    + apply (reads_read_line p piece rest H).
    + eapply reads_trans; [apply (reads_read_line p piece rest H)|].
      now apply IH.
Qed.

Lemma block_comment_loop_reads (rest : list (list ascii)) (p : Parser) (buf : cstr) :
  fp p = rest -> reads p (fst (block_comment_loop rest p buf)).
Proof.
  revert p buf. induction rest as [|piece rest IH]; intros p buf H; simpl.
  - apply reads_refl.
  - match goal with |- context [if ?c then (_, _) else _] => destruct c end.
    + apply (reads_read_line p piece rest H).
    + eapply reads_trans; [apply (reads_read_line p piece rest H)|].
      now apply IH.
Qed.

Lemma safe_append_app (dest src : cstr) (size : nat) :
  exists x, safe_append dest src size = dest ++ x.
Proof.
  unfold safe_append. destruct (size =? 0); [exists []; now rewrite app_nil_r|].
  destruct (size - 1 <=? strlen dest); [exists []; now rewrite app_nil_r|].
  now eexists.
Qed.

Lemma last_is_snoc (s : cstr) (c x : ascii) :
  last_is (s ++ [c]) x = chr_eq c x.
Proof. unfold last_is. now rewrite rev_app_distr. Qed.

(** What the continuation loop of [parse_macro] leaves of the string
    it starts with: all of it, a final backslash apart, which becomes
    a space. *)
Lemma macro_loop_prefix (rest : list (list ascii)) (p : Parser) (sig : cstr) :
  exists more,
    snd (macro_loop rest p sig)
    = (if last_is sig "\"%char then removelast sig ++ cs " " else sig)
      ++ more.
Proof.
  revert p sig. induction rest as [|piece rest IH]; intros p sig;
    cbn [macro_loop].
  - destruct (last_is sig "\"%char); cbn [negb andb snd].
    + exists []. now rewrite app_nil_r.
    + destruct (negb (penultimate_is sig "\"%char)); exists [];
        now rewrite app_nil_r.
  - set (sig1 := if last_is sig "\"%char then removelast sig ++ cs " "
                 else sig).
    assert (H1 : last_is sig1 "\"%char = false).
    { subst sig1. destruct (last_is sig "\"%char) eqn:E; [|exact E].
      apply last_is_snoc. }
    destruct (negb (last_is sig "\"%char)
              && negb (penultimate_is sig "\"%char)) eqn:Stop.
    + exists []. cbn [snd]. rewrite app_nil_r. subst sig1.
      now destruct (last_is sig "\"%char).
    + destruct (trim_line (read_line p piece rest)) as [trimmed p1].
      set (sig2 := if strlen sig1 + strlen trimmed <? MAX_SIG - 1
                   then safe_append sig1 trimmed MAX_SIG else sig1).
      destruct (IH p1 sig2) as [more Hm]. rewrite Hm.
      assert (H2 : exists x, sig2 = sig1 ++ x).
      { subst sig2. destruct (_ <? _); [apply safe_append_app|].
        exists []. now rewrite app_nil_r. }
      destruct H2 as [x Hx]. rewrite Hx.
      destruct (last_is (sig1 ++ x) "\"%char) eqn:L.
      * destruct x as [|x0 x] using rev_ind.
        -- rewrite app_nil_r in L. congruence.
        -- rewrite app_assoc, removelast_last, <- !app_assoc. now eexists.
      * rewrite <- app_assoc. now eexists.
Qed.

Lemma variable_declaration_reads (p : Parser) (k : nat) :
  reads p (fst (variable_declaration p k)).
Proof.
  unfold variable_declaration.
  match goal with |- context [if ?c then _ else _] => destruct c end.
  - now apply variable_loop_reads.
  - apply reads_refl.
Qed.

End Loops.

(* ------------------------------------------------------------------ *)
(** ** What an extractor does to the parser *)

Section Extractors.

Ltac from_reads R :=
  destruct R as [Rd Rp Rl Rf Rn Rs Rc];
  constructor; unfold attach_doc, attach_test; simpl; rewrite ?Rl;
  repeat match goal with
  | |- context [if ?c then _ else _] => destruct c
  end;
  simpl; try assumption; try reflexivity; try congruence; try lia.

Lemma function_node_extracted (p : Parser) (s i e : bool) :
  extracted attach_previous_or_same p
    (fst (function_node p s i e)) (snd (function_node p s i e)).
Proof.
  unfold function_node.
  pose proof (function_sig_loop_reads (fp p) p
                (safe_append [] (cstr_of (p_line p)) MAX_SIG) eq_refl) as R.
  destruct (function_sig_loop _ _ _) as [p1 sig]. simpl in R.
  destruct (strchr _ "("%char) as [[|before]|]; from_reads R.
Qed.

Lemma aggregate_node_extracted (p : Parser) (t : NodeType) :
  extracted attach_previous p
    (fst (aggregate_node p t)) (snd (aggregate_node p t)).
Proof.
  unfold aggregate_node, trim_line.
  pose proof (reads_refl p) as R.
  from_reads R.
Qed.

Lemma typedef_node_extracted (p : Parser) :
  extracted attach_previous p (fst (typedef_node p)) (snd (typedef_node p)).
Proof.
  unfold typedef_node.
  pose proof (typedef_sig_loop_reads (fp p) p
                (safe_append [] (cstr_of (p_line p)) MAX_SIG) eq_refl) as R.
  destruct (typedef_sig_loop _ _ _) as [p1 sig]. simpl in R.
  destruct (cut_at sig _); from_reads R.
Qed.

Lemma macro_node_extracted (p : Parser) (n : DocNode) (q : Parser) :
  macro_node p = Some (n, q) -> extracted attach_previous p n q.
Proof.
  unfold macro_node.
  destruct (strstr _ _) as [def|]; [|discriminate].
  pose proof (macro_loop_reads (fp p) p
                (safe_strcpy [] (skipn def (cstr_of (p_line p))) MAX_SIG)
                eq_refl) as R.
  destruct (macro_loop _ _ _) as [p1 sig]. simpl in R.
  unfold attach_doc.
  destruct (pending_comment_line p1 =? line_num p - 1)%Z eqn:E;
    intros [= <- <-]; rewrite (reads_pending_line _ _ R) in E;
    destruct R as [Rd Rp Rl Rf Rn Rs Rc];
    constructor; simpl; unfold attach_test; rewrite ?E;
    try assumption; try reflexivity; try congruence; try lia.
Qed.

Lemma variable_node_extracted (p : Parser) (k : nat) (s : bool) :
  extracted attach_previous p
    (fst (variable_node p k s)) (snd (variable_node p k s)).
Proof.
  unfold variable_node.
  pose proof (variable_declaration_reads p k) as R.
  destruct (variable_declaration p k) as [p1 sig]. simpl in R.
  from_reads R.
Qed.

Lemma include_node_extracted (p : Parser) :
  extracted attach_never p (fst (include_node p)) (snd (include_node p)).
Proof.
  unfold include_node, trim_line.
  pose proof (reads_refl p) as R.
  from_reads R.
Qed.

End Extractors.

(* ------------------------------------------------------------------ *)
(** ** Stored signatures *)

Section Signatures.

Lemma function_node_signature (p : Parser) (s i e : bool) :
  signature_stripped (fst (function_node p s i e)).
Proof.
  unfold function_node.
  destruct (function_sig_loop _ _ _) as [p1 sig].
  destruct (strchr _ "("%char) as [[|before]|];
    destruct (attach_doc _ _) as [d p2]; unfold signature_stripped; simpl;
    (split; intros H; apply In_safe_strcpy, In_trim in H;
     [apply In_cut_at in H | ]; revert H; apply cut_at_strchr).
Qed.

Lemma typedef_node_signature (p : Parser) :
  signature_stripped (fst (typedef_node p)).
Proof.
  unfold typedef_node.
  destruct (typedef_sig_loop _ _ _) as [p1 sig].
  destruct (cut_at sig _) as [|c sig'] eqn:E;
    destruct (attach_doc _ _) as [d p2]; unfold signature_stripped; simpl;
    intros H.
  - destruct H.
  - apply In_safe_strcpy, In_trim in H.
    rewrite <- E in H. revert H. apply cut_at_strchr.
Qed.

Lemma variable_node_signature (p : Parser) (k : nat) (s : bool) :
  signature_stripped (fst (variable_node p k s)).
Proof.
  assert (Hpat : cs " = " <> []) by (vm_compute; discriminate).
  unfold variable_node.
  destruct (variable_declaration p k) as [p1 sig].
  destruct (strstr sig (cs " = ")) as [eq|] eqn:E;
    destruct (attach_doc _ _) as [d p2]; unfold signature_stripped;
    cbn [fst type signature]; apply not_occurs_strstr; intros H;
    apply (occurs_safe_strcpy _ _ _ Hpat) in H; apply occurs_trim in H.
  - revert H. now apply strstr_Some.
  - apply strstr_None in E. apply E.
    destruct (strchr sig "{"%char); simpl in H; [|exact H].
    now apply occurs_firstn in H.
Qed.

Lemma aggregate_node_type (p : Parser) (t : NodeType) :
  type (fst (aggregate_node p t)) = t.
Proof.
  unfold aggregate_node, trim_line. now destruct (attach_doc _ _).
Qed.

Lemma macro_node_type (p : Parser) (n : DocNode) (q : Parser) :
  macro_node p = Some (n, q) -> type n = NODE_MACRO.
Proof.
  unfold macro_node. destruct (strstr _ _); [|discriminate].
  destruct (macro_loop _ _ _). destruct (attach_doc _ _).
  now intros [= <- _].
Qed.

Lemma include_node_type (p : Parser) : type (fst (include_node p)) = NODE_INCLUDE.
Proof. reflexivity. Qed.

End Signatures.

(* ------------------------------------------------------------------ *)
(** ** Cleaned comments fit their buffer *)

Section Comments.

Lemma clean_loop_length (fuel : nat) (p : cstr) (b : bool) (room : nat) :
  List.length (clean_loop fuel p b room) <= room.
Proof.
  revert p b room. induction fuel as [|fuel IH]; intros p b room.
  - simpl. lia.
  - destruct p as [|c p]; [simpl; lia|].
    destruct room as [|room]; [simpl; lia|].
    cbn [clean_loop].
    repeat match goal with
           | |- context [if ?c then _ else _] => destruct c
           end;
      try apply IH; cbn [List.length]; apply le_n_S, IH.
Qed.

Lemma clean_comment_length (raw : cstr) (size : nat) :
  List.length (clean_comment raw size) <= size - 1.
Proof.
  unfold clean_comment.
  eapply Nat.le_trans; [apply trim_inplace_length | apply clean_loop_length].
Qed.

End Comments.

(* ------------------------------------------------------------------ *)
(** ** One iteration of the scanning loop *)

Section Step.

Lemma MAX_DOC_pos : 0 < MAX_DOC.
Proof. apply Nat.ltb_lt. vm_compute. reflexivity. Qed.

Lemma clean_comment_fits (raw : cstr) :
  List.length (clean_comment raw MAX_DOC) < MAX_DOC.
Proof.
  pose proof (clean_comment_length raw MAX_DOC). pose proof MAX_DOC_pos. lia.
Qed.

Lemma classify_aggregate (pl : cstr) (t : NodeType) :
  classify pl = C_aggregate t ->
  t = NODE_STRUCT \/ t = NODE_UNION \/ t = NODE_ENUM.
Proof.
  unfold classify.
  repeat match goal with
         | |- context [if ?c then _ else _] => destruct c
         end;
    intros H; try discriminate H; injection H as <-; tauto.
Qed.

(** A line that begins with "typedef" goes to the typedef extractor,
    whatever aggregate keyword it contains. *)
Lemma classify_typedef (pl : cstr) :
  begins (ltrim pl) "typedef" = true -> classify pl = C_typedef.
Proof.
  unfold begins. intros H. apply starts_with_spec in H as [r Hr].
  unfold classify, begins, has. rewrite Hr.
  cbn [cs list_ascii_of_string app starts_with strstr chr_eq Ascii.eqb
       Bool.eqb andb orb negb found].
  now rewrite !andb_false_r.
Qed.

(** A line that contains "typedef" never goes to the aggregate
    extractor. *)
Lemma classify_typedef_inside (pl : cstr) (t : NodeType) :
  has (ltrim pl) "typedef" = true -> classify pl <> C_aggregate t.
Proof.
  unfold classify. intros ->. cbn [negb]. rewrite !andb_false_r.
  repeat match goal with
         | |- context [if ?c then _ else _] => destruct c
         end; discriminate.
Qed.

Lemma classify_define (pl : cstr) :
  classify pl = C_define -> begins (ltrim pl) "#define" = true.
Proof.
  unfold classify.
  destruct (begins (ltrim pl) "/*"); [discriminate|].
  destruct (begins (ltrim pl) "//"); [discriminate|].
  destruct (begins (ltrim pl) "#").
  - destruct (begins (ltrim pl) "#include"); [discriminate|].
    now destruct (begins (ltrim pl) "#define").
  - repeat match goal with
           | |- context [if ?c then _ else _] => destruct c
           end; discriminate.
Qed.

(** A pattern that begins the line behind its leading whitespace, and
    does not itself begin with whitespace, is found there by
    [strstr]. *)
Lemma strstr_after_ws (pl : cstr) (c0 : ascii) (pat : cstr) :
  isspace c0 = false ->
  starts_with (ltrim pl) (c0 :: pat) = true ->
  strstr pl (c0 :: pat) = Some (List.length (leading_ws pl))
  /\ skipn (List.length (leading_ws pl)) pl = ltrim pl.
Proof.
  intros Hc. induction pl as [|x pl IH]; intros H; [discriminate H|].
  cbn [ltrim leading_ws] in *. destruct (isspace x) eqn:Hx.
  - destruct (IH H) as [I1 I2]. cbn [List.length skipn]. split; [|exact I2].
    cbn [strstr]. rewrite I1.
    replace (starts_with (x :: pl) (c0 :: pat)) with false; [reflexivity|].
    cbn [starts_with]. destruct (chr_eq x c0) eqn:E; [|reflexivity].
    apply chr_eq_true in E. congruence.
  - cbn [List.length skipn]. split; [|reflexivity].
    cbn [strstr]. now rewrite H.
Qed.

(** On a line that the classifier sends to [parse_macro] the early
    [return] is not taken; the signature stored is the trimmed text
    that begins with the line from [#define] on, a final backslash
    replaced by a space. *)
Lemma macro_node_define (p : Parser) :
  classify (cstr_of (p_line p)) = C_define ->
  exists (n : DocNode) (q : Parser) (more : cstr),
    macro_node p = Some (n, q)
    /\ type n = NODE_MACRO
    /\ signature n
       = safe_strcpy []
           (trim
              ((let first :=
                  safe_strcpy [] (ltrim (cstr_of (p_line p))) MAX_SIG in
                if last_is first "\"%char
                then removelast first ++ [" "%char] else first) ++ more))
           MAX_SIG.
Proof.
  intros E. apply classify_define in E. unfold begins in E.
  destruct (strstr_after_ws (cstr_of (p_line p)) "#"%char
              (list_ascii_of_string "define") eq_refl E) as [K1 K2].
  unfold macro_node.
  change (cs "#define") with ("#"%char :: list_ascii_of_string "define").
  rewrite K1, K2.
  destruct (macro_loop_prefix (fp p) p
              (safe_strcpy [] (ltrim (cstr_of (p_line p))) MAX_SIG))
    as [more Hm].
  destruct (macro_loop _ _ _) as [p1 sig]. cbn [snd] in Hm. subst sig.
  destruct (attach_doc p1 _) as [d p2].
  eexists. eexists. exists more. split; [reflexivity|].
  split; reflexivity.
Qed.

Lemma parse_block_comment_closed (p : Parser) :
  let q := parse_block_comment p in
  doc q = doc p /\ (line_num p <= line_num q)%Z
  /\ List.length (fp q) <= List.length (fp p)
  /\ pending_comment_line q = line_num q
  /\ List.length (pending_comment q) < MAX_DOC
  /\ out_of_bounds q = out_of_bounds p
  /\ (line_num q + Z.of_nat (List.length (fp q))
      = line_num p + Z.of_nat (List.length (fp p)))%Z.
Proof.
  unfold parse_block_comment.
  destruct (found (strstr (cstr_of (p_line p)) (cs "*/"))).
  - simpl. repeat split; try lia. apply clean_comment_fits.
  - pose proof (block_comment_loop_reads (fp p) p
                  (safe_append [] (cstr_of (p_line p)) MAX_DOC) eq_refl) as R.
    destruct (block_comment_loop _ _ _) as [p1 buf1]. simpl in R.
    destruct R as [Rd Rp Rl Rf Rn Rs Rc]. simpl.
    repeat split; try assumption. apply clean_comment_fits.
Qed.

Lemma parse_line_step (p : Parser) : line_step p (parse_line p).
Proof.
  unfold parse_line.
  destruct (classify (cstr_of (p_line p))) eqn:E.
  - destruct (parse_block_comment_closed p) as (Hd & Hn & Hf & Hl & Hc & _ & Hk).
    destruct (_ && _); apply step_comment; simpl; try assumption;
      now rewrite Hd.
  - apply step_comment; simpl; try reflexivity; try lia.
    apply clean_comment_fits.
  - unfold parse_include.
    pose proof (include_node_extracted p) as X.
    pose proof (include_node_type p) as T.
    destruct (include_node p) as [n q].
    apply step_entity with attach_never; [exact X|].
    unfold signature_stripped. simpl in T. now rewrite T.
  - unfold parse_macro. destruct (macro_node p) as [[n q]|] eqn:M.
    + apply step_entity with attach_previous.
      * now apply macro_node_extracted.
      * unfold signature_stripped. now rewrite (macro_node_type p n q M).
    + apply step_skip; auto.
  - apply step_skip; auto.
  - unfold parse_aggregate.
    pose proof (aggregate_node_extracted p t) as X.
    pose proof (aggregate_node_type p t) as T.
    destruct (aggregate_node p t) as [n q].
    apply step_entity with attach_previous; [exact X|].
    unfold signature_stripped. simpl in T. rewrite T.
    now destruct (classify_aggregate _ _ E) as [->|[->| ->]].
  - unfold parse_typedef.
    pose proof (typedef_node_extracted p) as X.
    pose proof (typedef_node_signature p) as G.
    destruct (typedef_node p) as [n q].
    now apply step_entity with attach_previous.
  - unfold parse_function.
    match goal with
    | |- context [function_node p ?s ?i ?e] =>
        pose proof (function_node_extracted p s i e) as X;
        pose proof (function_node_signature p s i e) as G;
        destruct (function_node p s i e) as [n q]
    end.
    now apply step_entity with attach_previous_or_same.
  - unfold parse_variable.
    match goal with
    | |- context [variable_node p ?k ?s] =>
        pose proof (variable_node_extracted p k s) as X;
        pose proof (variable_node_signature p k s) as G;
        destruct (variable_node p k s) as [n q]
    end.
    now apply step_entity with attach_previous.
  - destruct (_ <? _)%Z; apply step_skip; auto.
Qed.

End Step.

(* ------------------------------------------------------------------ *)
(** ** Invariants of the scan *)

Section Invariants.

Lemma lines_nondecreasing_snoc (ns : list DocNode) (m : DocNode) :
  lines_nondecreasing ns ->
  Forall (fun n => (line n <= line m)%Z) ns ->
  lines_nondecreasing (ns ++ [m]).
Proof.
  induction ns as [|a ns IH]; intros Hs Hf.
  - exact I.
  - inversion Hf as [|? ? Ha Hf']; subst.
    destruct ns as [|b ns].
    + simpl. split; [exact Ha | exact I].
    + destruct Hs as [Hab Hs]. split; [exact Hab|].
      now apply IH.
Qed.

Lemma Forall_line_le (ns : list DocNode) (x y : Z) :
  (x <= y)%Z ->
  Forall (fun n => (line n <= x)%Z) ns -> Forall (fun n => (line n <= y)%Z) ns.
Proof.
  intros Hxy. apply Forall_impl. intros n Hn. lia.
Qed.

Lemma extends_refl (l : list DocNode) : extends l l.
Proof. exists []. now rewrite app_nil_r. Qed.

Lemma extends_trans (l1 l2 l3 : list DocNode) :
  extends l1 l2 -> extends l2 l3 -> extends l1 l3.
Proof.
  intros (a & -> & Ha) (b & -> & Hb). exists (a ++ b).
  split; [now rewrite app_assoc|].
  intros H. rewrite (Ha H) in *. simpl. apply Hb.
  now rewrite app_nil_r.
Qed.

Lemma ADD_NODE_cases (q : Parser) (n : DocNode) :
  (MAX_NODES - 1 <= node_count (doc q) /\ ADD_NODE q n = q)
  \/ (node_count (doc q) < MAX_NODES - 1
      /\ ADD_NODE q n = set_doc q (push_node (doc q) n)).
Proof.
  unfold ADD_NODE.
  destruct (Nat.leb_spec (MAX_NODES - 1) (node_count (doc q))); auto.
Qed.

Lemma next_line_inv (p : Parser) :
  scan_inv p -> scan_inv (snd (next_line p)).
Proof.
  intros [Hc Hl Hf Hs Hp Hd].
  destruct (next_line_reads p) as [Rd Rp Rl Rf Rn Rs Rc].
  constructor; rewrite ?Rd, ?Rp, ?Rl; try assumption; try lia.
  now apply Forall_line_le with (line_num p).
Qed.

Lemma line_step_inv (p q : Parser) :
  line_step p q -> scan_inv p -> scan_inv q.
Proof.
  intros Hstep [Hc Hl Hf Hs Hp Hd].
  destruct Hstep as [r n q [El Ed Epl Eln Efp Ecn Eds Epc] Hsig
                    | q Hn Hln Hfp Hcn Hpl Hpc
                    | q Hdoc Hln Hfp Hpl Hpc].
  - assert (Hq : List.length (pending_comment q) < MAX_DOC).
    { rewrite Epc. destruct (attach_test r p); [apply MAX_DOC_pos | exact Hd]. }
    destruct (ADD_NODE_cases q n) as [[_ ->]|[Hlt ->]].
    + constructor; rewrite ?Ed, ?Epl; try assumption; try lia.
      now apply Forall_line_le with (line_num p).
    + unfold node_count in Hlt. rewrite Ed in Hlt.
      constructor;
        cbn [doc nodes line_num pending_comment pending_comment_line
             set_doc push_node];
        rewrite ?Ed, ?Epl; try assumption; try lia.
      * unfold node_count. cbn [doc set_doc nodes push_node].
        rewrite length_app. cbn [List.length]. lia.
      * apply lines_nondecreasing_snoc; [exact Hl|]. now rewrite El.
      * apply Forall_app. split.
        -- now apply Forall_line_le with (line_num p).
        -- constructor; [lia | constructor].
      * apply Forall_app. split; [exact Hs|]. now constructor.
  - constructor; unfold node_count; rewrite ?Hn, ?Hpl; try assumption; try lia.
    + now apply Forall_line_le with (line_num p).
  - constructor; rewrite ?Hdoc, ?Hln, ?Hpl; try assumption.
    destruct Hpc as [-> | ->]; [exact Hd | apply MAX_DOC_pos].
Qed.

Lemma line_step_extends (p q : Parser) :
  line_step p q -> extends (nodes (doc p)) (nodes (doc q)).
Proof.
  intros [r n q' [El Ed Epl Eln Efp Ecn Eds Epc] Hsig
         | q' Hn Hln Hfp Hcn Hpl Hpc
         | q' Hdoc Hln Hfp Hpl Hpc].
  - destruct (ADD_NODE_cases q' n) as [[_ ->]|[Hlt ->]].
    + rewrite Ed. apply extends_refl.
    + simpl. rewrite Ed. exists [n]. split; [reflexivity|].
      unfold node_count in Hlt. rewrite Ed in Hlt. lia.
  - rewrite Hn. apply extends_refl.
  - rewrite Hdoc. apply extends_refl.
Qed.

Lemma line_step_fp (p q : Parser) :
  line_step p q -> List.length (fp q) <= List.length (fp p).
Proof.
  intros [r n q' [El Ed Epl Eln Efp Ecn Eds Epc] Hsig
         | q' Hn Hln Hfp Hcn Hpl Hpc
         | q' Hdoc Hln Hfp Hpl Hpc].
  - destruct (ADD_NODE_cases q' n) as [[_ ->]|[Hlt ->]]; simpl; exact Efp.
  - exact Hfp.
  - rewrite Hfp. lia.
Qed.

Lemma parse_file_loop_inv (fuel : nat) (p : Parser) :
  scan_inv p -> scan_inv (parse_file_loop fuel p).
Proof.
  revert p. induction fuel as [|fuel IH]; intros p Hp; simpl.
  - exact Hp.
  - pose proof (next_line_inv p Hp) as H1.
    destruct (next_line p) as [[|] p1]; simpl in H1.
    + apply IH. apply (line_step_inv p1); [apply parse_line_step | exact H1].
    + exact H1.
Qed.

Lemma parse_file_loop_extends (fuel : nat) (p : Parser) :
  extends (nodes (doc p)) (nodes (doc (parse_file_loop fuel p))).
Proof.
  revert p. induction fuel as [|fuel IH]; intros p; simpl.
  - apply extends_refl.
  - pose proof (reads_doc _ _ (next_line_reads p)) as H1.
    destruct (next_line p) as [[|] p1]; simpl in H1; rewrite <- H1.
    + eapply extends_trans; [|apply IH].
      apply line_step_extends, parse_line_step.
    + apply extends_refl.
Qed.

(** The loop stops at the end of the stream, not for lack of fuel. *)
Lemma parse_file_loop_at_end (fuel : nat) (p : Parser) :
  List.length (fp p) < fuel -> fp (parse_file_loop fuel p) = [].
Proof.
  revert p. induction fuel as [|fuel IH]; intros p Hp; simpl.
  - lia.
  - destruct (next_line p) as [[|] p1] eqn:E.
    + apply IH. apply next_line_true in E.
      pose proof (line_step_fp _ _ (parse_line_step p1)). lia.
    + now apply next_line_false in E.
Qed.

Lemma parse_file_loop_done (fuel : nat) (p : Parser) :
  fp p = [] -> parse_file_loop fuel p = p.
Proof.
  intros H. destruct fuel; simpl; [reflexivity|].
  now rewrite (next_line_at_end p H).
Qed.

Lemma parse_file_loop_add (k n : nat) (p : Parser) :
  parse_file_loop (k + n) p = parse_file_loop n (parse_file_loop k p).
Proof.
  revert p. induction k as [|k IH]; intros p; simpl.
  - reflexivity.
  - destruct (next_line p) as [[|] p1] eqn:E.
    + apply IH.
    + symmetry. apply parse_file_loop_done. now apply next_line_false in E.
Qed.

(** More fuel than the stream has pieces changes nothing. *)
Lemma parse_file_loop_enough (fuel n : nat) (p : Parser) :
  List.length (fp p) < fuel ->
  parse_file_loop (fuel + n) p = parse_file_loop fuel p.
Proof.
  intros H. rewrite parse_file_loop_add.
  apply parse_file_loop_done. now apply parse_file_loop_at_end.
Qed.

End Invariants.

(* ------------------------------------------------------------------ *)
(** ** The scan of a file *)

Section Scan.

Variables (filename : cstr) (content : list ascii).
Variables (now_document now_file : cstr).

Lemma scan_after_inv (k : nat) :
  scan_inv (scan_after k filename content now_document now_file).
Proof.
  apply parse_file_loop_inv.
  constructor; unfold node_count;
    cbn [doc nodes set_doc set_timestamp new_parser line_num
         pending_comment pending_comment_line List.length].
  - apply Nat.le_0_l.
  - exact I.
  - constructor.
  - constructor.
  - lia.
  - apply MAX_DOC_pos.
Qed.

Lemma scan_is_scan_after :
  scan filename content now_document now_file
  = scan_after (S (List.length (pieces content)))
      filename content now_document now_file.
Proof. reflexivity. Qed.

Lemma scan_after_extends (k : nat) :
  extends
    (nodes (doc (scan_after k filename content now_document now_file)))
    (nodes (doc (scan filename content now_document now_file))).
Proof.
  rewrite scan_is_scan_after. unfold scan_after.
  set (p := set_doc _ _).
  set (full := S (List.length (pieces content))).
  assert (Hfull : List.length (fp p) < full) by (subst p full; simpl; lia).
  destruct (Nat.le_gt_cases k full) as [Hk|Hk].
  - replace full with (k + (full - k)) at 1 by lia.
    rewrite parse_file_loop_add. apply parse_file_loop_extends.
  - replace k with (full + (k - full)) by lia.
    rewrite (parse_file_loop_enough _ _ _ Hfull). apply extends_refl.
Qed.

End Scan.

(* ------------------------------------------------------------------ *)
(** ** Attachment of the pending comment *)

Section Attachment.

Lemma declaration_node_parse_line (p : Parser) (n : DocNode) (q : Parser) :
  declaration_node p = Some (n, q) -> parse_line p = ADD_NODE q n.
Proof.
  unfold declaration_node, parse_line.
  destruct (classify (cstr_of (p_line p))); try discriminate.
  - unfold parse_macro. now intros ->.
  - unfold parse_aggregate. now intros [= ->].
  - unfold parse_typedef. now intros [= ->].
  - unfold parse_function. now intros [= ->].
  - unfold parse_variable. now intros [= ->].
Qed.

Lemma declaration_node_extracted (p : Parser) (n : DocNode) (q : Parser) :
  declaration_node p = Some (n, q) ->
  extracted attach_previous p n q
  \/ extracted attach_previous_or_same p n q.
Proof.
  unfold declaration_node.
  destruct (classify (cstr_of (p_line p))); try discriminate; intros H.
  - left. now apply macro_node_extracted.
  - left. pose proof (aggregate_node_extracted p t) as X.
    injection H as H. now rewrite H in X.
  - left. pose proof (typedef_node_extracted p) as X.
    injection H as H. now rewrite H in X.
  - right. injection H as H.
    match type of H with
    | function_node p ?s ?i ?e = _ =>
        pose proof (function_node_extracted p s i e) as X
    end.
    now rewrite H in X.
  - left. injection H as H.
    match type of H with
    | variable_node p ?k ?s = _ =>
        pose proof (variable_node_extracted p k s) as X
    end.
    now rewrite H in X.
Qed.

(** An extractor entered with the pending comment closed on an earlier
    line copies the comment exactly when it closed on the line before. *)
Lemma extracted_attachment (r : attach_rule) (p : Parser) (n : DocNode)
    (q : Parser) :
  r <> attach_never ->
  extracted r p n q ->
  (pending_comment_line p < line_num p)%Z ->
  List.length (pending_comment p) < MAX_DOC ->
  if (pending_comment_line p =? line_num p - 1)%Z
  then docstring n = pending_comment p /\ pending_comment q = []
  else docstring n = [] /\ pending_comment q = pending_comment p.
Proof.
  intros Hr [_ _ _ _ _ _ Hd Hq] Hlt Hfit.
  assert (Ht : attach_test r p = (pending_comment_line p =? line_num p - 1)%Z).
  { destruct r; simpl; [congruence | reflexivity |].
    replace (pending_comment_line p =? line_num p)%Z with false
      by (symmetry; apply Z.eqb_neq; lia).
    apply orb_false_r. }
  rewrite Ht in Hd, Hq.
  destruct (pending_comment_line p =? line_num p - 1)%Z; split;
    try assumption.
  rewrite Hd. now apply safe_strcpy_fits.
Qed.

(** When an extractor is entered during a scan, the pending comment
    closed on an earlier line: [next_line] has advanced [line_num]
    since.  So the second alternative of the test of [parse_function]
    ([pending_comment_line == node->line]) never holds there. *)
Lemma pending_comment_closed_before
    (filename : cstr) (content : list ascii) (now_document now_file : cstr)
    (k : nat) (p : Parser) :
  next_line (scan_after k filename content now_document now_file) = (true, p) ->
  (pending_comment_line p < line_num p)%Z
  /\ List.length (pending_comment p) < MAX_DOC.
Proof.
  intros Hnext.
  pose proof (scan_after_inv filename content now_document now_file k) as Hinv.
  pose proof (next_line_reads
                (scan_after k filename content now_document now_file)) as R.
  pose proof (next_line_true _ _ Hnext) as [Hlt _].
  rewrite Hnext in R. simpl in R.
  destruct Hinv as [_ _ _ _ Hpl Hpc].
  destruct R as [_ Rp Rl _ _ _ _].
  split; [lia | now rewrite Rp].
Qed.

(** Entered on its own with a comment closed on the current line, an
    extractor other than [parse_function] would not attach it: their
    test has the first alternative only. *)
Remark aggregate_same_line_not_attached (p : Parser) (t : NodeType) :
  pending_comment_line p = line_num p ->
  docstring (fst (aggregate_node p t)) = []
  /\ pending_comment (snd (aggregate_node p t)) = pending_comment p.
Proof.
  intros H.
  destruct (aggregate_node_extracted p t) as [_ _ _ _ _ _ Hd Hq].
  cbn [attach_test] in Hd, Hq.
  replace (pending_comment_line p =? line_num p - 1)%Z with false in Hd, Hq
    by (symmetry; apply Z.eqb_neq; lia).
  now split.
Qed.

End Attachment.

(* ------------------------------------------------------------------ *)
(** ** The clock *)

Section Clock.

Variable t : cstr.

Ltac by_IH IH :=
  match goal with
  | |- _ = (retime _ (fst (_ _ ?X ?s)), _) => exact (IH X s)
  end.

Lemma function_sig_loop_retime (rest : list (list ascii)) (p : Parser) (sig : cstr) :
  function_sig_loop rest (retime t p) sig
  = (retime t (fst (function_sig_loop rest p sig)),
     snd (function_sig_loop rest p sig)).
Proof.
  revert p sig. induction rest as [|piece rest IH]; intros p sig;
    cbn [function_sig_loop];
    destruct (found (strchr sig "{"%char) || found (strchr sig ";"%char));
    try reflexivity.
  unfold trim_line. by_IH IH.
Qed.

Lemma typedef_sig_loop_retime (rest : list (list ascii)) (p : Parser) (sig : cstr) :
  typedef_sig_loop rest (retime t p) sig
  = (retime t (fst (typedef_sig_loop rest p sig)),
     snd (typedef_sig_loop rest p sig)).
Proof.
  revert p sig. induction rest as [|piece rest IH]; intros p sig;
    cbn [typedef_sig_loop];
    destruct (found (strchr sig ";"%char)); try reflexivity.
  unfold trim_line. by_IH IH.
Qed.

Lemma macro_loop_retime (rest : list (list ascii)) (p : Parser) (sig : cstr) :
  macro_loop rest (retime t p) sig
  = (retime t (fst (macro_loop rest p sig)), snd (macro_loop rest p sig)).
Proof.
  revert p sig. induction rest as [|piece rest IH]; intros p sig;
    cbn [macro_loop];
    destruct (negb (last_is sig "\"%char) && negb (penultimate_is sig "\"%char));
    try reflexivity.
  unfold trim_line. by_IH IH.
Qed.

Lemma variable_loop_retime (rest : list (list ascii)) (p : Parser) (sig : cstr) :
  variable_loop rest (retime t p) sig
  = (retime t (fst (variable_loop rest p sig)),
     snd (variable_loop rest p sig)).
Proof.
  revert p sig. induction rest as [|piece rest IH]; intros p sig;
    cbn [variable_loop]; [reflexivity|].
  cbn [p_line read_line retime set_doc].
  match goal with |- context [if ?c then (_, _) else _] => destruct c end;
    [reflexivity|].
  by_IH IH.
Qed.

Lemma block_comment_loop_retime (rest : list (list ascii)) (p : Parser) (buf : cstr) :
  block_comment_loop rest (retime t p) buf
  = (retime t (fst (block_comment_loop rest p buf)),
     snd (block_comment_loop rest p buf)).
Proof.
  revert p buf. induction rest as [|piece rest IH]; intros p buf;
    cbn [block_comment_loop]; [reflexivity|].
  cbn [p_line read_line retime set_doc].
  match goal with |- context [if ?c then (_, _) else _] => destruct c end;
    [reflexivity|].
  by_IH IH.
Qed.

Lemma next_line_from_retime (rest : list (list ascii)) (p : Parser) :
  next_line_from rest (retime t p)
  = (fst (next_line_from rest p), retime t (snd (next_line_from rest p))).
Proof.
  revert p. induction rest as [|piece rest IH]; intros p;
    cbn [next_line_from]; [reflexivity|].
  unfold trim_line. cbn [p_line read_line retime set_doc set_line].
  match goal with |- context [if ?c then (_, _) else _] => destruct c end;
    [reflexivity|].
  match goal with
  | |- _ = (_, retime _ (snd (_ _ ?X))) => exact (IH X)
  end.
Qed.

Lemma next_line_retime (p : Parser) :
  next_line (retime t p) = (fst (next_line p), retime t (snd (next_line p))).
Proof. apply next_line_from_retime. Qed.

Lemma ADD_NODE_retime (q : Parser) (n : DocNode) :
  ADD_NODE (retime t q) n = retime t (ADD_NODE q n).
Proof.
  unfold ADD_NODE.
  change (node_count (doc (retime t q))) with (node_count (doc q)).
  now destruct (MAX_NODES - 1 <=? node_count (doc q)).
Qed.

Ltac outside p :=
  change (fp (retime t p)) with (fp p);
  change (p_line (retime t p)) with (p_line p);
  change (line_num (retime t p)) with (line_num p);
  change (pending_comment_line (retime t p)) with (pending_comment_line p);
  change (pending_comment (retime t p)) with (pending_comment p).

Ltac add_node :=
  unfold attach_doc;
  repeat match goal with
         | |- context [if ?c then (_, _) else _] => destruct c
         end;
  match goal with
  | |- _ = retime _ (ADD_NODE ?Z ?n) => exact (ADD_NODE_retime Z n)
  end.

Lemma parse_function_retime (p : Parser) (s i e : bool) :
  parse_function (retime t p) s i e = retime t (parse_function p s i e).
Proof.
  unfold parse_function, function_node. outside p.
  rewrite function_sig_loop_retime.
  destruct (function_sig_loop (fp p) p _) as [p1 sig]. cbn [fst snd].
  destruct (strchr _ "("%char) as [[|before]|]; outside p1; add_node.
Qed.

Lemma parse_aggregate_retime (p : Parser) (k : NodeType) :
  parse_aggregate (retime t p) k = retime t (parse_aggregate p k).
Proof.
  unfold parse_aggregate, aggregate_node, trim_line. outside p.
  change (pending_comment_line (set_line (retime t p) (trim_buffer (p_line p))))
    with (pending_comment_line (set_line p (trim_buffer (p_line p)))).
  add_node.
Qed.

Lemma parse_typedef_retime (p : Parser) :
  parse_typedef (retime t p) = retime t (parse_typedef p).
Proof.
  unfold parse_typedef, typedef_node. outside p.
  rewrite typedef_sig_loop_retime.
  destruct (typedef_sig_loop (fp p) p _) as [p1 sig]. cbn [fst snd].
  destruct (cut_at sig _); outside p1; add_node.
Qed.

Lemma parse_macro_retime (p : Parser) :
  parse_macro (retime t p) = retime t (parse_macro p).
Proof.
  unfold parse_macro, macro_node. outside p.
  destruct (strstr _ _) as [def|]; [|reflexivity].
  rewrite macro_loop_retime.
  destruct (macro_loop (fp p) p _) as [p1 sig]. cbn [fst snd].
  outside p1. add_node.
Qed.

Lemma parse_include_retime (p : Parser) :
  parse_include (retime t p) = retime t (parse_include p).
Proof.
  unfold parse_include, include_node, trim_line. outside p.
  add_node.
Qed.

Lemma parse_variable_retime (p : Parser) (k : nat) (s : bool) :
  parse_variable (retime t p) k s = retime t (parse_variable p k s).
Proof.
  unfold parse_variable, variable_node, variable_declaration. outside p.
  rewrite variable_loop_retime.
  match goal with
  | |- context [if ?c then (_, _) else _] => destruct c
  end.
  - destruct (variable_loop (fp p) p _) as [p1 sig]. cbn [fst snd].
    outside p1. add_node.
  - cbv beta iota. outside p. add_node.
Qed.

Lemma parse_block_comment_retime (p : Parser) :
  parse_block_comment (retime t p) = retime t (parse_block_comment p).
Proof.
  unfold parse_block_comment. outside p.
  rewrite block_comment_loop_retime.
  destruct (found (strstr (cstr_of (p_line p)) (cs "*/"))); [reflexivity|].
  now destruct (block_comment_loop (fp p) p _) as [p1 buf].
Qed.

Lemma parse_line_retime (p : Parser) :
  parse_line (retime t p) = retime t (parse_line p).
Proof.
  unfold parse_line. outside p.
  destruct (classify (cstr_of (p_line p))).
  - rewrite parse_block_comment_retime.
    set (c := parse_block_comment p).
    change (node_count (doc (retime t c))) with (node_count (doc c)).
    change (d_docstring (doc (retime t c))) with (d_docstring (doc c)).
    now destruct (_ && _).
  - reflexivity.
  - apply parse_include_retime.
  - apply parse_macro_retime.
  - reflexivity.
  - apply parse_aggregate_retime.
  - apply parse_typedef_retime.
  - apply parse_function_retime.
  - apply parse_variable_retime.
  - now destruct (_ <? _)%Z.
Qed.

Lemma parse_file_loop_retime (fuel : nat) (p : Parser) :
  parse_file_loop fuel (retime t p) = retime t (parse_file_loop fuel p).
Proof.
  revert p. induction fuel as [|fuel IH]; intros p; cbn [parse_file_loop].
  - reflexivity.
  - rewrite next_line_retime.
    destruct (next_line p) as [[|] p1]; cbn [fst snd]; [|reflexivity].
    rewrite parse_line_retime. apply IH.
Qed.

End Clock.

(** The document of a scan is the document of the scan with empty
    timestamps, but for the timestamp. *)
Lemma scan_timestamp (filename : cstr) (content : list ascii)
    (now_document now_file : cstr) :
  doc (scan filename content now_document now_file)
  = set_timestamp (doc (scan filename content [] [])) now_file.
Proof.
  unfold scan, parse_file.
  change (set_doc (new_parser filename content now_document)
            (set_timestamp (doc (new_parser filename content now_document))
               now_file))
    with (retime now_file (new_parser filename content [])).
  change (set_doc (new_parser filename content [])
            (set_timestamp (doc (new_parser filename content [])) []))
    with (new_parser filename content []).
  change (fp (new_parser filename content now_document))
    with (fp (new_parser filename content [])).
  now rewrite parse_file_loop_retime.
Qed.

(** Whether the run reaches the byte in front of [sig] does not depend
    on the clock either. *)
Lemma scan_flag_timestamp (filename : cstr) (content : list ascii)
    (now_document now_file : cstr) :
  out_of_bounds (scan filename content now_document now_file)
  = out_of_bounds (scan filename content [] []).
Proof.
  unfold scan, parse_file.
  change (set_doc (new_parser filename content now_document)
            (set_timestamp (doc (new_parser filename content now_document))
               now_file))
    with (retime now_file (new_parser filename content [])).
  change (set_doc (new_parser filename content [])
            (set_timestamp (doc (new_parser filename content [])) []))
    with (new_parser filename content []).
  change (fp (new_parser filename content now_document))
    with (fp (new_parser filename content [])).
  now rewrite parse_file_loop_retime.
Qed.

(* ------------------------------------------------------------------ *)
(** ** Fuel and the line counter *)

Section Fuel.

Lemma skip_blanks_length (p : cstr) :
  List.length (skip_blanks p) <= List.length p.
Proof.
  induction p as [|c p IH]; simpl; [lia|].
  destruct (chr_eq c " "%char || chr_eq c TAB); simpl; lia.
Qed.

Lemma clean_loop_enough (fuel : nat) (p : cstr) (b : bool) (room : nat) :
  2 * List.length p + (if b then 1 else 0) < fuel ->
  clean_loop (S fuel) p b room = clean_loop fuel p b room.
Proof.
  revert p b room. induction fuel as [|fuel IH]; intros p b room H; [lia|].
  destruct p as [|c p]; [reflexivity|].
  destruct room as [|room]; [reflexivity|].
  remember (S fuel) as g eqn:Hg. rewrite Hg at 2.
  cbn [clean_loop]. subst g.
  destruct (starts_with (c :: p) (cs "*/")).
  - apply IH. pose proof (length_skipn 2 (c :: p)). simpl in *. lia.
  - destruct (chr_eq c LF).
    + f_equal. apply IH. simpl in *. lia.
    + destruct b.
      * apply IH.
        pose proof (skip_blanks_length (c :: p)) as L.
        destruct (skip_blanks (c :: p)) as [|x q]; [simpl in *; lia|].
        destruct (chr_eq x "*"%char && negb (starts_with q (cs "/"))).
        -- destruct q as [|y q']; [simpl in *; lia|].
           destruct (chr_eq y " "%char); simpl in *; lia.
        -- simpl in *; lia.
      * f_equal. apply IH. simpl in *. lia.
Qed.

Lemma clean_loop_fuel (n : nat) (p : cstr) (room : nat) :
  clean_loop (2 * strlen p + 2 + n) p true room
  = clean_loop (2 * strlen p + 2) p true room.
Proof.
  induction n as [|n IH]; [now rewrite Nat.add_0_r|].
  rewrite Nat.add_succ_r, clean_loop_enough; [exact IH|].
  unfold strlen. lia.
Qed.

Lemma read_piece_split (room : nat) (s : list ascii) :
  s = fst (read_piece room s) ++ snd (read_piece room s).
Proof.
  revert s. induction room as [|room IH]; intros s; [reflexivity|].
  destruct s as [|c s]; [reflexivity|]. simpl.
  destruct (chr_eq c LF); [reflexivity|].
  specialize (IH s). destruct (read_piece room s) as [l rest].
  simpl in *. now f_equal.
Qed.

Lemma read_piece_progress (room : nat) (c : ascii) (s : list ascii) :
  List.length (snd (read_piece (S room) (c :: s))) <= List.length s.
Proof.
  simpl. destruct (chr_eq c LF); [simpl; lia|].
  pose proof (read_piece_split room s) as H.
  destruct (read_piece room s) as [l rest]. cbn [fst snd] in *.
  apply (f_equal (@List.length ascii)) in H. rewrite length_app in H. lia.
Qed.

Lemma pieces_fuel_concat (fuel : nat) (s : list ascii) :
  List.length s <= fuel -> concat (pieces_fuel fuel s) = s.
Proof.
  revert s. induction fuel as [|fuel IH]; intros s H.
  - destruct s; [reflexivity | simpl in H; lia].
  - destruct s as [|c s]; [reflexivity|].
    cbn [pieces_fuel].
    pose proof (read_piece_split (MAX_LINE - 1) (c :: s)) as Hs.
    assert (Hp : List.length (snd (read_piece (MAX_LINE - 1) (c :: s)))
                 <= List.length s).
    { change (MAX_LINE - 1) with (S (MAX_LINE - 2)).
      apply read_piece_progress. }
    destruct (read_piece (MAX_LINE - 1) (c :: s)) as [l rest].
    cbn [fst snd] in *. cbn [concat]. rewrite IH; [now symmetry|].
    simpl in H. lia.
Qed.

(** The pieces [fgets] returns are the content of the file, in order. *)
Lemma pieces_concat (s : list ascii) : concat (pieces s) = s.
Proof. apply pieces_fuel_concat. lia. Qed.

Lemma pieces_fuel_length (fuel : nat) (s : list ascii) :
  List.length (pieces_fuel fuel s) <= fuel.
Proof.
  revert s. induction fuel as [|fuel IH]; intros s; [simpl; lia|].
  destruct s as [|c s]; [simpl; lia|]. cbn [pieces_fuel].
  destruct (read_piece (MAX_LINE - 1) (c :: s)) as [l rest].
  cbn [List.length]. specialize (IH rest). lia.
Qed.

Lemma line_step_count (p q : Parser) :
  line_step p q ->
  (line_num q + Z.of_nat (List.length (fp q))
   = line_num p + Z.of_nat (List.length (fp p)))%Z.
Proof.
  intros [r n q' [El Ed Epl Eln Efp Ecn Eds Epc] Hsig
         | q' Hn Hln Hfp Hcn Hpl Hpc
         | q' Hdoc Hln Hfp Hpl Hpc].
  - destruct (ADD_NODE_cases q' n) as [[_ ->]|[Hlt ->]]; exact Ecn.
  - exact Hcn.
  - now rewrite Hln, Hfp.
Qed.

Lemma parse_file_loop_count (fuel : nat) (p : Parser) :
  (line_num (parse_file_loop fuel p)
   + Z.of_nat (List.length (fp (parse_file_loop fuel p)))
   = line_num p + Z.of_nat (List.length (fp p)))%Z.
Proof.
  revert p. induction fuel as [|fuel IH]; intros p; cbn [parse_file_loop].
  - reflexivity.
  - pose proof (reads_count _ _ (next_line_reads p)) as H1.
    destruct (next_line p) as [[|] p1]; cbn [snd] in H1.
    + rewrite IH, <- H1. apply line_step_count, parse_line_step.
    + exact H1.
Qed.

Lemma parse_file_loop_line_num (fuel : nat) (p : Parser) :
  (line_num p <= line_num (parse_file_loop fuel p))%Z.
Proof.
  revert p. induction fuel as [|fuel IH]; intros p; cbn [parse_file_loop];
    [lia|].
  pose proof (reads_line_num _ _ (next_line_reads p)) as H1.
  destruct (next_line p) as [[|] p1]; cbn [snd] in H1; [|exact H1].
  specialize (IH (parse_line p1)).
  assert (line_num p1 <= line_num (parse_line p1))%Z; [|lia].
  destruct (parse_line_step p1)
    as [r n q' [El Ed Epl Eln Efp Ecn Eds Epc] Hsig
       | q' Hn Hln Hfp Hcn Hpl Hpc
       | q' Hdoc Hln Hfp Hpl Hpc]; try lia.
  destruct (ADD_NODE_cases q' n) as [[_ ->]|[Hlt ->]]; exact Eln.
Qed.

Lemma parse_file_loop_lines_pos (fuel : nat) (p : Parser) :
  (0 <= line_num p)%Z ->
  Forall (fun n => (1 <= line n)%Z) (nodes (doc p)) ->
  Forall (fun n => (1 <= line n)%Z) (nodes (doc (parse_file_loop fuel p))).
Proof.
  revert p. induction fuel as [|fuel IH]; intros p H0 H; cbn [parse_file_loop];
    [exact H|].
  pose proof (next_line_reads p) as R.
  destruct (next_line p) as [[|] p1] eqn:E; cbn [snd] in R;
    [|now rewrite (reads_doc _ _ R)].
  apply next_line_true in E as [E _].
  rewrite <- (reads_doc _ _ R) in H.
  destruct (parse_line_step p1)
    as [r n q' [El Ed Epl Eln Efp Ecn Eds Epc] Hsig
       | q' Hn Hln Hfp Hcn Hpl Hpc
       | q' Hdoc Hln Hfp Hpl Hpc].
  - destruct (ADD_NODE_cases q' n) as [[_ ->]|[_ ->]]; apply IH; simpl;
      rewrite ?Ed; try lia; try assumption.
    apply Forall_app. split; [exact H|]. constructor; [lia | constructor].
  - apply IH; [lia | now rewrite Hn].
  - apply IH; [lia | now rewrite Hdoc].
Qed.

(** [line_num] counts the pieces read: it never exceeds the number of
    bytes of the file, so it stays in the range of [int] for every file
    of less than 2 GiB. *)
Lemma line_num_bounded (k : nat) (filename : cstr) (content : list ascii)
    (now_document now_file : cstr) :
  (0 <= line_num (scan_after k filename content now_document now_file)
   <= Z.of_nat (List.length content))%Z.
Proof.
  unfold scan_after.
  set (p := set_doc _ _).
  pose proof (parse_file_loop_count k p) as H.
  pose proof (parse_file_loop_line_num k p) as Hm.
  assert (Hz : line_num p = 0%Z) by reflexivity.
  assert (Hf : List.length (fp p) <= List.length content)
    by apply pieces_fuel_length.
  lia.
Qed.

End Fuel.

(* ================================================================== *)
(** * The claims of the specification *)

Section Claims.

Local Open Scope string_scope.

(** C1.  For every input file the scan records at most [MAX_NODES]
    entities, and what has been recorded after any number of
    iterations of the scanning loop is kept as it is in the final
    document, with nothing added behind it once the cap
    ([MAX_NODES - 1] recorded entries, where [ADD_NODE] returns) has
    been reached.  On every file on which the [int] line counter cannot
    overflow (at most [INT_MAX] pieces), the entities are in
    non-decreasing [line] order and every [line] is in the range of
    [int]. *)
Theorem C1_entities_bounded_kept_ordered
    (filename : cstr) (content : list ascii) (now_document now_file : cstr) :
  let final := doc (scan filename content now_document now_file) in
  node_count final <= MAX_NODES
  /\ (forall k : nat,
        extends
          (nodes (doc (scan_after k filename content now_document now_file)))
          (nodes final))
  /\ (counters_in_range content ->
      lines_nondecreasing (nodes final)
      /\ Forall (fun n => (1 <= line n <= INT_MAX)%Z) (nodes final)).
Proof.
  cbv zeta. rewrite scan_is_scan_after.
  destruct (scan_after_inv filename content now_document now_file
              (S (List.length (pieces content)))) as [Hc Hl Hlast _ _ _].
  repeat split.
  - lia.
  - intros k. rewrite <- scan_is_scan_after. apply scan_after_extends.
  - exact Hl.
  - unfold counters_in_range in H. unfold scan_after in *.
    set (p := set_doc _ _) in *.
    pose proof (parse_file_loop_lines_pos (S (List.length (pieces content))) p)
      as Hp.
    pose proof (parse_file_loop_count (S (List.length (pieces content))) p)
      as Hn.
    change (line_num p) with 0%Z in Hn, Hp.
    change (fp p) with (pieces content) in Hn.
    specialize (Hp ltac:(lia) ltac:(constructor)).
    rewrite Forall_forall in *. intros n Hin.
    specialize (Hlast n Hin). specialize (Hp n Hin). cbv beta in *. lia.
Qed.

(** C1 at a file of three lines: a prototype, a struct and a macro. *)
Lemma C1_entities_bounded_kept_ordered_witness :
  let final :=
    doc (scan (cs "input.c")
           (text ["int f(void);"; "struct s { int x; };"; "#define N 1"])
           [] []) in
  lines_nondecreasing (nodes final)
  /\ Forall (fun n => (1 <= line n <= INT_MAX)%Z) (nodes final).
Proof.
  cbv zeta.
  apply (C1_entities_bounded_kept_ordered (cs "input.c")
           (text ["int f(void);"; "struct s { int x; };"; "#define N 1"])
           [] []).
  unfold counters_in_range. apply Z.leb_le. vm_compute. reflexivity.
Defined.






(** C4.  Whenever a scan, at a line found by [next_line] after any
    number [k] of iterations of the scanning loop and below the cap,
    sends the line to the function, struct, union, enum, typedef, macro
    or variable extractor, the iteration records one entity [n] that
    starts on this line, and the pending comment becomes its doc
    exactly when the comment's closing line is the entity's starting
    line minus one or is the entity's starting line; when it is
    attached the pending comment is cleared, and otherwise the doc is
    empty and the pending comment stays.  (The comment always closed
    on an earlier line, so the second alternative never occurs in a
    scan.)  The run is one the C code defines: the file is one on
    which the [int] line counters cannot overflow, and the iteration
    does not reach the byte in front of the array [sig]. *)
Theorem C4_doc_attachment
    (filename : cstr) (content : list ascii) (now_document now_file : cstr)
    (k : nat) (p : Parser) :
  counters_in_range content ->
  next_line (scan_after k filename content now_document now_file) = (true, p) ->
  is_declaration (classify (cstr_of (p_line p))) = true ->
  node_count (doc p) < MAX_NODES - 1 ->
  out_of_bounds (parse_line p) = false ->
  exists n : DocNode,
    nodes (doc (parse_line p)) = (nodes (doc p) ++ [n])%list
    /\ line n = line_num p
    /\ (pending_comment_line p < line n)%Z
    /\ ((pending_comment_line p = line n - 1 \/ pending_comment_line p = line n
         -> docstring n = pending_comment p
            /\ pending_comment (parse_line p) = [])
        /\ (~ (pending_comment_line p = line n - 1
               \/ pending_comment_line p = line n)
            -> docstring n = []
               /\ pending_comment (parse_line p) = pending_comment p))%Z.
Proof.
  intros _ Hnext Hkind Hcap _.
  destruct (pending_comment_closed_before _ _ _ _ _ _ Hnext)
    as [Hbefore Hfit].
  assert (Hdecl : exists n q, declaration_node p = Some (n, q)).
  { unfold declaration_node.
    destruct (classify (cstr_of (p_line p))) eqn:E; try discriminate Hkind;
      try match goal with
          | |- exists n q, Some ?X = Some (n, q) =>
              exists (fst X), (snd X); now destruct X
          end.
    destruct (macro_node_define p E) as (n & q & _ & M & _).
    now exists n, q. }
  destruct Hdecl as (n & q & Hdecl).
  assert (Hx : line n = line_num p /\ doc q = doc p)
    by (destruct (declaration_node_extracted p n q Hdecl) as [X|X];
        split; apply X).
  destruct Hx as [Hline Hdoc].
  assert (Hatt :
    if (pending_comment_line p =? line_num p - 1)%Z
    then docstring n = pending_comment p /\ pending_comment q = []
    else docstring n = [] /\ pending_comment q = pending_comment p).
  { destruct (declaration_node_extracted p n q Hdecl) as [X|X];
      eapply extracted_attachment; eauto; discriminate. }
  rewrite (declaration_node_parse_line p n q Hdecl).
  exists n.
  assert (Hadd : nodes (doc (ADD_NODE q n)) = (nodes (doc p) ++ [n])%list
                 /\ pending_comment (ADD_NODE q n) = pending_comment q).
  { destruct (ADD_NODE_cases q n) as [[Hge _]|[_ ->]].
    - rewrite Hdoc in Hge. lia.
    - now rewrite <- Hdoc. }
  destruct Hadd as [Hnodes Hpend]. rewrite Hpend.
  split; [exact Hnodes|]. split; [exact Hline|]. rewrite Hline.
  split; [exact Hbefore|].
  destruct (Z.eqb_spec (pending_comment_line p) (line_num p - 1)).
  - split; [tauto | intros Hno; exfalso; apply Hno; now left].
  - split; [intros [H|H]; lia | tauto].
Qed.

(** C4 at the second line of [/* doc */] / [int f(void);]: the comment
    closed on line 1, the prototype starts on line 2 and takes it. *)
Lemma C4_doc_attachment_witness :
  match next_line (scan_after 1 (cs "input.c")
                     (text ["/* doc */"; "int f(void);"]) [] []) with
  | (true, p) =>
      exists n : DocNode,
        nodes (doc (parse_line p)) = [n]
        /\ line n = 2%Z /\ pending_comment_line p = 1%Z
        /\ docstring n = cs "doc" /\ pending_comment (parse_line p) = []
  | (false, _) => False
  end.
Proof.
  destruct (next_line _) as [[|] p] eqn:E1;
    [|vm_compute in E1; discriminate E1].
  destruct (C4_doc_attachment (cs "input.c")
              (text ["/* doc */"; "int f(void);"]) [] [] 1 p)
    as (n & Hn & Hl & _ & Ha & _).
  - unfold counters_in_range. apply Z.leb_le. vm_compute. reflexivity.
  - exact E1.
  - vm_compute in E1. injection E1 as <-. vm_compute. reflexivity.
  - vm_compute in E1. injection E1 as <-.
    apply Nat.ltb_lt. vm_compute. reflexivity.
  - vm_compute in E1. injection E1 as <-. vm_compute. reflexivity.
  - exists n. vm_compute in E1. injection E1 as <-.
    cbn [line_num pending_comment_line pending_comment doc nodes] in Hl, Ha, Hn
      |- *.
    destruct Ha as [Hd Hq]; [left; rewrite Hl; reflexivity|].
    repeat split; assumption.
Defined.

(** C5: the code at a multi-line initializer.  The declaration that
    [parse_variable] reconstructs for
    [static int a[] = {] / [  1, 2,] / [};] is the first line followed
    by one space per line read; the text of the continuation lines is
    not in it, although both lines were consumed. *)
Theorem C5_continuation_lines_not_appended :
  let p := at_first_line (text ["static int a[] = {"; "  1, 2,"; "};"]) in
  classify (cstr_of (p_line p)) = C_variable
  /\ snd (variable_declaration p 0) = cs "static int a[] = {  "
  /\ strstr (snd (variable_declaration p 0)) (cs "1, 2,") = None
  /\ fp (fst (variable_declaration p 0)) = []
  /\ map (fun n => (type n, name n, signature n))
       (scan_nodes (text ["static int a[] = {"; "  1, 2,"; "};"]))
     = [(NODE_VARIABLE, [], cs "static int a[]")].
Proof. vm_compute. repeat split. Qed.

(** C6.  [#define BIG(x) \] followed by [  ((x)*(x))] gives exactly one
    Macro entity, named "BIG"; its signature is the first fragment, the
    space that replaced the backslash, and the trimmed second line, and
    it holds no backslash (and the run stays inside its arrays). *)
Theorem C6_macro_continuation :
  exists n : DocNode,
    scan_nodes (text ["#define BIG(x) \"; "  ((x)*(x))"]) = [n]
    /\ type n = NODE_MACRO
    /\ name n = cs "BIG"
    /\ signature n
       = (cs "#define BIG(x) " ++ cs " " ++ cs "((x)*(x))")%list
    /\ strchr (signature n) "\"%char = None
    /\ out_of_bounds
         (scan (cs "input.c")
            (text ["#define BIG(x) \"; "  ((x)*(x))"]) [] [])
       = false.
Proof.
  eexists. split; [vm_compute; reflexivity|].
  vm_compute. repeat split.
Qed.

(** C7: the code at [typedef struct { int x; } Name;].  The line is
    classified as a typedef and gives exactly one entity, a Typedef and
    no Struct; the declaration is cut at its first semicolon, so the
    entity is named "x" and not "Name". *)
Theorem C7_typedef_struct_named_by_first_semicolon :
  classify (cs "typedef struct { int x; } Name;") = C_typedef
  /\ map (fun n => (type n, name n, signature n))
       (scan_nodes (text ["typedef struct { int x; } Name;"]))
     = [(NODE_TYPEDEF, cs "x", cs "typedef struct { int x")].
Proof. vm_compute. repeat split. Qed.

(** C8.  Scanning is deterministic over the file content.  For every
    readable file on which the run is one the C code defines (the [int]
    line counters cannot overflow, and the byte in front of the array
    [sig] is not reached), two scans of the same path and content,
    made at whatever times, give documents that agree in every field
    and every entity once the timestamp is set aside, and the second
    run stays inside the array as well.  For an unreadable file both
    runs give no document. *)
Theorem C8_scan_deterministic
    (filename : cstr) (content : list ascii)
    (now_document now_file now_document' now_file' : cstr) :
  counters_in_range content ->
  out_of_bounds (scan filename content now_document now_file) = false ->
  option_map without_timestamp
    (parse_document filename (Some content) now_document now_file)
  = option_map without_timestamp
      (parse_document filename (Some content) now_document' now_file')
  /\ out_of_bounds (scan filename content now_document' now_file') = false
  /\ parse_document filename None now_document now_file
     = parse_document filename None now_document' now_file'.
Proof.
  intros _ Hin. repeat split.
  - unfold parse_document, option_map, without_timestamp.
    now rewrite (scan_timestamp filename content now_document now_file),
      (scan_timestamp filename content now_document' now_file').
  - rewrite scan_flag_timestamp.
    now rewrite scan_flag_timestamp in Hin.
Qed.

(** C8 at a file of a comment, a prototype and a macro, scanned at two
    different times. *)
Lemma C8_scan_deterministic_witness :
  option_map without_timestamp
    (parse_document (cs "input.c")
       (Some (text ["/* doc */"; "int f(void);"; "#define N 1"]))
       (cs "2024-01-01T00:00:00") (cs "2024-01-01T00:00:01"))
  = option_map without_timestamp
      (parse_document (cs "input.c")
         (Some (text ["/* doc */"; "int f(void);"; "#define N 1"]))
         (cs "2025-06-30T12:00:00") (cs "2025-06-30T12:00:02")).
Proof.
  apply (C8_scan_deterministic (cs "input.c")
           (text ["/* doc */"; "int f(void);"; "#define N 1"])).
  - unfold counters_in_range. apply Z.leb_le. vm_compute. reflexivity.
  - vm_compute. reflexivity.
Defined.

(** C9.  When the pending comment closed on the current line, the next
    piece of the stream is a whitespace-only line and the piece after
    it is a line on which a declaration begins, [next_line] skips the
    blank line but counts it: the declaration starts two lines after
    the comment closed, its doc stays empty and the comment stays
    pending. *)
Theorem C9_blank_line_prevents_attachment
    (p : Parser) (blank decl : list ascii) (rest : list (list ascii)) :
  fp p = blank :: decl :: rest ->
  pending_comment_line p = line_num p ->
  trim (cstr_of blank) = [] ->
  trim (cstr_of decl) <> [] ->
  exists p1 : Parser,
    next_line p = (true, p1)
    /\ line_num p1 = (pending_comment_line p + 2)%Z
    /\ forall (n : DocNode) (q : Parser),
         declaration_node p1 = Some (n, q) ->
         line n = (pending_comment_line p + 2)%Z
         /\ docstring n = []
         /\ pending_comment q = pending_comment p.
Proof.
  intros Hfp Hpl Hblank Hdecl.
  unfold next_line. rewrite Hfp.
  cbn [next_line_from]. unfold trim_line.
  cbn [read_line p_line set_line].
  rewrite !cstr_of_fgets_into. rewrite Hblank.
  cbn [strlen List.length Nat.ltb Nat.leb].
  destruct (trim (cstr_of decl)) as [|c t] eqn:E; [congruence|].
  cbn [strlen List.length].
  match goal with
  | |- exists _, (true, ?x) = _ /\ _ => set (p1 := x)
  end.
  assert (Hn1 : line_num p1 = (pending_comment_line p + 2)%Z)
    by (subst p1; cbn [line_num set_line read_line]; lia).
  assert (Hl1 : pending_comment_line p1 = pending_comment_line p)
    by reflexivity.
  assert (Hc1 : pending_comment p1 = pending_comment p) by reflexivity.
  clearbody p1.
  exists p1. split; [reflexivity|]. split; [exact Hn1|].
  intros n q Hd.
  assert (X : exists r, extracted r p1 n q /\ r <> attach_never).
  { destruct (declaration_node_extracted p1 n q Hd) as [X|X];
      eexists; (split; [exact X | discriminate]). }
  destruct X as (r & [Xl _ _ _ _ _ Xd Xq] & Hr).
  assert (Ht : attach_test r p1 = false).
  { destruct r; cbn [attach_test]; [reflexivity | |].
    - apply Z.eqb_neq. lia.
    - apply orb_false_iff. split; apply Z.eqb_neq; lia. }
  rewrite Ht in Xd, Xq. repeat split; try congruence.
Qed.

(** C9 after the comment of [/* doc */] / blank line / [int f(void);]:
    the prototype starts on line 3, stays without doc, and the comment
    that closed on line 1 stays pending. *)
Lemma C9_blank_line_prevents_attachment_witness :
  let p := scan_after 1 (cs "input.c")
             (text ["/* doc */"; " "; "int f(void);"]) [] [] in
  pending_comment_line p = 1%Z
  /\ match next_line p with
     | (true, p1) =>
         match declaration_node p1 with
         | Some (n, q) =>
             line n = 3%Z /\ docstring n = []
             /\ pending_comment q = cs "doc"
         | None => False
         end
     | (false, _) => False
     end.
Proof.
  intros p.
  assert (Hl : pending_comment_line p = 1%Z) by (vm_compute; reflexivity).
  assert (Hc : pending_comment p = cs "doc") by (vm_compute; reflexivity).
  split; [exact Hl|].
  destruct (C9_blank_line_prevents_attachment p
              (cs " " ++ [LF])%list (cs "int f(void);" ++ [LF])%list [])
    as (p1 & H1 & H2 & H3).
  - vm_compute. reflexivity.
  - vm_compute. reflexivity.
  - vm_compute. reflexivity.
  - vm_compute. discriminate.
  - rewrite H1. rewrite Hl, Hc in H3.
    destruct (declaration_node p1) as [[n q]|] eqn:E.
    + exact (H3 n q eq_refl).
    + vm_compute in H1. injection H1 as <-.
      vm_compute in E. discriminate E.
Defined.

(** C10, as stated, fails when the first entity is an include: in
    [/* doc */] / [#include <stdio.h>] the comment becomes the
    file-level doc, the include starts on the line after the comment
    closed, and its doc is empty. *)
Lemma C10_counterexample :
  let d := doc (scan (cs "input.c")
                  (text ["/* doc */"; "#include <stdio.h>"]) [] []) in
  d_docstring d = cs "doc"
  /\ map (fun n => (type n, name n, line n, docstring n)) (nodes d)
     = [(NODE_INCLUDE, cs "stdio.h", 2%Z, [])].
Proof. vm_compute. split; reflexivity. Qed.

(** C10, amended.  A block comment met while no entity is recorded and
    the file-level doc is empty (the first block comment of a file) is
    stored as the file-level doc and stays the pending comment; if the
    next line found is the line after the comment closed and it is
    dispatched to a declaration extractor (any extractor but the one of
    includes), the same text is the doc of that entity, which is the
    first entity of the document. *)
Theorem C10_file_doc_also_first_entity_doc (p p1 : Parser) :
  nodes (doc p) = [] ->
  d_docstring (doc p) = [] ->
  next_line p = (true, p1) ->
  classify (cstr_of (p_line p1)) = C_block_comment ->
  let p2 := parse_line p1 in
  d_docstring (doc p2) = pending_comment p2
  /\ pending_comment_line p2 = line_num p2
  /\ nodes (doc p2) = []
  /\ forall (p3 : Parser) (n : DocNode) (q : Parser),
       next_line p2 = (true, p3) ->
       line_num p3 = (line_num p2 + 1)%Z ->
       declaration_node p3 = Some (n, q) ->
       docstring n = d_docstring (doc p2)
       /\ nodes (doc (parse_line p3)) = [n].
Proof.
  intros Hn Hd Hnext Hcls. cbv zeta.
  pose proof (next_line_reads p) as R. rewrite Hnext in R. simpl in R.
  destruct R as [Rd _ _ _ _ _ _].
  destruct (parse_block_comment_closed p1) as (Hdoc & _ & _ & Hl & Hfit & _ & _).
  set (c := parse_block_comment p1) in *.
  assert (Hc : ((node_count (doc c) =? 0)%nat
                && match d_docstring (doc c) with [] => true | _ => false end)
               = true).
  { unfold node_count. now rewrite Hdoc, Rd, Hn, Hd. }
  assert (Hp2 : parse_line p1
                = set_doc c (set_d_docstring (doc c)
                               (safe_strcpy [] (pending_comment c) MAX_DOC))).
  { unfold parse_line. rewrite Hcls. fold c. now rewrite Hc. }
  rewrite Hp2.
  set (p2 := set_doc c _).
  assert (H2d : d_docstring (doc p2) = pending_comment p2)
    by (subst p2; simpl; now apply safe_strcpy_fits).
  assert (H2n : nodes (doc p2) = [])
    by (subst p2; simpl; now rewrite Hdoc, Rd).
  assert (H2l : pending_comment_line p2 = line_num p2) by exact Hl.
  assert (H2f : List.length (pending_comment p2) < MAX_DOC) by exact Hfit.
  clearbody p2. repeat split; try assumption.
  - pose proof (next_line_reads p2) as R. rewrite H in R. simpl in R.
    destruct R as [_ Rp Rl _ _ _ _].
    assert (Hlt : (pending_comment_line p3 < line_num p3)%Z) by lia.
    assert (Hf3 : List.length (pending_comment p3) < MAX_DOC)
      by now rewrite Rp.
    assert (Hatt :
      if (pending_comment_line p3 =? line_num p3 - 1)%Z
      then docstring n = pending_comment p3 /\ pending_comment q = []
      else docstring n = [] /\ pending_comment q = pending_comment p3).
    { destruct (declaration_node_extracted p3 n q H1) as [X|X];
        eapply extracted_attachment; eauto; discriminate. }
    replace (pending_comment_line p3 =? line_num p3 - 1)%Z with true in Hatt
      by (symmetry; apply Z.eqb_eq; lia).
    destruct Hatt as [-> _]. congruence.
  - rewrite (declaration_node_parse_line p3 n q H1).
    pose proof (reads_doc _ _ (next_line_reads p2)) as R3.
    rewrite H in R3. simpl in R3.
    assert (Hq : doc q = doc p3)
      by (destruct (declaration_node_extracted p3 n q H1) as [X|X]; apply X).
    unfold ADD_NODE, node_count. rewrite Hq, R3, H2n.
    replace (MAX_NODES - 1 <=? List.length (@nil DocNode))%nat with false
      by (vm_compute; reflexivity).
    simpl. now rewrite H2n.
Qed.

(** C10 at [/* doc */] / [int f(void);]: the comment is the
    file-level doc and the doc of the prototype on line 2. *)
Lemma C10_file_doc_also_first_entity_doc_witness :
  let p := new_parser (cs "input.c")
             (text ["/* doc */"; "int f(void);"]) [] in
  let p2 := parse_line (snd (next_line p)) in
  d_docstring (doc p2) = cs "doc"
  /\ pending_comment p2 = cs "doc"
  /\ match next_line p2 with
     | (true, p3) =>
         match declaration_node p3 with
         | Some (n, q) =>
             line n = 2%Z /\ docstring n = cs "doc"
             /\ nodes (doc (parse_line p3)) = [n]
         | None => False
         end
     | (false, _) => False
     end.
Proof.
  intros p p2.
  destruct (C10_file_doc_also_first_entity_doc p (snd (next_line p)))
    as (H1 & H2 & H3 & H4).
  - reflexivity.
  - reflexivity.
  - vm_compute. reflexivity.
  - vm_compute. reflexivity.
  - assert (Hc : pending_comment p2 = cs "doc") by (vm_compute; reflexivity).
    fold p2 in H1, H4.
    rewrite Hc in H1. rewrite H1 in H4.
    split; [exact H1|]. split; [exact Hc|].
    destruct (next_line p2) as [[|] p3] eqn:E1;
      [|vm_compute in E1; discriminate E1].
    assert (E1' : (true, p3) = next_line p2) by now symmetry.
    vm_compute in E1'. injection E1' as ->.
    destruct (declaration_node _) as [[n q]|] eqn:E2;
      [|vm_compute in E2; discriminate E2].
    destruct (H4 _ n q eq_refl) as [Hd Hn];
      [vm_compute; reflexivity | exact E2 |].
    split; [|split; assumption].
    vm_compute in E2. now injection E2 as <- _.
Defined.

End Claims.

(* ================================================================== *)
(** * Further properties of the code *)

(* ------------------------------------------------------------------ *)
(** ** String utilities *)

Section Utilities.

Lemma ltrim_head (s : cstr) :
  match ltrim s with c :: _ => isspace c = false | [] => True end.
Proof.
  induction s as [|c s IH]; simpl; [exact I|].
  destruct (isspace c) eqn:E; [exact IH | exact E].
Qed.

Lemma ltrim_fixed (s : cstr) :
  match s with c :: _ => isspace c = false | [] => True end -> ltrim s = s.
Proof. destruct s as [|c s]; simpl; [reflexivity | now intros ->]. Qed.

Lemma strip_trailing_last (s : cstr) :
  match rev (strip_trailing s) with
  | c :: _ => isspace c = false
  | [] => True
  end.
Proof.
  induction s as [|c s IH]; simpl; [exact I|].
  destruct (strip_trailing s) as [|y t] eqn:E.
  - destruct (isspace c) eqn:Ec; simpl; [exact I | exact Ec].
  - change (rev (c :: y :: t)) with (rev (y :: t) ++ [c])%list.
    destruct (rev (y :: t)) as [|z u] eqn:Er; [|exact IH].
    apply (f_equal (@List.length ascii)) in Er.
    rewrite length_rev in Er. discriminate Er.
Qed.

Lemma strip_trailing_fixed (s : cstr) :
  match rev s with c :: _ => isspace c = false | [] => True end ->
  strip_trailing s = s.
Proof.
  induction s as [|c s IH]; intros H; [reflexivity|].
  cbn [strip_trailing]. destruct s as [|y t].
  - simpl in *. now rewrite H.
  - rewrite IH; [reflexivity|].
    change (rev (c :: y :: t)) with (rev (y :: t) ++ [c])%list in H.
    destruct (rev (y :: t)) as [|z u] eqn:Er; [|exact H].
    apply (f_equal (@List.length ascii)) in Er.
    rewrite length_rev in Er. discriminate Er.
Qed.

Lemma rtrim_last (s : cstr) :
  match s with c :: _ => isspace c = false | [] => True end ->
  match rev (rtrim s) with c :: _ => isspace c = false | [] => True end.
Proof.
  destruct s as [|c s]; intros H; [exact I|].
  cbn [rtrim]. pose proof (strip_trailing_last s) as L.
  change (rev (c :: strip_trailing s))
    with (rev (strip_trailing s) ++ [c])%list.
  destruct (rev (strip_trailing s)); [exact H | exact L].
Qed.

Lemma rtrim_fixed (s : cstr) :
  match rev s with c :: _ => isspace c = false | [] => True end ->
  rtrim s = s.
Proof.
  destruct s as [|c s]; intros H; [reflexivity|].
  cbn [rtrim]. f_equal. apply strip_trailing_fixed.
  change (rev (c :: s)) with (rev s ++ [c])%list in H.
  destruct (rev s); [exact I | exact H].
Qed.

(** A string that neither begins nor ends with whitespace is left as
    it is by [trim], in place too. *)
Lemma trim_fixed (s : cstr) :
  match s with c :: _ => isspace c = false | [] => True end ->
  match rev s with c :: _ => isspace c = false | [] => True end ->
  trim s = s /\ trim_inplace s = s.
Proof.
  intros Hh Hl. unfold trim_inplace, trim.
  rewrite (ltrim_fixed s Hh), (rtrim_fixed s Hl). split; [reflexivity|].
  destruct s as [|c s]; [reflexivity|]. simpl in Hh. simpl. now rewrite Hh.
Qed.

(** X1.  The string [trim] returns neither begins nor ends with
    whitespace, is a contiguous part of its argument, and is left as it
    is by a second [trim]. *)
Theorem X1_trim_clean (s : cstr) :
  match trim s with c :: _ => isspace c = false | [] => True end
  /\ match rev (trim s) with c :: _ => isspace c = false | [] => True end
  /\ occurs (trim s) s
  /\ trim (trim s) = trim s.
Proof.
  assert (Hh : match trim s with c :: _ => isspace c = false | [] => True end).
  { unfold trim. pose proof (ltrim_head s) as H.
    destruct (ltrim s) as [|c t]; [exact I | exact H]. }
  assert (Hl : match rev (trim s) with
               | c :: _ => isspace c = false | [] => True end)
    by (apply rtrim_last, ltrim_head).
  repeat split; try assumption.
  - destruct (trim_split s) as (a & b & H). now exists a, b.
  - now apply trim_fixed.
Qed.

(** X2.  [safe_append] keeps the destination and appends a prefix of
    the source, never leaving more than [size - 1] characters in a
    destination that held fewer; [safe_strcpy] never leaves more than
    [size - 1] characters.  A source that fits is appended whole. *)
Theorem X2_safe_copies_bounded (dest src : cstr) (size : nat) :
  strlen (safe_append dest src size) <= Nat.max (strlen dest) (size - 1)
  /\ (exists n, safe_append dest src size = dest ++ firstn n src)%list
  /\ strlen (safe_strcpy dest src size) <= Nat.max (strlen dest) (size - 1)
  /\ ((strlen dest + strlen src <? size) = true ->
      safe_append dest src size = dest ++ src).
Proof.
  unfold safe_append, safe_strcpy, strlen. repeat split.
  - destruct (size =? 0)%nat; [lia|].
    destruct (Nat.leb_spec (size - 1) (List.length dest)); [lia|].
    rewrite length_app.
    pose proof (firstn_le_length (size - List.length dest - 1) src).
    pose proof (length_firstn (size - List.length dest - 1) src). lia.
  - destruct (size =? 0)%nat; [exists 0; now rewrite app_nil_r|].
    destruct (size - 1 <=? List.length dest)%nat;
      [exists 0; now rewrite firstn_0, app_nil_r|].
    now exists (size - List.length dest - 1).
  - destruct (size =? 0)%nat; [lia|].
    pose proof (length_firstn (size - 1) src). lia.
  - intros H. apply Nat.ltb_lt in H.
    destruct (Nat.eqb_spec size 0); [lia|].
    destruct (Nat.leb_spec (size - 1) (List.length dest)).
    + destruct src; [now rewrite app_nil_r | simpl in H; lia].
    + rewrite firstn_all2; [reflexivity | lia].
Qed.

(** X2 for a name copied into a buffer of [MAX_NAME] bytes. *)
Lemma X2_safe_copies_bounded_witness :
  safe_append (cs "static") (cs " int") MAX_NAME = cs "static int".
Proof.
  apply (X2_safe_copies_bounded (cs "static") (cs " int") MAX_NAME).
  vm_compute. reflexivity.
Defined.

Lemma ends_with_iff (str suffix : cstr) :
  ends_with str suffix = true <-> exists pre, (str = pre ++ suffix)%list.
Proof.
  unfold ends_with, strlen. split.
  - destruct (Nat.ltb_spec (List.length str) (List.length suffix));
      [discriminate|].
    intros E. apply starts_with_spec in E as [r Hr].
    exists (firstn (List.length str - List.length suffix) str).
    assert (Hl : List.length r = 0).
    { apply (f_equal (@List.length ascii)) in Hr.
      rewrite length_skipn, length_app in Hr. lia. }
    destruct r; [|discriminate Hl]. rewrite app_nil_r in Hr.
    transitivity
      (firstn (List.length str - List.length suffix) str
       ++ skipn (List.length str - List.length suffix) str);
      [symmetry; apply firstn_skipn | now rewrite Hr].
  - intros [pre ->]. rewrite length_app.
    destruct (Nat.ltb_spec (List.length pre + List.length suffix)
                (List.length suffix)); [lia|].
    replace (List.length pre + List.length suffix - List.length suffix)
      with (List.length pre) by lia.
    rewrite skipn_app, skipn_all, Nat.sub_diag. simpl.
    apply starts_with_spec. exists []. now rewrite app_nil_r.
Qed.

(** X3.  [ends_with] holds exactly of the strings that end with the
    suffix. *)
Theorem X3_ends_with_spec (str suffix : cstr) :
  ends_with str suffix = true <-> exists pre, (str = pre ++ suffix)%list.
Proof. apply ends_with_iff. Qed.

End Utilities.

(* ------------------------------------------------------------------ *)
(** ** Module names, output names and JSON strings *)

Section Names.

Ltac not_in :=
  let H := fresh in
  intros H; simpl in H;
  repeat (destruct H as [H|H]; [discriminate H|]); exact H.

Lemma strchr_not_In (s : cstr) (c : ascii) : ~ In c s -> strchr s c = None.
Proof.
  induction s as [|x s IH]; simpl; intros H; [reflexivity|].
  destruct (chr_eq x c) eqn:E.
  - apply chr_eq_true in E. tauto.
  - rewrite IH; [reflexivity | tauto].
Qed.

Lemma strchr_app (a b : cstr) (c : ascii) :
  ~ In c a -> strchr (a ++ c :: b) c = Some (List.length a).
Proof.
  induction a as [|x a IH]; simpl; intros H.
  - replace (chr_eq c c) with true; [reflexivity|].
    symmetry. now apply chr_eq_true.
  - destruct (chr_eq x c) eqn:E.
    + apply chr_eq_true in E. tauto.
    + rewrite IH; [reflexivity | tauto].
Qed.

Lemma strrchr_not_In (s : cstr) (c : ascii) : ~ In c s -> strrchr s c = None.
Proof.
  induction s as [|x s IH]; simpl; intros H; [reflexivity|].
  rewrite IH by tauto.
  destruct (chr_eq x c) eqn:E; [|reflexivity].
  apply chr_eq_true in E. tauto.
Qed.

Lemma strrchr_app (a b : cstr) (c : ascii) :
  ~ In c b -> strrchr (a ++ c :: b) c = Some (List.length a).
Proof.
  intros H. induction a as [|x a IH]; simpl.
  - rewrite (strrchr_not_In b c H).
    replace (chr_eq c c) with true; [reflexivity|].
    symmetry. now apply chr_eq_true.
  - now rewrite IH.
Qed.

(** Nothing behind the last occurrence of [c] is a [c]. *)
Lemma strrchr_after (s : cstr) (c : ascii) :
  match strrchr s c with
  | Some i => ~ In c (skipn (S i) s)
  | None => ~ In c s
  end.
Proof.
  induction s as [|x s IH]; simpl; [tauto|].
  destruct (strrchr s c) as [i|]; [exact IH|].
  destruct (chr_eq x c) eqn:E; [exact IH|].
  apply chr_eq_false in E. intros [->|H]; [congruence | tauto].
Qed.

Lemma In_skipn (n : nat) (s : cstr) (x : ascii) :
  In x (skipn n s) -> In x s.
Proof.
  intros H. rewrite <- (firstn_skipn n s). apply in_or_app. now right.
Qed.

Lemma In_safe_strcpy_any (dest s : cstr) (size : nat) (x : ascii) :
  In x (safe_strcpy dest s size) -> In x dest \/ In x s.
Proof.
  unfold safe_strcpy. destruct (size =? 0); [tauto|].
  intros H. right. now apply In_firstn in H.
Qed.

(** X4.  The module name is the part of the path behind its last
    slash, without its last extension: it never contains a slash and
    never has more than [size - 1] characters. *)
Theorem X4_module_name_no_slash (filepath : cstr) (size : nat) :
  ~ In "/"%char (extract_module_name filepath size)
  /\ strlen (extract_module_name filepath size) <= size - 1.
Proof.
  unfold extract_module_name.
  set (base := match strrchr filepath "/"%char with
               | Some i => skipn (S i) filepath
               | None => _
               end).
  assert (Hb : ~ In "/"%char base).
  { subst base. pose proof (strrchr_after filepath "/"%char) as H.
    destruct (strrchr filepath "/"%char) as [i|]; [exact H|].
    destruct (strrchr filepath "\"%char) as [j|]; [|exact H].
    intros Hin. apply H. now apply In_skipn in Hin. }
  split.
  - intros H. apply In_cut_at, In_safe_strcpy in H. tauto.
  - unfold strlen, safe_strcpy.
    destruct (size =? 0); [simpl; lia|].
    pose proof (length_firstn (size - 1) base) as L.
    destruct (strrchr (firstn (size - 1) base) "."%char) as [i|];
      unfold cut_at, cut; [rewrite length_firstn|]; lia.
Qed.

(** X5.  For a path [dir/stem.ext] whose stem and extension contain
    no slash and no dot, and fit the buffer, the module name is the
    stem. *)
Theorem X5_module_name_is_stem (dir stem ext : cstr) :
  ~ In "/"%char stem -> ~ In "."%char stem ->
  ~ In "/"%char ext -> ~ In "."%char ext ->
  strlen stem + 1 + strlen ext < MAX_NAME ->
  extract_module_name (dir ++ "/"%char :: stem ++ "."%char :: ext) MAX_NAME
  = stem.
Proof.
  intros Hs1 Hs2 He1 He2 Hlen. unfold extract_module_name.
  rewrite strrchr_app.
  2:{ intros H. apply in_app_or in H as [H|[H|H]];
      [tauto | discriminate H | tauto]. }
  replace (skipn (S (List.length dir))
             (dir ++ "/"%char :: stem ++ "."%char :: ext))
    with (stem ++ "."%char :: ext).
  2:{ change (dir ++ "/"%char :: stem ++ "."%char :: ext)
        with (dir ++ ["/"%char] ++ (stem ++ "."%char :: ext)).
      rewrite app_assoc.
      replace (S (List.length dir)) with (List.length (dir ++ ["/"%char]))
        by (rewrite length_app; simpl; lia).
      now rewrite skipn_app, skipn_all, Nat.sub_diag. }
  rewrite safe_strcpy_fits.
  2:{ unfold strlen in Hlen. rewrite length_app. simpl. lia. }
  rewrite strrchr_app by exact He2.
  unfold cut_at, cut. now rewrite firstn_app, firstn_all, Nat.sub_diag,
    firstn_0, app_nil_r.
Qed.

(** X5 at the path of this program's source. *)
Lemma X5_module_name_is_stem_witness :
  extract_module_name (cs "src/docunation.c") MAX_NAME = cs "docunation".
Proof.
  apply (X5_module_name_is_stem (cs "src") (cs "docunation") (cs "c")).
  - not_in.
  - not_in.
  - not_in.
  - not_in.
  - apply Nat.ltb_lt. vm_compute. reflexivity.
Defined.

Lemma sanitize_loop_plain (p : cstr) (idx size : nat) :
  Forall (fun c => plain_char c = true) (sanitize_loop p idx size)
  /\ (idx <= size - 1 ->
      idx + List.length (sanitize_loop p idx size) <= size - 1).
Proof.
  revert idx. induction p as [|c p IH]; intros idx; cbn [sanitize_loop].
  - split; [constructor | simpl; lia].
  - destruct (Nat.ltb_spec (idx + 1) size); [|split; [constructor|simpl; lia]].
    destruct (chr_eq c "/"%char || chr_eq c "\"%char) eqn:E1.
    + destruct (Nat.leb_spec size (idx + 2));
        [split; [constructor | simpl; lia]|].
      destruct (IH (idx + 2)) as [F L]. split.
      * repeat constructor. exact F.
      * intros _. cbn [List.length]. specialize (L ltac:(lia)). lia.
    + destruct (chr_eq c " "%char) eqn:E2;
        destruct (IH (idx + 1)) as [F L]; split;
        try (intros _; cbn [List.length]; specialize (L ltac:(lia)); lia).
      * constructor; [reflexivity | exact F].
      * constructor; [|exact F]. unfold plain_char.
        apply orb_false_iff in E1 as [-> ->]. now rewrite E2.
Qed.

(** Input that is plain already and fits is copied as it is. *)
Lemma sanitize_loop_id (p : cstr) (idx size : nat) :
  Forall (fun c => plain_char c = true) p ->
  idx + List.length p < size ->
  sanitize_loop p idx size = p.
Proof.
  revert idx. induction p as [|c p IH]; intros idx F L; [reflexivity|].
  inversion F as [|? ? Hc F']; subst. cbn [sanitize_loop].
  cbn [List.length] in L.
  destruct (Nat.ltb_spec (idx + 1) size); [|lia].
  unfold plain_char in Hc. apply negb_true_iff in Hc.
  apply orb_false_iff in Hc as [Hc ->].
  rewrite Hc. f_equal. apply IH; [exact F' | lia].
Qed.

Lemma plain_char_not (c : ascii) :
  plain_char c = true -> c <> "/"%char /\ c <> "\"%char /\ c <> " "%char.
Proof.
  unfold plain_char. intros H. apply negb_true_iff in H.
  apply orb_false_iff in H as [H H3]. apply orb_false_iff in H as [H1 H2].
  now rewrite <- !chr_eq_false.
Qed.

Lemma plain_not_In (s : cstr) :
  Forall (fun c => plain_char c = true) s ->
  ~ In "/"%char s /\ ~ In "\"%char s /\ ~ In " "%char s.
Proof.
  intros F. rewrite Forall_forall in F.
  repeat split; intros H; apply F, plain_char_not in H; tauto.
Qed.

(** X6.  The name [sanitize_rel_path] writes contains no slash, no
    backslash and no space, and has at most [size - 1] characters. *)
Theorem X6_sanitize_rel_path_safe (rel : cstr) (size : nat) :
  ~ In "/"%char (sanitize_rel_path rel size)
  /\ ~ In "\"%char (sanitize_rel_path rel size)
  /\ ~ In " "%char (sanitize_rel_path rel size)
  /\ strlen (sanitize_rel_path rel size) <= size - 1.
Proof.
  unfold sanitize_rel_path, strlen.
  destruct (sanitize_loop_plain rel 0 size) as [F L].
  destruct (plain_not_In _ F) as (H1 & H2 & H3).
  repeat split; try assumption. specialize (L ltac:(lia)). lia.
Qed.

Lemma Forall_firstn_plain (n : nat) (s : cstr) :
  Forall (fun c => plain_char c = true) s ->
  Forall (fun c => plain_char c = true) (firstn n s).
Proof.
  rewrite !Forall_forall. intros F x H. apply F. now apply In_firstn in H.
Qed.

(** X7.  The base name from which the bulk mode makes its output file
    names contains no slash, no backslash and no space, whatever the
    root and the path: the output files are written in the output
    directories themselves. *)
Theorem X7_bulk_base_no_separator (root filepath : cstr) :
  ~ In "/"%char (bulk_base root filepath)
  /\ ~ In "\"%char (bulk_base root filepath)
  /\ ~ In " "%char (bulk_base root filepath).
Proof.
  apply plain_not_In. unfold bulk_base.
  set (rel := bulk_rel root filepath).
  pose proof (proj1 (sanitize_loop_plain rel 0 MAX_PATH_LEN)) as F.
  fold (sanitize_rel_path rel MAX_PATH_LEN) in F.
  set (safe := match sanitize_rel_path rel MAX_PATH_LEN with
               | [] => _
               | _ :: _ => _
               end).
  assert (Fs : Forall (fun c => plain_char c = true) safe).
  { subst safe. destruct (sanitize_rel_path rel MAX_PATH_LEN); [|exact F].
    vm_compute. repeat constructor. }
  assert (Fb : Forall (fun c => plain_char c = true)
                 (safe_strcpy [] safe MAX_PATH_LEN)).
  { unfold safe_strcpy. destruct (MAX_PATH_LEN =? 0); [constructor|].
    now apply Forall_firstn_plain. }
  destruct (strrchr _ "."%char); unfold cut_at, cut; [|exact Fb].
  now apply Forall_firstn_plain.
Qed.

(** X8.  For a file [name.c] directly under the root, with a plain
    name without dots, the directory walk selects the file and the
    base name of its outputs is [name]. *)
Theorem X8_bulk_base_of_source_file (root name : cstr) :
  Forall (fun c => plain_char c = true) name ->
  ~ In "."%char name ->
  strlen name + 3 < MAX_PATH_LEN ->
  let filepath := root ++ "/"%char :: name ++ cs ".c" in
  ends_with filepath (cs ".c") = true
  /\ bulk_rel root filepath = name ++ cs ".c"
  /\ bulk_base root filepath = name.
Proof.
  intros F Hdot Hlen filepath.
  assert (Hrel : bulk_rel root filepath = name ++ cs ".c").
  { unfold bulk_rel. subst filepath.
    replace (starts_with (root ++ "/"%char :: name ++ cs ".c") root)
      with true
      by (symmetry; apply starts_with_spec; now eexists).
    unfold strlen. rewrite skipn_app, skipn_all, Nat.sub_diag.
    cbn [app skipn chr_eq Ascii.eqb Bool.eqb andb orb].
    destruct name; reflexivity. }
  assert (Fr : Forall (fun c => plain_char c = true) (name ++ cs ".c")).
  { apply Forall_app. split; [exact F|]. vm_compute. repeat constructor. }
  repeat split.
  - apply ends_with_iff. exists (root ++ "/"%char :: name).
    subst filepath. now rewrite <- app_assoc.
  - exact Hrel.
  - unfold bulk_base. rewrite Hrel. unfold sanitize_rel_path.
    rewrite sanitize_loop_id;
      [|exact Fr
       |unfold strlen in Hlen; rewrite length_app;
        change (List.length (cs ".c")) with 2; lia].
    replace (match name ++ cs ".c" with
             | [] => safe_strcpy (name ++ cs ".c") (cs "file") MAX_PATH_LEN
             | _ :: _ => name ++ cs ".c"
             end) with (name ++ cs ".c") by (destruct name; reflexivity).
    rewrite safe_strcpy_fits
      by (unfold strlen in Hlen; rewrite length_app;
          change (List.length (cs ".c")) with 2; lia).
    change (name ++ cs ".c") with (name ++ "."%char :: cs "c").
    rewrite strrchr_app by not_in.
    unfold cut_at, cut.
    now rewrite firstn_app, firstn_all, Nat.sub_diag, firstn_0, app_nil_r.
Qed.

(** X8 at [src/docunation.c] under the root [src]. *)
Lemma X8_bulk_base_of_source_file_witness :
  ends_with (cs "src/docunation.c") (cs ".c") = true
  /\ bulk_rel (cs "src") (cs "src/docunation.c") = cs "docunation.c"
  /\ bulk_base (cs "src") (cs "src/docunation.c") = cs "docunation".
Proof.
  apply (X8_bulk_base_of_source_file (cs "src") (cs "docunation")).
  - vm_compute. repeat constructor.
  - not_in.
  - apply Nat.ltb_lt. vm_compute. reflexivity.
Defined.

Lemma json_escape_char_cases (c : ascii) :
  (json_escape_char c = [c] /\ c <> "\"%char /\ c <> LF /\ c <> DQUOTE)
  \/ (exists x, json_escape_char c = ["\"%char; x]
                /\ x <> LF
                /\ forall c', json_escape_char c' = ["\"%char; x] -> c' = c).
Proof.
  unfold json_escape_char.
  destruct (chr_eq c DQUOTE) eqn:A; [|destruct (chr_eq c LF) eqn:B;
    [|destruct (chr_eq c "\"%char) eqn:C]].
  - right. exists DQUOTE. apply chr_eq_true in A. subst c.
    repeat split; [discriminate|]. intros c'.
    destruct (chr_eq c' DQUOTE) eqn:A'; [now apply chr_eq_true in A'|].
    destruct (chr_eq c' LF); [discriminate|].
    destruct (chr_eq c' "\"%char); [discriminate|].
    discriminate.
  - right. exists "n"%char. apply chr_eq_true in B. subst c.
    repeat split; [discriminate|]. intros c'.
    destruct (chr_eq c' DQUOTE); [discriminate|].
    destruct (chr_eq c' LF) eqn:B'; [now apply chr_eq_true in B'|].
    destruct (chr_eq c' "\"%char) eqn:C'; [discriminate|].
    discriminate.
  - right. exists "\"%char. apply chr_eq_true in C. subst c.
    repeat split; [discriminate|]. intros c'.
    destruct (chr_eq c' DQUOTE); [discriminate|].
    destruct (chr_eq c' LF); [discriminate|].
    destruct (chr_eq c' "\"%char) eqn:C'; [now apply chr_eq_true in C'|].
    discriminate.
  - left. apply chr_eq_false in A, B, C. now repeat split.
Qed.

Lemma json_escape_no_newline (s : cstr) : ~ In LF (json_escape s).
Proof.
  induction s as [|c s IH]; simpl; [tauto|].
  intros H. apply in_app_or in H as [H|H]; [|tauto].
  destruct (json_escape_char_cases c) as [(E & _ & Hn & _)|(x & E & Hx & _)];
    rewrite E in H; simpl in H;
    repeat (destruct H as [H|H]); try discriminate H; try exact H;
    congruence.
Qed.

Lemma json_escape_injective (s1 s2 : cstr) :
  json_escape s1 = json_escape s2 -> s1 = s2.
Proof.
  revert s2. induction s1 as [|c1 s1 IH]; intros [|c2 s2]; simpl.
  - reflexivity.
  - destruct (json_escape_char_cases c2) as [(E & _)|(x & E & _)];
      rewrite E; discriminate.
  - destruct (json_escape_char_cases c1) as [(E & _)|(x & E & _)];
      rewrite E; discriminate.
  - destruct (json_escape_char_cases c1)
      as [(E1 & N1 & _)|(x1 & E1 & _ & U1)];
      destruct (json_escape_char_cases c2)
        as [(E2 & N2 & _)|(x2 & E2 & _ & U2)];
      rewrite ?E1, ?E2; simpl; intros H; injection H as H H'.
    + subst c2. f_equal. now apply IH.
    + congruence.
    + congruence.
    + subst x2. rewrite (U1 c2 E2). f_equal. now apply IH.
Qed.

(** X9.  The escaping of [output_json] never prints a raw newline and
    loses nothing: strings with the same escaped text are the same
    string. *)
Theorem X9_json_escape_faithful (s1 s2 : cstr) :
  ~ In LF (json_escape s1)
  /\ (json_escape s1 = json_escape s2 -> s1 = s2).
Proof.
  split; [apply json_escape_no_newline | apply json_escape_injective].
Qed.

(** X9 at a docstring with a quote, a backslash and a newline. *)
Lemma X9_json_escape_faithful_witness :
  json_escape [DQUOTE; "\"%char; LF; "a"%char]
  = [ "\"%char; DQUOTE; "\"%char; "\"%char; "\"%char; "n"%char; "a"%char ]
  /\ [DQUOTE; "\"%char; LF; "a"%char] = [DQUOTE; "\"%char; LF; "a"%char].
Proof.
  split; [reflexivity|].
  apply (X9_json_escape_faithful
           [DQUOTE; "\"%char; LF; "a"%char]
           [DQUOTE; "\"%char; LF; "a"%char]).
  reflexivity.
Defined.

End Names.

(* ------------------------------------------------------------------ *)
(** ** The entities of a document *)

Section Entities.

Lemma ADD_NODE_nodes (p q : Parser) (n : DocNode) :
  doc q = doc p ->
  nodes (doc (ADD_NODE q n)) = nodes (doc p)
  \/ nodes (doc (ADD_NODE q n)) = nodes (doc p) ++ [n].
Proof.
  intros H. destruct (ADD_NODE_cases q n) as [[_ ->]|[_ ->]].
  - left. now rewrite H.
  - right. simpl. now rewrite H.
Qed.

(** An iteration of the scanning loop leaves the nodes as they are or
    adds the node an extractor filled. *)
Lemma parse_line_produced (p : Parser) :
  nodes (doc (parse_line p)) = nodes (doc p)
  \/ exists n, produced n
               /\ nodes (doc (parse_line p)) = nodes (doc p) ++ [n].
Proof.
  unfold parse_line.
  destruct (classify (cstr_of (p_line p))) eqn:E.
  - left. destruct (parse_block_comment_closed p) as (Hd & _).
    destruct (_ && _); simpl; now rewrite Hd.
  - now left.
  - unfold parse_include.
    pose proof (ex_doc _ _ _ _ (include_node_extracted p)) as Hd.
    pose proof (produced_include p) as P.
    destruct (include_node p) as [n q]. simpl in Hd, P.
    destruct (ADD_NODE_nodes p q n Hd); [now left | right; now exists n].
  - unfold parse_macro. destruct (macro_node p) as [[n q]|] eqn:M;
      [|now left].
    pose proof (ex_doc _ _ _ _ (macro_node_extracted p n q M)) as Hd.
    destruct (ADD_NODE_nodes p q n Hd); [now left | right].
    exists n. split; [now apply (produced_macro p n q) | assumption].
  - now left.
  - unfold parse_aggregate.
    pose proof (ex_doc _ _ _ _ (aggregate_node_extracted p t)) as Hd.
    pose proof (produced_aggregate p t (classify_aggregate _ _ E)) as P.
    destruct (aggregate_node p t) as [n q]. simpl in Hd, P.
    destruct (ADD_NODE_nodes p q n Hd); [now left | right; now exists n].
  - unfold parse_typedef.
    pose proof (ex_doc _ _ _ _ (typedef_node_extracted p)) as Hd.
    pose proof (produced_typedef p) as P.
    destruct (typedef_node p) as [n q]. simpl in Hd, P.
    destruct (ADD_NODE_nodes p q n Hd); [now left | right; now exists n].
  - unfold parse_function.
    match goal with
    | |- context [function_node p ?s ?i ?e] =>
        pose proof (ex_doc _ _ _ _ (function_node_extracted p s i e)) as Hd;
        pose proof (produced_function p s i e) as P;
        destruct (function_node p s i e) as [n q]
    end.
    simpl in Hd, P.
    destruct (ADD_NODE_nodes p q n Hd); [now left | right; now exists n].
  - unfold parse_variable.
    match goal with
    | |- context [variable_node p ?k ?s] =>
        pose proof (ex_doc _ _ _ _ (variable_node_extracted p k s)) as Hd;
        pose proof (produced_variable p k s) as P;
        destruct (variable_node p k s) as [n q]
    end.
    simpl in Hd, P.
    destruct (ADD_NODE_nodes p q n Hd); [now left | right; now exists n].
  - left. now destruct (_ <? _)%Z.
Qed.

Lemma parse_file_loop_produced (fuel : nat) (p : Parser) :
  Forall produced (nodes (doc p)) ->
  Forall produced (nodes (doc (parse_file_loop fuel p))).
Proof.
  revert p. induction fuel as [|fuel IH]; intros p H; cbn [parse_file_loop];
    [exact H|].
  pose proof (reads_doc _ _ (next_line_reads p)) as R.
  destruct (next_line p) as [[|] p1]; cbn [snd] in R; [|now rewrite R].
  apply IH.
  destruct (parse_line_produced p1) as [-> | (n & P & ->)]; rewrite R.
  - exact H.
  - apply Forall_app. split; [exact H | now constructor].
Qed.

(** Every entity of a document was filled by an extractor. *)
Lemma scan_produced (filename : cstr) (content : list ascii)
    (now_document now_file : cstr) :
  Forall produced (nodes (doc (scan filename content now_document now_file))).
Proof. apply parse_file_loop_produced. constructor. Qed.

Lemma MAX_NAME_pos : 0 < MAX_NAME.
Proof. apply Nat.ltb_lt. vm_compute. reflexivity. Qed.

Lemma MAX_SIG_pos : 0 < MAX_SIG.
Proof. apply Nat.ltb_lt. vm_compute. reflexivity. Qed.

Lemma safe_strcpy_lt (s : cstr) (size : nat) :
  0 < size -> strlen (safe_strcpy [] s size) < size.
Proof.
  intros H. unfold safe_strcpy, strlen.
  destruct (Nat.eqb_spec size 0); [lia|].
  pose proof (length_firstn (size - 1) s). lia.
Qed.

Lemma copy_name_lt (from : cstr) (len : nat) :
  strlen (copy_name from len) < MAX_NAME.
Proof.
  unfold copy_name, strncpy, strlen.
  destruct ((0 <? len) && (len <? MAX_NAME)) eqn:E.
  - apply andb_true_iff in E as [_ E]. apply Nat.ltb_lt in E.
    pose proof (length_firstn len from). lia.
  - apply MAX_NAME_pos.
Qed.

Lemma attach_doc_lt (p : Parser) (b : bool) :
  strlen (fst (attach_doc p b)) < MAX_DOC.
Proof.
  unfold attach_doc. destruct b; cbn [fst].
  - apply safe_strcpy_lt, MAX_DOC_pos.
  - apply MAX_DOC_pos.
Qed.

Lemma variable_name_lt (s : cstr) : strlen (variable_name s) < MAX_NAME.
Proof.
  assert (H : forall n s, List.length s <= n ->
                          strlen (variable_name s) < MAX_NAME).
  { induction n as [|n IH]; intros [|c s1] L; cbn [variable_name];
      try apply MAX_NAME_pos; [simpl in L; lia|].
    destruct (is_ident_char c || chr_eq c " "%char || chr_eq c "*"%char);
      [|apply MAX_NAME_pos].
    destruct (chr_eq c "="%char || chr_eq c "["%char); [apply MAX_NAME_pos|].
    destruct s1 as [|c1 s2]; [apply MAX_NAME_pos|].
    destruct (isspace c && is_ident_char c1).
    - match goal with
      | |- context [if ?b then _ else _] => destruct b
      end; [apply copy_name_lt|].
      apply IH. simpl in L. lia.
    - apply IH. simpl in L. simpl. lia. }
  apply (H (List.length s)). lia.
Qed.

Lemma placeholder_lt (t : NodeType) :
  strlen (cs "(anonymous " ++ keyword_of t ++ cs ")") < MAX_NAME.
Proof. apply Nat.ltb_lt. now destruct t; vm_compute. Qed.

Ltac fits :=
  repeat split; cbn [fst name docstring signature return_type];
  try apply copy_name_lt; try apply attach_doc_lt;
  try (apply safe_strcpy_lt; first [apply MAX_SIG_pos | apply MAX_NAME_pos]);
  try apply MAX_NAME_pos; try apply MAX_DOC_pos.

Lemma produced_fits (n : DocNode) : produced n -> node_fits n.
Proof.
  intros [p s i e | p t _ | p | p n' q M | p | p k s]; unfold node_fits.
  - unfold function_node.
    destruct (function_sig_loop _ _ _) as [p1 sig].
    pose proof (attach_doc_lt p1) as A.
    destruct (strchr _ "("%char) as [[|before]|];
      match goal with
      | |- context [attach_doc p1 ?b] =>
          specialize (A b); destruct (attach_doc p1 b) as [d p2]
      end; fits; exact A.
  - unfold aggregate_node, trim_line.
    match goal with
    | |- context [attach_doc ?x ?b] =>
        pose proof (attach_doc_lt x b) as A; destruct (attach_doc x b) as [d p2]
    end.
    fits; try exact A.
    match goal with
    | |- strlen (match ?nm with [] => _ | _ => _ end) < _ =>
        pose proof (placeholder_lt t);
        assert (strlen nm < MAX_NAME) by
          (destruct (strstr _ _); [apply copy_name_lt | apply MAX_NAME_pos]);
        destruct nm; assumption
    end.
  - unfold typedef_node.
    destruct (typedef_sig_loop _ _ _) as [p1 sig].
    pose proof (attach_doc_lt p1) as A.
    destruct (cut_at sig _);
      match goal with
      | |- context [attach_doc p1 ?b] =>
          specialize (A b); destruct (attach_doc p1 b) as [d p2]
      end; fits; exact A.
  - unfold macro_node in M.
    destruct (strstr _ _) as [def|]; [|discriminate].
    destruct (macro_loop _ _ _) as [p1 sig].
    match type of M with
    | context [attach_doc p1 ?b] =>
        pose proof (attach_doc_lt p1 b) as A;
        destruct (attach_doc p1 b) as [d p2]
    end.
    injection M as <- _. fits; exact A.
  - unfold include_node, trim_line. fits.
    destruct (strchr _ "<"%char);
      [|destruct (strchr _ DQUOTE); [|apply MAX_NAME_pos]];
      (destruct (strchr _ _); [apply copy_name_lt | apply MAX_NAME_pos]).
  - unfold variable_node.
    destruct (variable_declaration p k) as [p1 sig].
    match goal with
    | |- context [attach_doc p1 ?b] =>
        pose proof (attach_doc_lt p1 b) as A;
        destruct (attach_doc p1 b) as [d p2]
    end.
    fits; try exact A. apply variable_name_lt.
Qed.

Lemma produced_fields (n : DocNode) : produced n -> fields_by_kind n.
Proof.
  intros [p s i e | p t Ht | p | p n' q M | p | p k s];
    unfold fields_by_kind.
  - unfold function_node.
    destruct (function_sig_loop _ _ _) as [p1 sig].
    destruct (strchr _ "("%char) as [[|before]|];
      now destruct (attach_doc _ _).
  - rewrite aggregate_node_type. unfold aggregate_node, trim_line.
    destruct (attach_doc _ _).
    now destruct Ht as [->|[->| ->]].
  - unfold typedef_node.
    destruct (typedef_sig_loop _ _ _) as [p1 sig].
    destruct (cut_at sig _); now destruct (attach_doc _ _).
  - unfold macro_node in M.
    destruct (strstr _ _) as [def|]; [|discriminate].
    destruct (macro_loop _ _ _) as [p1 sig].
    destruct (attach_doc _ _). now injection M as <- _.
  - now unfold include_node, trim_line.
  - unfold variable_node.
    destruct (variable_declaration p k) as [p1 sig].
    now destruct (attach_doc _ _).
Qed.

Lemma ident_run (s : cstr) :
  Forall (fun c => is_ident_char c = true) (firstn (ident_len s) s).
Proof.
  induction s as [|c s IH]; simpl; [constructor|].
  destruct (is_ident_char c) eqn:E; simpl; [|constructor].
  now constructor.
Qed.

Lemma copy_name_ident (s : cstr) :
  Forall (fun c => is_ident_char c = true) (copy_name s (ident_len s)).
Proof.
  unfold copy_name, strncpy.
  destruct (_ && _); [apply ident_run | constructor].
Qed.

Lemma variable_name_ident (s : cstr) :
  Forall (fun c => is_ident_char c = true) (variable_name s).
Proof.
  assert (H : forall n s, List.length s <= n ->
                Forall (fun c => is_ident_char c = true) (variable_name s)).
  { induction n as [|n IH]; intros [|c s1] L; cbn [variable_name];
      try constructor; [simpl in L; lia|].
    destruct (is_ident_char c || chr_eq c " "%char || chr_eq c "*"%char);
      [|constructor].
    destruct (chr_eq c "="%char || chr_eq c "["%char); [constructor|].
    destruct s1 as [|c1 s2]; [constructor|].
    destruct (isspace c && is_ident_char c1).
    - match goal with
      | |- context [if ?b then _ else _] => destruct b
      end; [apply copy_name_ident|].
      apply IH. simpl in L. lia.
    - apply IH. simpl in L. simpl. lia. }
  apply (H (List.length s)). lia.
Qed.

Lemma produced_named (n : DocNode) : produced n -> aggregate_named n.
Proof.
  intros [p s i e | p t Ht | p | p n' q M | p | p k s];
    unfold aggregate_named.
  - unfold function_node.
    destruct (function_sig_loop _ _ _) as [p1 sig].
    destruct (strchr _ "("%char) as [[|before]|];
      now destruct (attach_doc _ _).
  - rewrite aggregate_node_type.
    assert (G : name (fst (aggregate_node p t)) <> []
                /\ (Forall (fun c => is_ident_char c = true)
                      (name (fst (aggregate_node p t)))
                    \/ name (fst (aggregate_node p t))
                       = cs "(anonymous " ++ keyword_of t ++ cs ")")).
    { unfold aggregate_node, trim_line. destruct (attach_doc _ _).
      cbn [fst name].
      match goal with
      | |- match ?nm with [] => _ | _ => _ end <> [] /\ _ =>
          assert (F : Forall (fun c => is_ident_char c = true) nm)
            by (destruct (strstr _ _);
                [apply copy_name_ident | constructor]);
          destruct nm
      end.
      - split; [discriminate | now right].
      - split; [discriminate | now left]. }
    now destruct Ht as [->|[->| ->]].
  - unfold typedef_node.
    destruct (typedef_sig_loop _ _ _) as [p1 sig].
    destruct (cut_at sig _); now destruct (attach_doc _ _).
  - unfold macro_node in M.
    destruct (strstr _ _) as [def|]; [|discriminate].
    destruct (macro_loop _ _ _) as [p1 sig].
    destruct (attach_doc _ _). injection M as <- _. cbn [type name].
    apply copy_name_ident.
  - now unfold include_node, trim_line.
  - unfold variable_node.
    destruct (variable_declaration p k) as [p1 sig].
    destruct (attach_doc _ _). cbn [fst type name].
    apply variable_name_ident.
Qed.

(** X10.  In every document, every string of every entity fits the
    array that holds it, and at most [MAX_NODES - 1] entities are
    counted: the last element of [nodes] is written but never part of
    a document. *)
Theorem X10_entities_fit
    (filename : cstr) (content : list ascii) (now_document now_file : cstr) :
  node_count (doc (scan filename content now_document now_file))
  <= MAX_NODES - 1
  /\ Forall node_fits
       (nodes (doc (scan filename content now_document now_file))).
Proof.
  split.
  - rewrite scan_is_scan_after. apply scan_after_inv.
  - eapply Forall_impl; [apply produced_fits | apply scan_produced].
Qed.

(** X11.  In every document only Function entities have a return type
    or the inline and extern qualifiers, only Function and Variable
    entities the static qualifier, and Include entities have no doc. *)
Theorem X11_fields_by_kind
    (filename : cstr) (content : list ascii) (now_document now_file : cstr) :
  Forall fields_by_kind
    (nodes (doc (scan filename content now_document now_file))).
Proof.
  eapply Forall_impl; [apply produced_fields | apply scan_produced].
Qed.

(** X12.  In every document a Struct, Union or Enum entity has a name
    that is not empty: an identifier, or the placeholder
    "(anonymous <keyword>)"; the name of a Macro or Variable entity
    consists of identifier characters. *)
Theorem X12_names_by_kind
    (filename : cstr) (content : list ascii) (now_document now_file : cstr) :
  Forall aggregate_named
    (nodes (doc (scan filename content now_document now_file))).
Proof.
  eapply Forall_impl; [apply produced_named | apply scan_produced].
Qed.

End Entities.

(* ------------------------------------------------------------------ *)
(** ** The document as a whole *)

Section Document.

Local Open Scope string_scope.

Lemma ADD_NODE_header (p q : Parser) (n : DocNode) :
  doc q = doc p ->
  filepath (doc (ADD_NODE q n)) = filepath (doc p)
  /\ module_name (doc (ADD_NODE q n)) = module_name (doc p)
  /\ timestamp (doc (ADD_NODE q n)) = timestamp (doc p)
  /\ d_docstring (doc (ADD_NODE q n)) = d_docstring (doc p).
Proof.
  intros H. destruct (ADD_NODE_cases q n) as [[_ ->]|[_ ->]];
    simpl; now rewrite H.
Qed.

(** An iteration of the scanning loop leaves path, module name and
    timestamp as they are, and changes the file-level doc only while
    the document has no entity and no file-level doc. *)
Lemma parse_line_header (p : Parser) :
  filepath (doc (parse_line p)) = filepath (doc p)
  /\ module_name (doc (parse_line p)) = module_name (doc p)
  /\ timestamp (doc (parse_line p)) = timestamp (doc p)
  /\ (d_docstring (doc (parse_line p)) = d_docstring (doc p)
      \/ (nodes (doc p) = [] /\ d_docstring (doc p) = []
          /\ strlen (d_docstring (doc (parse_line p))) < MAX_DOC)).
Proof.
  assert (G : forall q n, doc q = doc p ->
    filepath (doc (ADD_NODE q n)) = filepath (doc p)
    /\ module_name (doc (ADD_NODE q n)) = module_name (doc p)
    /\ timestamp (doc (ADD_NODE q n)) = timestamp (doc p)
    /\ (d_docstring (doc (ADD_NODE q n)) = d_docstring (doc p)
        \/ (nodes (doc p) = [] /\ d_docstring (doc p) = []
            /\ strlen (d_docstring (doc (ADD_NODE q n))) < MAX_DOC))).
  { intros q n H. destruct (ADD_NODE_header p q n H) as (A & B & C & D).
    repeat split; try assumption. now left. }
  unfold parse_line.
  destruct (classify (cstr_of (p_line p))) eqn:E.
  - destruct (parse_block_comment_closed p) as (Hd & _).
    set (c := parse_block_comment p) in *.
    destruct ((node_count (doc c) =? 0)%nat
              && match d_docstring (doc c) with [] => true | _ => false end)
      eqn:T; simpl; rewrite ?Hd; repeat split; try (now left).
    right. apply andb_true_iff in T as [T1 T2].
    rewrite Hd in T1, T2. apply Nat.eqb_eq in T1.
    repeat split.
    + unfold node_count in T1. now destruct (nodes (doc p)).
    + now destruct (d_docstring (doc p)).
    + apply safe_strcpy_lt, MAX_DOC_pos.
  - simpl. repeat split. now left.
  - unfold parse_include.
    pose proof (ex_doc _ _ _ _ (include_node_extracted p)) as Hd.
    destruct (include_node p) as [n q]. now apply G.
  - unfold parse_macro. destruct (macro_node p) as [[n q]|] eqn:M.
    + apply G. apply (macro_node_extracted p n q M).
    + repeat split. now left.
  - repeat split. now left.
  - unfold parse_aggregate.
    pose proof (ex_doc _ _ _ _ (aggregate_node_extracted p t)) as Hd.
    destruct (aggregate_node p t) as [n q]. now apply G.
  - unfold parse_typedef.
    pose proof (ex_doc _ _ _ _ (typedef_node_extracted p)) as Hd.
    destruct (typedef_node p) as [n q]. now apply G.
  - unfold parse_function.
    match goal with
    | |- context [function_node p ?s ?i ?e] =>
        pose proof (ex_doc _ _ _ _ (function_node_extracted p s i e)) as Hd;
        destruct (function_node p s i e) as [n q]
    end.
    now apply G.
  - unfold parse_variable.
    match goal with
    | |- context [variable_node p ?k ?s] =>
        pose proof (ex_doc _ _ _ _ (variable_node_extracted p k s)) as Hd;
        destruct (variable_node p k s) as [n q]
    end.
    now apply G.
  - destruct (_ <? _)%Z; repeat split; now left.
Qed.

Lemma parse_file_loop_header (fuel : nat) (p : Parser) :
  filepath (doc (parse_file_loop fuel p)) = filepath (doc p)
  /\ module_name (doc (parse_file_loop fuel p)) = module_name (doc p)
  /\ timestamp (doc (parse_file_loop fuel p)) = timestamp (doc p)
  /\ (strlen (d_docstring (doc p)) < MAX_DOC ->
      strlen (d_docstring (doc (parse_file_loop fuel p))) < MAX_DOC)
  /\ (d_docstring (doc p) <> [] \/ nodes (doc p) <> [] ->
      d_docstring (doc (parse_file_loop fuel p)) = d_docstring (doc p)).
Proof.
  revert p. induction fuel as [|fuel IH]; intros p; cbn [parse_file_loop].
  - repeat split; auto.
  - pose proof (reads_doc _ _ (next_line_reads p)) as R.
    destruct (next_line p) as [[|] p1]; cbn [snd] in R;
      [|rewrite R; repeat split; auto].
    destruct (IH (parse_line p1)) as (A & B & C & D & F).
    destruct (parse_line_header p1) as (A1 & B1 & C1 & D1).
    rewrite R in A1, B1, C1, D1.
    rewrite A, B, C. repeat split; try assumption.
    + intros H. apply D. destruct D1 as [-> | (_ & _ & L)]; assumption.
    + intros H.
      assert (Hd : d_docstring (doc (parse_line p1)) = d_docstring (doc p)).
      { destruct D1 as [D1 | (N & Z & _)]; [exact D1|].
        destruct H as [H|H]; congruence. }
      rewrite <- Hd. apply F.
      destruct H as [H|H]; [left; congruence | right].
      destruct (line_step_extends _ _ (parse_line_step p1)) as (a & Ha & _).
      rewrite Ha, R. now destruct (nodes (doc p)).
Qed.

(** X13.  The document of a scan carries the file name cut to the
    array, the module name derived from it and the text of the clock
    reading made by [parse_file] (the timestamp [parse_document] wrote
    before is overwritten); its file-level doc fits its array. *)
Theorem X13_document_header
    (filename : cstr) (content : list ascii) (now_document now_file : cstr) :
  let d := doc (scan filename content now_document now_file) in
  filepath d = safe_strcpy [] filename MAX_LINE
  /\ module_name d = extract_module_name filename MAX_NAME
  /\ timestamp d = now_file
  /\ strlen (d_docstring d) < MAX_DOC.
Proof.
  cbv zeta. unfold scan, parse_file.
  destruct (parse_file_loop_header
              (S (List.length (fp (new_parser filename content now_document))))
              (set_doc (new_parser filename content now_document)
                 (set_timestamp
                    (doc (new_parser filename content now_document))
                    now_file)))
    as (A & B & C & D & _).
  rewrite A, B, C. repeat split. apply D. apply MAX_DOC_pos.
Qed.

(** X14.  Once the document has a file-level doc or an entity, the
    file-level doc never changes: what it is after [k] iterations of
    the scanning loop it is in the final document. *)
Theorem X14_file_doc_stable
    (filename : cstr) (content : list ascii) (now_document now_file : cstr)
    (k : nat) :
  let mid := doc (scan_after k filename content now_document now_file) in
  d_docstring mid <> [] \/ nodes mid <> [] ->
  d_docstring (doc (scan filename content now_document now_file))
  = d_docstring mid.
Proof.
  cbv zeta. intros H. rewrite scan_is_scan_after. unfold scan_after in *.
  set (p := set_doc _ _) in *.
  set (full := S (List.length (pieces content))).
  assert (Hfull : List.length (fp p) < full) by (subst p full; simpl; lia).
  destruct (Nat.le_gt_cases k full) as [Hk|Hk].
  - replace full with (k + (full - k)) by lia.
    rewrite parse_file_loop_add.
    now apply parse_file_loop_header.
  - replace k with (full + (k - full)) by lia.
    now rewrite (parse_file_loop_enough _ _ _ Hfull).
Qed.

(** X14 at a file with two block comments: the second does not
    replace the file-level doc. *)
Lemma X14_file_doc_stable_witness :
  d_docstring
    (doc (scan (cs "input.c")
            (text ["/* first */"; " "; "/* second */"]) [] []))
  = cs "first".
Proof.
  rewrite (X14_file_doc_stable (cs "input.c")
             (text ["/* first */"; " "; "/* second */"]) [] [] 1).
  - vm_compute. reflexivity.
  - left. vm_compute. discriminate.
Defined.

End Document.

(* ------------------------------------------------------------------ *)
(** ** Lines: numbering, blank lines, comments left open *)

Section Lines.

Local Open Scope string_scope.

(** X15.  On a file on which the [int] line counter cannot overflow
    (at most [INT_MAX] pieces), the line of every entity of the
    document lies between 1 and the number of pieces [fgets] cuts the
    file into (its number of lines, when no line is longer than the
    buffer), so within the range of [int]. *)
Theorem X15_lines_in_file
    (filename : cstr) (content : list ascii) (now_document now_file : cstr) :
  counters_in_range content ->
  Forall (fun n => (1 <= line n <= Z.of_nat (List.length (pieces content)))%Z
                   /\ (line n <= INT_MAX)%Z)
    (nodes (doc (scan filename content now_document now_file))).
Proof.
  intros R. unfold counters_in_range in R.
  rewrite scan_is_scan_after.
  pose proof (scan_after_inv filename content now_document now_file
                (S (List.length (pieces content)))) as [_ _ Hl _ _ _].
  unfold scan_after in *. set (p := set_doc _ _) in *.
  pose proof (parse_file_loop_lines_pos (S (List.length (pieces content))) p)
    as Hp.
  pose proof (parse_file_loop_count (S (List.length (pieces content))) p) as Hc.
  change (line_num p) with 0%Z in Hc, Hp.
  change (fp p) with (pieces content) in Hc.
  specialize (Hp ltac:(lia) ltac:(constructor)).
  rewrite Forall_forall in *. intros n Hn.
  specialize (Hl n Hn). specialize (Hp n Hn). cbv beta in *. lia.
Qed.

(** X15 at a file of four lines, two of them blank. *)
Lemma X15_lines_in_file_witness :
  Forall (fun n => (1 <= line n <= 4)%Z /\ (line n <= INT_MAX)%Z)
    (nodes (doc (scan (cs "input.c")
                   (text ["int f(void);"; " "; " "; "int g(void);"])
                   [] []))).
Proof.
  apply (X15_lines_in_file (cs "input.c")
           (text ["int f(void);"; " "; " "; "int g(void);"]) [] []).
  unfold counters_in_range. apply Z.leb_le. vm_compute. reflexivity.
Defined.

Lemma cstr_of_poke_nul (b : buffer) (i : nat) :
  i <= List.length (cstr_of b) ->
  cstr_of (poke_nul b i) = firstn i (cstr_of b).
Proof.
  unfold poke_nul. intros H.
  destruct (Nat.ltb_spec i (List.length b)).
  - revert i H H0. induction b as [|c b IH]; intros i H L; [simpl in L; lia|].
    destruct i as [|i].
    + reflexivity.
    + cbn [firstn skipn app cstr_of] in *.
      destruct (chr_eq c NUL); [simpl in H; lia|].
      cbn [List.length firstn] in *. f_equal. apply IH; lia.
  - rewrite firstn_all2; [reflexivity|].
    clear H. revert H0. generalize i. clear i.
    induction b as [|c b IH]; intros i L; simpl in *; [lia|].
    destruct (chr_eq c NUL); simpl; [lia|].
    destruct i; [lia|]. specialize (IH i). lia.
Qed.

(** The string in the buffer after [trim(b)]. *)
Lemma cstr_of_trim_buffer (b : buffer) :
  cstr_of (trim_buffer b) = trim_inplace (cstr_of b).
Proof.
  unfold trim_buffer. rewrite cstr_of_poke_nul.
  - destruct (trim_inplace_split (cstr_of b)) as [r Hr].
    rewrite Hr at 2. unfold strlen.
    now rewrite firstn_app, firstn_all, Nat.sub_diag, firstn_0, app_nil_r.
  - apply trim_inplace_length.
Qed.

(** X16.  [next_line] passes over the whitespace-only pieces in front
    of the stream, counting each, and stops at the first other piece:
    [p->line] then holds that piece without its trailing whitespace. *)
Theorem X16_next_line_skips_blank
    (p : Parser) (blanks : list (list ascii)) (piece : list ascii)
    (rest : list (list ascii)) :
  fp p = (blanks ++ piece :: rest)%list ->
  Forall blank blanks ->
  ~ blank piece ->
  exists q : Parser,
    next_line p = (true, q)
    /\ fp q = rest
    /\ line_num q = (line_num p + Z.of_nat (List.length blanks) + 1)%Z
    /\ cstr_of (p_line q) = trim_inplace (cstr_of piece)
    /\ doc q = doc p.
Proof.
  unfold next_line, blank. intros H. rewrite H. clear H.
  revert p. induction blanks as [|b blanks IH]; intros p F N;
    cbn [app next_line_from]; unfold trim_line;
    cbn [read_line p_line set_line fst snd]; rewrite cstr_of_fgets_into.
  - destruct (trim (cstr_of piece)) as [|c t] eqn:E; [contradiction|].
    cbn [strlen List.length Nat.ltb Nat.leb].
    eexists. split; [reflexivity|].
    cbn [fp line_num p_line doc set_line read_line List.length].
    rewrite cstr_of_trim_buffer, cstr_of_fgets_into.
    repeat split. lia.
  - inversion F as [|? ? Hb F']; subst.
    rewrite Hb. cbn [strlen List.length Nat.ltb Nat.leb].
    match goal with
    | |- exists q, next_line_from _ ?x = _ /\ _ =>
        destruct (IH x F' N) as (q & Q1 & Q2 & Q3 & Q4 & Q5)
    end.
    cbn [line_num doc set_line read_line] in Q3, Q5.
    exists q. split; [exact Q1|]. repeat split; try assumption.
    rewrite Q3. cbn [List.length]. lia.
Qed.

(** X16 behind the comment of [/* doc */] / two blank lines /
    [int f(void);  ]. *)
Lemma X16_next_line_skips_blank_witness :
  exists q : Parser,
    next_line (scan_after 1 (cs "input.c")
                 (text ["/* doc */"; " "; " "; "int f(void);  "]) [] [])
    = (true, q)
    /\ line_num q = 4%Z
    /\ cstr_of (p_line q) = cs "int f(void);".
Proof.
  destruct (X16_next_line_skips_blank
              (scan_after 1 (cs "input.c")
                 (text ["/* doc */"; " "; " "; "int f(void);  "]) [] [])
              [cs " " ++ [LF]; cs " " ++ [LF]]%list
              (cs "int f(void);  " ++ [LF])%list [])
    as (q & Q1 & _ & Q3 & Q4 & _).
  - vm_compute. reflexivity.
  - repeat constructor.
  - vm_compute. discriminate.
  - exists q. split; [exact Q1|]. split.
    + rewrite Q3. vm_compute. reflexivity.
    + rewrite Q4. vm_compute. reflexivity.
Defined.

Lemma next_line_from_blank (rest : list (list ascii)) (p : Parser) :
  Forall blank rest -> fst (next_line_from rest p) = false.
Proof.
  revert p. induction rest as [|b rest IH]; intros p F;
    cbn [next_line_from]; [reflexivity|].
  inversion F as [|? ? Hb F']; subst. unfold trim_line, blank in *.
  cbn [read_line p_line set_line fst snd]. rewrite cstr_of_fgets_into, Hb.
  cbn [strlen List.length Nat.ltb Nat.leb]. now apply IH.
Qed.

(** X17.  A file that holds nothing but whitespace (an empty file
    too) gives a document without entities and without file-level
    doc. *)
Theorem X17_blank_file_empty_document
    (filename : cstr) (content : list ascii) (now_document now_file : cstr) :
  Forall blank (pieces content) ->
  nodes (doc (scan filename content now_document now_file)) = []
  /\ d_docstring (doc (scan filename content now_document now_file)) = [].
Proof.
  intros F. unfold scan, parse_file.
  set (p := set_doc _ _).
  change (fp (new_parser filename content now_document)) with (fp p).
  cbn [parse_file_loop].
  pose proof (next_line_from_blank (fp p) p F) as B.
  pose proof (reads_doc _ _ (next_line_reads p)) as R.
  unfold next_line in *. destruct (next_line_from (fp p) p) as [more q].
  cbn [fst snd] in *. subst more. rewrite R. now split.
Qed.

(** X17 at a file of three whitespace-only lines. *)
Lemma X17_blank_file_empty_document_witness :
  nodes (doc (scan (cs "input.c") (text [" "; "   "; " "]) [] [])) = []
  /\ d_docstring (doc (scan (cs "input.c") (text [" "; "   "; " "]) [] []))
     = [].
Proof.
  apply X17_blank_file_empty_document.
  vm_compute. repeat constructor.
Defined.

Lemma block_comment_loop_open (rest : list (list ascii)) (p : Parser)
    (buf : cstr) :
  fp p = rest ->
  Forall (fun piece => strstr (cstr_of piece) (cs "*/") = None) rest ->
  fp (fst (block_comment_loop rest p buf)) = [].
Proof.
  revert p buf. induction rest as [|piece rest IH]; intros p buf H F;
    cbn [block_comment_loop]; [exact H|].
  inversion F as [|? ? Hp F']; subst.
  cbn [read_line p_line]. rewrite cstr_of_fgets_into, Hp. cbn [found].
  now apply IH.
Qed.

(** X18.  A block comment that is closed neither on its line nor on
    any later line takes the rest of the file: nothing is left to
    read, and the scan records no entity behind it. *)
Theorem X18_open_comment_takes_rest (p : Parser) (fuel : nat) :
  classify (cstr_of (p_line p)) = C_block_comment ->
  strstr (cstr_of (p_line p)) (cs "*/") = None ->
  Forall (fun piece => strstr (cstr_of piece) (cs "*/") = None) (fp p) ->
  fp (parse_line p) = []
  /\ nodes (doc (parse_file_loop fuel (parse_line p))) = nodes (doc p).
Proof.
  intros E N F.
  assert (Hfp : fp (parse_line p) = []).
  { unfold parse_line. rewrite E. unfold parse_block_comment. rewrite N.
    cbn [found].
    pose proof (block_comment_loop_open (fp p) p
                  (safe_append [] (cstr_of (p_line p)) MAX_DOC) eq_refl F)
      as L.
    destruct (block_comment_loop _ _ _) as [p1 buf1]. cbn [fst] in L.
    now destruct (_ && _). }
  split; [exact Hfp|].
  rewrite (parse_file_loop_done fuel _ Hfp).
  destruct (parse_line_produced p) as [H | (n & _ & H)]; [exact H|].
  exfalso. unfold parse_line in H. rewrite E in H.
  destruct (parse_block_comment_closed p) as (Hd & _).
  destruct (_ && _); simpl in H; rewrite Hd in H;
    apply (f_equal (@List.length DocNode)) in H;
    rewrite length_app in H; simpl in H; lia.
Qed.

(** X18 at the first line of a file whose comment is never closed. *)
Lemma X18_open_comment_takes_rest_witness :
  let p := at_first_line
             (text ["/* never closed"; "int f(void);"; "int g(void);"]) in
  fp (parse_line p) = []
  /\ nodes (doc (parse_file_loop 5 (parse_line p))) = nodes (doc p).
Proof.
  intros p. apply X18_open_comment_takes_rest.
  - vm_compute. reflexivity.
  - vm_compute. reflexivity.
  - vm_compute. repeat constructor.
Defined.

End Lines.

(* ------------------------------------------------------------------ *)
(** ** The text of a comment *)

Section CommentText.

Lemma blanks_isspace (ws : cstr) :
  blanks ws -> Forall (fun c => isspace c = true) ws.
Proof.
  unfold blanks. apply Forall_impl. intros c [-> | ->]; reflexivity.
Qed.

Lemma skip_blanks_app (ws rest : cstr) :
  blanks ws ->
  match rest with c :: _ => isspace c = false | [] => True end ->
  skip_blanks (ws ++ rest) = rest.
Proof.
  intros B H. induction B as [|c ws [-> | ->] _ IH]; cbn [app skip_blanks];
    try exact IH.
  destruct rest as [|c rest]; [reflexivity|]. cbn [skip_blanks].
  destruct (chr_eq c " "%char) eqn:E1;
    [apply chr_eq_true in E1; subst c; discriminate H|].
  destruct (chr_eq c TAB) eqn:E2;
    [apply chr_eq_true in E2; subst c; discriminate H|].
  reflexivity.
Qed.

Lemma strstr_close_blanks (ws : cstr) :
  blanks ws -> strstr ws (cs "*/") = None /\ ~ In LF ws.
Proof.
  intros B. induction B as [|c ws H _ [IH1 IH2]]; [split; [reflexivity | tauto]|].
  split.
  - cbn [strstr]. rewrite IH1.
    destruct H as [-> | ->]; reflexivity.
  - intros [E | E]; [destruct H as [-> | ->]; discriminate E | tauto].
Qed.

(** Characters that are copied one by one: no newline among them, no
    closing delimiter inside or across the end. *)
Lemma clean_loop_copy (body tail : cstr) (fuel room : nat) :
  ~ In LF body -> strstr body (cs "*/") = None ->
  starts_with tail (cs "/") = false ->
  strlen body <= room -> strlen body <= fuel ->
  clean_loop fuel (body ++ tail) false room
  = body ++ clean_loop (fuel - strlen body) tail false (room - strlen body).
Proof.
  revert fuel room. induction body as [|c body IH]; intros fuel room L S T R F.
  - cbn [app strlen List.length]. now rewrite !Nat.sub_0_r.
  - cbn [strlen List.length] in R, F.
    destruct fuel as [|fuel]; [lia|]. destruct room as [|room]; [lia|].
    cbn [strstr] in S.
    destruct (starts_with (c :: body) (cs "*/")) eqn:E; [discriminate S|].
    destruct (strstr body (cs "*/")) eqn:S'; [discriminate S|].
    cbn [app clean_loop].
    assert (E' : starts_with (c :: body ++ tail) (cs "*/") = false).
    { cbn [starts_with cs list_ascii_of_string] in *.
      destruct (chr_eq c "*"%char); [|reflexivity].
      destruct body as [|x body]; [exact T|].
      cbn [app andb] in *. exact E. }
    rewrite E'.
    destruct (chr_eq c LF) eqn:El;
      [apply chr_eq_true in El; subst c; exfalso; apply L; now left|].
    cbn [strlen List.length Nat.sub]. f_equal.
    apply IH; try assumption; unfold strlen; try lia.
    intros H. apply L. now right.
Qed.

Lemma clean_loop_nil (fuel : nat) (b : bool) (room : nat) :
  clean_loop fuel [] b room = [].
Proof. now destruct fuel. Qed.

Lemma clean_loop_close (fuel room : nat) :
  clean_loop fuel (cs "*/") false room = [].
Proof.
  destruct fuel as [|fuel]; [reflexivity|].
  destruct room as [|room]; [reflexivity|].
  cbn [clean_loop cs list_ascii_of_string starts_with chr_eq Ascii.eqb].
  vm_compute (Ascii.eqb _ _ && _). cbn [skipn].
  now destruct fuel.
Qed.

Lemma strip_trailing_spaces (ws : cstr) :
  Forall (fun c => isspace c = true) ws -> strip_trailing ws = [].
Proof.
  induction 1 as [|c ws H _ IH]; [reflexivity|].
  cbn [strip_trailing]. now rewrite IH, H.
Qed.

Lemma strip_trailing_app_spaces (s ws : cstr) :
  Forall (fun c => isspace c = true) ws ->
  strip_trailing (s ++ ws) = strip_trailing s.
Proof.
  intros H. induction s as [|c s IH]; cbn [app strip_trailing].
  - now apply strip_trailing_spaces.
  - now rewrite IH.
Qed.

(** A string [trim] leaves as it is begins and ends with a character
    that is no whitespace. *)
Lemma trim_fixed_ends (s : cstr) :
  trim s = s ->
  match s with c :: _ => isspace c = false | [] => True end
  /\ match rev s with c :: _ => isspace c = false | [] => True end.
Proof.
  intros H.
  assert (Hh : match trim s with c :: _ => isspace c = false | [] => True end).
  { unfold trim. pose proof (ltrim_head s) as L.
    destruct (ltrim s) as [|c t]; [exact I | exact L]. }
  pose proof (rtrim_last (ltrim s) (ltrim_head s)) as Hl.
  fold (trim s) in Hl. rewrite H in Hh, Hl. now split.
Qed.

Lemma trim_inplace_app_spaces (body ws : cstr) :
  body <> [] -> trim body = body ->
  Forall (fun c => isspace c = true) ws ->
  trim_inplace (body ++ ws) = body.
Proof.
  intros N T W. destruct (trim_fixed_ends body T) as [Hh Hl].
  destruct body as [|b body]; [congruence|].
  unfold trim_inplace, trim. cbn [app leading_ws ltrim]. rewrite Hh.
  cbn [app rtrim]. rewrite strip_trailing_app_spaces by exact W.
  change (b :: strip_trailing body) with (rtrim (b :: body)).
  now apply rtrim_fixed.
Qed.

(** The loop of [clean_comment] on the inside of a one-line comment;
    [closer] is the closing delimiter or nothing. *)
Lemma clean_loop_line (body ws1 ws2 closer : cstr) (fuel room : nat) :
  body <> [] -> trim body = body -> starts_with body (cs "*") = false ->
  ~ In LF body -> strstr body (cs "*/") = None ->
  blanks ws1 -> blanks ws2 ->
  closer = [] \/ closer = cs "*/" ->
  strlen body + strlen ws2 <= room ->
  strlen body + strlen ws2 < fuel ->
  clean_loop fuel (ws1 ++ body ++ ws2 ++ closer) true room = body ++ ws2.
Proof.
  intros N T St L S B1 B2 C R F.
  destruct (trim_fixed_ends body T) as [Hh _].
  destruct body as [|b body]; [congruence|].
  assert (Hb : chr_eq b "*"%char = false /\ chr_eq b LF = false).
  { split.
    - cbn [starts_with cs list_ascii_of_string] in St.
      now destruct (chr_eq b "*"%char).
    - apply chr_eq_false. intros ->. apply L. now left. }
  destruct Hb as [Hb1 Hb2].
  assert (Hc : clean_loop (fuel - 1) ((b :: body) ++ ws2 ++ closer) false room
               = (b :: body) ++ ws2).
  { rewrite clean_loop_copy; try assumption; unfold strlen in *;
      cbn [List.length] in *; try lia.
    - f_equal. destruct (strstr_close_blanks ws2 B2) as [S2 L2].
      rewrite clean_loop_copy; try assumption; unfold strlen; try lia.
      + destruct C as [-> | ->].
        * now rewrite clean_loop_nil, app_nil_r.
        * now rewrite clean_loop_close, app_nil_r.
      + destruct C as [-> | ->]; reflexivity.
    - destruct B2 as [|w ws2 [-> | ->] _]; cbn [app];
        [destruct C as [-> | ->]|..]; reflexivity. }
  destruct fuel as [|fuel]; [lia|].
  cbn [Nat.sub] in Hc. rewrite Nat.sub_0_r in Hc.
  destruct room as [|room]; [unfold strlen in R; cbn [List.length] in R; lia|].
  assert (Hs : skip_blanks (ws1 ++ (b :: body) ++ ws2 ++ closer)
               = (b :: body) ++ ws2 ++ closer)
    by (apply skip_blanks_app; [exact B1 | exact Hh]).
  destruct (ws1 ++ (b :: body) ++ ws2 ++ closer) as [|c p] eqn:Ep.
  { destruct ws1; discriminate Ep. }
  assert (Hc1 : chr_eq c "*"%char = false /\ chr_eq c LF = false).
  { destruct B1 as [|w ws1 H _]; cbn [app] in Ep; injection Ep as <- _.
    - now split.
    - destruct H as [-> | ->]; split; reflexivity. }
  destruct Hc1 as [Hc1 Hc2].
  cbn [clean_loop]. cbn [starts_with cs list_ascii_of_string].
  rewrite Hc1, Hc2. cbn [andb]. rewrite Hs. cbn [app].
  rewrite Hb1. cbn [andb]. exact Hc.
Qed.

(** X19.  The text of a one-line comment is what stands between its
    delimiters and the blanks next to them: [clean_comment] gives back
    any body that has no newline and no closing delimiter inside, no
    whitespace at either end and no star in front, and fits the
    buffer. *)
Theorem X19_one_line_comment_text (body ws1 ws2 : cstr) (size : nat) :
  body <> [] -> trim body = body -> starts_with body (cs "*") = false ->
  ~ In LF body -> strstr body (cs "*/") = None ->
  blanks ws1 -> blanks ws2 ->
  strlen body + strlen ws2 < size ->
  clean_comment (cs "/*" ++ ws1 ++ body ++ ws2 ++ cs "*/") size = body
  /\ clean_comment (cs "/**" ++ ws1 ++ body ++ ws2 ++ cs "*/") size = body
  /\ clean_comment (cs "//" ++ ws1 ++ body ++ ws2) size = body.
Proof.
  intros N T St L S B1 B2 R.
  assert (Hh : match ws1 ++ body ++ ws2 ++ cs "*/" with
               | c :: _ => chr_eq c "*"%char = false | [] => True end).
  { destruct B1 as [|w ws1 [-> | ->] _]; cbn [app]; try reflexivity.
    destruct body as [|b body]; [congruence|]. cbn [app].
    cbn [starts_with cs list_ascii_of_string] in St.
    now destruct (chr_eq b "*"%char). }
  pose proof (blanks_isspace ws2 B2) as W.
  pose proof (trim_inplace_app_spaces body ws2 N T W) as Ht.
  assert (Hl : clean_loop (2 * strlen (ws1 ++ body ++ ws2 ++ cs "*/") + 2)
                 (ws1 ++ body ++ ws2 ++ cs "*/") true (size - 1)
               = body ++ ws2).
  { apply clean_loop_line; try assumption; [now right | lia |].
    unfold strlen. rewrite !length_app. unfold strlen in R. lia. }
  unfold clean_comment. repeat split.
  - set (r := ws1 ++ body ++ ws2 ++ cs "*/") in *.
    assert (E : starts_with (cs "/*" ++ r) (cs "/**") = false).
    { change (starts_with (cs "/*" ++ r) (cs "/**"))
        with (starts_with r (cs "*")).
      destruct r as [|c r']; [reflexivity|].
      cbn [starts_with cs list_ascii_of_string]. now rewrite Hh. }
    rewrite E.
    change (starts_with (cs "/*" ++ r) (cs "/*")) with true. cbv iota.
    change (skipn 2 (cs "/*" ++ r)) with r.
    now rewrite Hl.
  - set (r := ws1 ++ body ++ ws2 ++ cs "*/") in *.
    change (starts_with (cs "/**" ++ r) (cs "/**")) with true. cbv iota.
    change (skipn 3 (cs "/**" ++ r)) with r.
    now rewrite Hl.
  - set (r := ws1 ++ body ++ ws2).
    change (starts_with (cs "//" ++ r) (cs "/**")) with false.
    change (starts_with (cs "//" ++ r) (cs "/*")) with false.
    change (starts_with (cs "//" ++ r) (cs "//")) with true. cbv iota.
    change (skipn 2 (cs "//" ++ r)) with r. subst r.
    rewrite <- (app_nil_r ws2) at 1 2.
    rewrite (clean_loop_line body ws1 ws2 []); try assumption;
      [now left | lia |].
    unfold strlen. rewrite !length_app. unfold strlen in R. lia.
Qed.

(** X19 at [/** Adds two numbers. */], [/* ... */] and [// ...]. *)
Lemma X19_one_line_comment_text_witness :
  clean_comment (cs "/* Adds two numbers. */") MAX_DOC
    = cs "Adds two numbers."
  /\ clean_comment (cs "/** Adds two numbers. */") MAX_DOC
    = cs "Adds two numbers."
  /\ clean_comment (cs "// Adds two numbers. ") MAX_DOC
    = cs "Adds two numbers.".
Proof.
  apply (X19_one_line_comment_text (cs "Adds two numbers.") (cs " ") (cs " ")
           MAX_DOC).
  - discriminate.
  - reflexivity.
  - reflexivity.
  - intros H; simpl in H;
      repeat (destruct H as [H|H]; [discriminate H|]); exact H.
  - reflexivity.
  - repeat constructor.
  - repeat constructor.
  - apply Nat.ltb_lt. vm_compute. reflexivity.
Defined.

End CommentText.

(* ------------------------------------------------------------------ *)
(** ** What the extractors read off a line *)

Section Extraction.

Lemma skipn_app_cons (a b : cstr) (c : ascii) :
  skipn (S (List.length a)) (a ++ c :: b) = b.
Proof. induction a as [|x a IH]; [reflexivity | exact IH]. Qed.

Lemma firstn_app_exact (a b : cstr) : firstn (List.length a) (a ++ b) = a.
Proof.
  rewrite firstn_app, firstn_all, Nat.sub_diag, firstn_0. apply app_nil_r.
Qed.

Lemma skipn_app_exact (a b : cstr) : skipn (List.length a) (a ++ b) = b.
Proof.
  rewrite skipn_app, skipn_all, Nat.sub_diag. reflexivity.
Qed.

Lemma copy_name_app (nm rest : cstr) :
  copy_name (nm ++ rest) (List.length nm)
  = if strlen nm <? MAX_NAME then nm else [].
Proof.
  unfold copy_name, strncpy, strlen. destruct nm as [|c nm].
  - change (0 <? List.length (@nil ascii)) with false. cbn [andb].
    now destruct (List.length (@nil ascii) <? MAX_NAME).
  - change (0 <? List.length (c :: nm)) with true. cbn [andb].
    destruct (List.length (c :: nm) <? MAX_NAME);
      [apply firstn_app_exact | reflexivity].
Qed.

Lemma ltrim_app_spaces (ws r : cstr) :
  Forall (fun c => isspace c = true) ws -> begins_without isspace r ->
  ltrim (ws ++ r) = r.
Proof.
  intros W H. induction W as [|c ws Hc _ IH]; cbn [app ltrim].
  - destruct r as [|x r]; [reflexivity|]. cbn [ltrim]. now rewrite H.
  - now rewrite Hc.
Qed.

Lemma ident_len_app (nm tail : cstr) :
  Forall (fun c => is_ident_char c = true) nm ->
  begins_without is_ident_char tail ->
  ident_len (nm ++ tail) = List.length nm.
Proof.
  intros F H. induction F as [|c nm Hc _ IH]; cbn [app ident_len List.length].
  - destruct tail as [|x tail]; [reflexivity|]. cbn [ident_len]. now rewrite H.
  - now rewrite Hc, IH.
Qed.

Lemma ident_not_space (nm tail : cstr) :
  identifier nm -> begins_without isspace (nm ++ tail).
Proof.
  intros [N F]. destruct F as [|c nm Hc _]; [congruence|]. cbn [app].
  unfold begins_without. unfold is_ident_char, isalnum, isspace, chr_eq in *.
  destruct c as [[] [] [] [] [] [] [] []]; vm_compute in Hc |- *;
    first [reflexivity | discriminate Hc].
Qed.

Lemma Forall_not_In (f : ascii -> bool) (c : ascii) (s : cstr) :
  f c = false -> Forall (fun x => f x = true) s -> ~ In c s.
Proof.
  intros H F Hin. rewrite Forall_forall in F. specialize (F c Hin). congruence.
Qed.

Lemma In_found (s : cstr) (c : ascii) : In c s -> found (strchr s c) = true.
Proof.
  intros H. destruct (strchr s c) eqn:E; [reflexivity|].
  now apply strchr_None in E.
Qed.

Lemma cut_at_app (a b : cstr) (c : ascii) :
  ~ In c a ->
  cut_at (a ++ b) (strchr (a ++ b) c) = a ++ cut_at b (strchr b c).
Proof.
  induction a as [|x a IH]; intros H; [reflexivity|].
  cbn [app strchr].
  destruct (chr_eq x c) eqn:E; [apply chr_eq_true in E; subst; simpl in H; tauto|].
  rewrite <- IH by (simpl in H; tauto).
  now destruct (strchr (a ++ b) c).
Qed.

Lemma strip_trailing_keep (a b : cstr) (c : ascii) :
  isspace c = false ->
  strip_trailing (a ++ c :: b) = a ++ c :: strip_trailing b.
Proof.
  intros H. induction a as [|x a IH]; cbn [app strip_trailing].
  - destruct (strip_trailing b); [now rewrite H | reflexivity].
  - rewrite IH. now destruct a.
Qed.

(** [trim] in place keeps everything up to the last character that
    is no whitespace. *)
Lemma trim_inplace_keep (a b : cstr) (c : ascii) :
  isspace c = false ->
  trim_inplace (a ++ c :: b) = a ++ c :: strip_trailing b.
Proof.
  intros H. unfold trim_inplace, trim. induction a as [|x a IH].
  - cbn [app leading_ws ltrim]. rewrite H. reflexivity.
  - cbn [app leading_ws ltrim]. destruct (isspace x) eqn:E.
    + cbn [app]. now rewrite IH.
    + cbn [app rtrim]. now rewrite strip_trailing_keep.
Qed.

Lemma back_over_space_run (B : cstr) (z : ascii) (ws junk : cstr) :
  isspace z = false -> Forall (fun c => isspace c = true) ws ->
  back_over_space (B ++ z :: ws ++ junk) (List.length B + List.length ws)
  = List.length B.
Proof.
  intros Hz. revert junk. induction ws as [|w ws IH] using rev_ind;
    intros junk W.
  - cbn [app List.length]. rewrite Nat.add_0_r.
    destruct B as [|b B]; [reflexivity|].
    cbn [List.length back_over_space].
    change (S (List.length B)) with (List.length (b :: B)).
    now rewrite nth_middle, Hz.
  - apply Forall_app in W as [W Hw]. inversion Hw as [|? ? Hw' _]; subst.
    rewrite length_app. cbn [List.length].
    replace (List.length B + (List.length ws + 1))
      with (S (List.length B + List.length ws)) by lia.
    cbn [back_over_space].
    replace (B ++ z :: (ws ++ [w]) ++ junk)
      with ((B ++ z :: ws) ++ w :: junk)
      by (rewrite <- !app_assoc; reflexivity).
    replace (S (List.length B + List.length ws))
      with (List.length (B ++ z :: ws))
      by (rewrite length_app; cbn [List.length]; lia).
    rewrite nth_middle, Hw'.
    replace ((B ++ z :: ws) ++ w :: junk) with (B ++ z :: ws ++ w :: junk)
      by (rewrite <- !app_assoc; reflexivity).
    now apply IH.
Qed.

Lemma back_over_ident_run (pre nm junk : cstr) (j : nat) :
  begins_without is_ident_char (rev pre) ->
  Forall (fun c => is_ident_char c = true) nm ->
  j <= List.length nm ->
  back_over_ident (pre ++ nm ++ junk) (List.length pre + j) = List.length pre.
Proof.
  intros P F. induction j as [|j IH]; intros J.
  - rewrite Nat.add_0_r.
    destruct pre as [|x pre] using rev_ind; [reflexivity|].
    rewrite rev_app_distr in P. cbn [rev app begins_without] in P.
    rewrite length_app. cbn [List.length].
    replace (List.length pre + 1) with (S (List.length pre)) by lia.
    cbn [back_over_ident].
    rewrite <- app_assoc. cbn [app]. now rewrite nth_middle, P.
  - rewrite Nat.add_succ_r. cbn [back_over_ident].
    rewrite app_nth2_plus, app_nth1 by lia.
    rewrite Forall_forall in F.
    rewrite (F (nth j nm NUL)) by (apply nth_In; lia).
    apply IH. lia.
Qed.

(** The name the two backward loops of [parse_function] and
    [parse_typedef] find in [pre ++ nm ++ ws]. *)
Lemma name_before (pre nm ws : cstr) :
  begins_without is_ident_char (rev pre) -> identifier nm ->
  Forall (fun c => isspace c = true) ws ->
  let sig := pre ++ nm ++ ws in
  let e := back_over_space sig (strlen sig - 1) in
  let name_start := back_over_ident sig e in
  name_start = List.length pre
  /\ copy_name (skipn name_start sig) (e - name_start + 1)
     = if strlen nm <? MAX_NAME then nm else [].
Proof.
  intros P [N F] W. cbv zeta.
  destruct (exists_last N) as (nm' & z & ->).
  assert (Hz : isspace z = false).
  { pose proof (ident_not_space [z] [] ) as H. apply H. split; [discriminate|].
    apply Forall_app in F as [_ F]. exact F. }
  assert (He : back_over_space (pre ++ (nm' ++ [z]) ++ ws)
                 (strlen (pre ++ (nm' ++ [z]) ++ ws) - 1)
               = List.length pre + List.length nm').
  { replace (pre ++ (nm' ++ [z]) ++ ws) with ((pre ++ nm') ++ z :: ws ++ [])
      by (rewrite <- !app_assoc, app_nil_r; reflexivity).
    replace (strlen ((pre ++ nm') ++ z :: ws ++ []) - 1)
      with (List.length (pre ++ nm') + List.length ws)
      by (unfold strlen; rewrite !length_app; cbn [List.length];
          rewrite !length_app; cbn [List.length]; lia).
    rewrite back_over_space_run by assumption. apply length_app. }
  rewrite He.
  rewrite (back_over_ident_run pre (nm' ++ [z]) ws (List.length nm') P F)
    by (rewrite length_app; lia).
  split; [reflexivity|].
  rewrite skipn_app_exact.
  replace (List.length pre + List.length nm' - List.length pre + 1)
    with (List.length (nm' ++ [z]))
    by (rewrite length_app; cbn [List.length]; lia).
  apply copy_name_app.
Qed.

Lemma safe_append_nil (s : cstr) (size : nat) :
  strlen s < size -> safe_append [] s size = s.
Proof.
  unfold safe_append, strlen. intros H.
  destruct (Nat.eqb_spec size 0); [lia|].
  cbn [List.length]. destruct (Nat.leb_spec (size - 1) 0);
    [destruct s; [reflexivity | simpl in H; lia]|].
  cbn [app]. apply firstn_all2. lia.
Qed.

Lemma safe_strcpy_whole (s : cstr) (size : nat) :
  strlen s < size -> safe_strcpy [] s size = s.
Proof.
  unfold safe_strcpy, strlen. intros H.
  destruct (Nat.eqb_spec size 0); [lia|]. apply firstn_all2. lia.
Qed.

Lemma function_sig_loop_stop (rest : list (list ascii)) (p : Parser)
    (sig : cstr) :
  found (strchr sig "{"%char) || found (strchr sig ";"%char) = true ->
  function_sig_loop rest p sig = (p, sig).
Proof. intros H. destruct rest; cbn [function_sig_loop]; now rewrite H. Qed.

Lemma typedef_sig_loop_stop (rest : list (list ascii)) (p : Parser)
    (sig : cstr) :
  found (strchr sig ";"%char) = true ->
  typedef_sig_loop rest p sig = (p, sig).
Proof. intros H. destruct rest; cbn [typedef_sig_loop]; now rewrite H. Qed.

(** X20.  [parse_include] names the entry by what stands between the
    first [<] of the line and the next [>], or, on a line without [<],
    between the first two double quotes; a file name of [MAX_NAME]
    characters or more is dropped, not shortened. *)
Theorem X20_include_name (p : Parser) (pre nm post : cstr) :
  (cstr_of (p_line p) = pre ++ "<"%char :: nm ++ ">"%char :: post
   /\ ~ In "<"%char pre /\ ~ In ">"%char nm)
  \/ (cstr_of (p_line p) = pre ++ DQUOTE :: nm ++ DQUOTE :: post
      /\ ~ In "<"%char (cstr_of (p_line p))
      /\ ~ In DQUOTE pre /\ ~ In DQUOTE nm) ->
  name (fst (include_node p)) = if strlen nm <? MAX_NAME then nm else [].
Proof.
  intros H. unfold include_node. destruct (trim_line p) as [trimmed p1].
  cbn [fst name].
  destruct H as [(E & H1 & H2) | (E & H0 & H1 & H2)].
  - rewrite E, (strchr_app pre _ _ H1), skipn_app_cons.
    rewrite (strchr_app nm _ _ H2). apply copy_name_app.
  - rewrite (strchr_not_In _ _ H0).
    rewrite E, (strchr_app pre _ _ H1), skipn_app_cons.
    rewrite (strchr_app nm _ _ H2). apply copy_name_app.
Qed.

(** X20 at the lines [#include <stdio.h>] and [#include "util.h"]. *)
Lemma X20_include_name_witness :
  name (fst (include_node
               (at_first_line (text ["#include <stdio.h>"%string]))))
    = cs "stdio.h"
  /\ name (fst (include_node
                  (set_line (at_first_line (text [" "%string]))
                     (cs "#include " ++ DQUOTE :: cs "util.h" ++ [DQUOTE]))))
     = cs "util.h".
Proof.
  split.
  - apply (X20_include_name _ (cs "#include ") (cs "stdio.h") []).
    left. split; [reflexivity|]. split;
      intros H; simpl in H;
      repeat (destruct H as [H|H]; [discriminate H|]); exact H.
  - apply (X20_include_name _ (cs "#include ") (cs "util.h") []).
    right. split; [reflexivity|]. repeat split;
      intros H; simpl in H;
      repeat (destruct H as [H|H]; [discriminate H|]); exact H.
Defined.

(** X21.  [parse_aggregate] names the entry by the identifier behind
    the first occurrence of the keyword and the whitespace after it;
    when no identifier stands there, or one of [MAX_NAME] characters or
    more, the entry gets the placeholder of its kind. *)
Theorem X21_aggregate_name (p : Parser) (t : NodeType)
    (pre ws nm tail : cstr) :
  cstr_of (p_line p) = pre ++ keyword_of t ++ ws ++ nm ++ tail ->
  strstr (cstr_of (p_line p)) (keyword_of t) = Some (strlen pre) ->
  Forall (fun c => isspace c = true) ws ->
  Forall (fun c => is_ident_char c = true) nm ->
  begins_without isspace (nm ++ tail) ->
  begins_without is_ident_char tail ->
  name (fst (aggregate_node p t))
  = if (0 <? strlen nm) && (strlen nm <? MAX_NAME) then nm
    else cs "(anonymous " ++ keyword_of t ++ cs ")".
Proof.
  intros E K W F S I. unfold aggregate_node.
  destruct (trim_line p) as [trimmed p1].
  destruct (attach_doc p1 _) as [d p2]. cbn [fst name].
  rewrite K, E. unfold strlen.
  rewrite <- length_app, app_assoc, skipn_app_exact.
  rewrite (ltrim_app_spaces ws (nm ++ tail) W S).
  rewrite (ident_len_app nm tail F I).
  unfold copy_name, strncpy.
  destruct ((0 <? List.length nm) && (List.length nm <? MAX_NAME)) eqn:B.
  - rewrite firstn_app_exact. destruct nm; [discriminate B | reflexivity].
  - reflexivity.
Qed.

(** X21 at the lines [struct point {] and [struct {]. *)
Lemma X21_aggregate_name_witness :
  name (fst (aggregate_node
               (at_first_line (text ["struct point {"%string])) NODE_STRUCT))
    = cs "point"
  /\ name (fst (aggregate_node
                  (at_first_line (text ["struct {"%string])) NODE_STRUCT))
     = cs "(anonymous struct)".
Proof.
  split.
  - apply (X21_aggregate_name _ NODE_STRUCT [] (cs " ") (cs "point") (cs " {"));
      try reflexivity; repeat constructor.
  - apply (X21_aggregate_name _ NODE_STRUCT [] (cs " ") [] (cs "{"));
      try reflexivity; repeat constructor.
Defined.

Lemma no_backslash_stop (s : cstr) :
  ~ In "\"%char s ->
  last_is s "\"%char = false /\ penultimate_is s "\"%char = false.
Proof.
  intros H. unfold last_is, penultimate_is.
  assert (H' : ~ In "\"%char (rev s)) by (now rewrite <- in_rev).
  destruct (rev s) as [|x [|y r]]; split; try reflexivity;
    apply chr_eq_false; intros ->; apply H'; simpl; tauto.
Qed.

Lemma macro_loop_stop (rest : list (list ascii)) (p : Parser) (sig : cstr) :
  last_is sig "\"%char = false -> penultimate_is sig "\"%char = false ->
  macro_loop rest p sig = (p, sig).
Proof.
  intros H1 H2. destruct rest; cbn [macro_loop]; now rewrite H1, H2.
Qed.

(** X22.  [parse_macro] names the entry by the identifier behind
    [#define] and the whitespace after it, whatever the continuation
    lines hold; a name of [MAX_NAME] characters or more is dropped. *)
Theorem X22_macro_name (p : Parser) (pre ws nm tail : cstr) :
  cstr_of (p_line p) = pre ++ cs "#define" ++ ws ++ nm ++ tail ->
  strlen (cstr_of (p_line p)) < MAX_SIG ->
  Forall (fun c => isspace c = true) pre ->
  Forall (fun c => isspace c = true) ws ->
  identifier nm ->
  begins_without is_ident_char tail ->
  exists (n : DocNode) (q : Parser),
    macro_node p = Some (n, q)
    /\ name n = if strlen nm <? MAX_NAME then nm else [].
Proof.
  intros E L P W N I. unfold macro_node.
  assert (K : strstr (cstr_of (p_line p)) (cs "#define")
              = Some (List.length pre)).
  { rewrite E. clear E L. induction P as [|x pre Hx _ IH]; [reflexivity|].
    cbn [app strstr List.length]. rewrite IH.
    replace (starts_with (x :: pre ++ cs "#define" ++ ws ++ nm ++ tail)
               (cs "#define")) with false; [reflexivity|].
    cbn [starts_with cs list_ascii_of_string].
    destruct (chr_eq x "#"%char) eqn:C; [|reflexivity].
    apply chr_eq_true in C. subst x. discriminate Hx. }
  rewrite K.
  assert (S0 : safe_strcpy [] (skipn (List.length pre) (cstr_of (p_line p)))
                 MAX_SIG
               = (cs "#define" ++ ws ++ nm) ++ tail).
  { rewrite safe_strcpy_whole.
    - rewrite E, skipn_app_exact. now rewrite <- !app_assoc.
    - unfold strlen in *. rewrite length_skipn. lia. }
  rewrite S0.
  assert (Shape : exists tail',
             begins_without is_ident_char tail'
             /\ snd (macro_loop (fp p) p ((cs "#define" ++ ws ++ nm) ++ tail))
                = (cs "#define" ++ ws ++ nm) ++ tail').
  { destruct tail as [|c t].
    - exists []. split; [exact I|]. rewrite app_nil_r.
      assert (B : ~ In "\"%char (cs "#define" ++ ws ++ nm)).
      { intros H. apply in_app_or in H as [H | H].
        - simpl in H. repeat (destruct H as [H|H]; [discriminate H|]). exact H.
        - apply in_app_or in H as [H | H].
          + revert H. now apply (Forall_not_In isspace).
          + revert H. now apply (Forall_not_In is_ident_char), N. }
      destruct (no_backslash_stop _ B) as [B1 B2].
      now rewrite macro_loop_stop.
    - destruct (macro_loop_prefix (fp p) p
                  ((cs "#define" ++ ws ++ nm) ++ c :: t)) as [more Hm].
      rewrite Hm.
      destruct (last_is ((cs "#define" ++ ws ++ nm) ++ c :: t) "\"%char).
      + rewrite removelast_app by discriminate.
        destruct t as [|c' t].
        * exists (cs " " ++ more). split; [reflexivity|].
          cbn [removelast]. now rewrite app_nil_r, <- !app_assoc.
        * exists ((c :: removelast (c' :: t)) ++ cs " " ++ more).
          split; [exact I|].
          change (removelast (c :: c' :: t)) with (c :: removelast (c' :: t)).
          now rewrite <- !app_assoc.
      + exists ((c :: t) ++ more). split; [exact I|].
        now rewrite <- !app_assoc. }
  destruct Shape as (tail' & I' & Hs).
  destruct (macro_loop (fp p) p _) as [p1 sig]. cbn [snd] in Hs. subst sig.
  destruct (attach_doc p1 _) as [d p2].
  eexists. eexists. split; [reflexivity|]. cbn [name].
  replace (skipn 7 ((cs "#define" ++ ws ++ nm) ++ tail'))
    with (ws ++ nm ++ tail')
    by (rewrite <- !app_assoc; reflexivity).
  rewrite (ltrim_app_spaces ws (nm ++ tail') W (ident_not_space nm tail' N)).
  rewrite (ident_len_app nm tail' (proj2 N) I').
  apply copy_name_app.
Qed.

(** X22 at the function-like macro [#define MAX(a, b) ...] whose
    first line ends in a backslash. *)
Lemma X22_macro_name_witness :
  exists (n : DocNode) (q : Parser),
    macro_node
      (at_first_line (text ["#define MAX(a, b) \"; "  ((a) > (b) ? (a) : (b))"]%string))
    = Some (n, q)
    /\ name n = cs "MAX".
Proof.
  apply (X22_macro_name _ [] (cs " ") (cs "MAX") (cs "(a, b) \")).
  - reflexivity.
  - apply Nat.ltb_lt. vm_compute. reflexivity.
  - constructor.
  - repeat constructor.
  - split; [discriminate | repeat constructor].
  - reflexivity.
Defined.

(** X23.  On a declaration whose first line holds the opening
    parenthesis and a [{] or [;] behind it, [parse_function] names the
    entry by the identifier in front of the first parenthesis and
    gives as return type what stands before that identifier, trimmed
    and cut to the size of the field. *)
Theorem X23_function_name (p : Parser) (s i e : bool)
    (pre nm ws rest : cstr) :
  cstr_of (p_line p) = pre ++ nm ++ ws ++ "("%char :: rest ->
  strlen (cstr_of (p_line p)) < MAX_SIG ->
  ~ In "("%char pre -> ~ In "{"%char pre -> ~ In ";"%char pre ->
  begins_without is_ident_char (rev pre) ->
  identifier nm ->
  Forall (fun c => isspace c = true) ws ->
  In "{"%char rest \/ In ";"%char rest ->
  name (fst (function_node p s i e))
    = (if strlen nm <? MAX_NAME then nm else [])
  /\ return_type (fst (function_node p s i e))
     = safe_strcpy [] (trim pre) MAX_NAME
  /\ out_of_bounds (snd (function_node p s i e)) = out_of_bounds p.
Proof.
  intros E L P1 P2 P3 P N W R.
  set (T := pre ++ nm ++ ws).
  assert (ET : cstr_of (p_line p) = (T ++ ["("%char]) ++ rest)
    by (rewrite E; subst T; rewrite <- !app_assoc; reflexivity).
  assert (NI : forall c, is_ident_char c = false -> isspace c = false ->
                         ~ In c pre -> ~ In c T).
  { intros c C1 C2 C3 H. subst T. apply in_app_or in H as [H | H]; [tauto|].
    apply in_app_or in H as [H | H]; revert H.
    - now apply (Forall_not_In is_ident_char), N.
    - now apply (Forall_not_In isspace). }
  assert (N1 : ~ In "("%char T) by now apply NI.
  assert (N2 : ~ In "{"%char (T ++ ["("%char])).
  { intros H. apply in_app_or in H as [H | [H | []]]; [|discriminate H].
    revert H. now apply NI. }
  assert (N3 : ~ In ";"%char (T ++ ["("%char])).
  { intros H. apply in_app_or in H as [H | [H | []]]; [|discriminate H].
    revert H. now apply NI. }
  unfold function_node.
  rewrite (safe_append_nil _ _ L).
  rewrite function_sig_loop_stop.
  2:{ rewrite ET. apply orb_true_iff.
      destruct R as [R | R]; [left | right]; apply In_found, in_or_app;
        now right. }
  rewrite ET. rewrite (cut_at_app _ rest _ N2).
  set (rest1 := cut_at rest (strchr rest "{"%char)).
  rewrite (cut_at_app _ rest1 _ N3).
  set (rest2 := cut_at rest1 (strchr rest1 ";"%char)).
  replace ((T ++ ["("%char]) ++ rest2) with (T ++ "("%char :: rest2)
    by (rewrite <- app_assoc; reflexivity).
  rewrite (trim_inplace_keep T rest2 "("%char eq_refl).
  rewrite (strchr_app T _ _ N1).
  assert (HT : exists before, List.length T = S before).
  { subst T. destruct N as [N _]. destruct nm; [congruence|].
    rewrite !length_app. cbn [List.length]. exists (List.length pre + List.length (nm ++ ws)).
    rewrite length_app. lia. }
  destruct HT as [before HT]. rewrite HT.
  destruct (attach_doc p _) as [d p2] eqn:A.
  cbn [fst snd name return_type]. unfold cut. rewrite <- HT.
  rewrite firstn_app_exact.
  pose proof (name_before pre nm ws P N W) as NB. cbv zeta in NB.
  fold T in NB. unfold strlen in NB. rewrite HT in NB.
  cbn [Nat.sub] in NB. rewrite Nat.sub_0_r in NB.
  destruct NB as [NB1 NB2]. rewrite NB1 in *. rewrite NB2.
  repeat split.
  - subst T. now rewrite firstn_app_exact.
  - unfold attach_doc in A.
    destruct (_ || _); injection A as _ <-;
      cbn [flag_out_of_bounds set_pending_comment out_of_bounds];
      apply orb_false_r.
Qed.

(** X23 at the prototype [static int add(int a, int b);]. *)
Lemma X23_function_name_witness :
  let n := fst (function_node
                  (at_first_line (text ["static int add(int a, int b);"%string]))
                  true false false) in
  name n = cs "add" /\ return_type n = cs "static int".
Proof.
  cbv zeta.
  destruct (X23_function_name
              (at_first_line (text ["static int add(int a, int b);"%string]))
              true false false
              (cs "static int ") (cs "add") [] (cs "int a, int b);"))
    as (H1 & H2 & _).
  - reflexivity.
  - apply Nat.ltb_lt. vm_compute. reflexivity.
  - intros H; simpl in H;
      repeat (destruct H as [H|H]; [discriminate H|]); exact H.
  - intros H; simpl in H;
      repeat (destruct H as [H|H]; [discriminate H|]); exact H.
  - intros H; simpl in H;
      repeat (destruct H as [H|H]; [discriminate H|]); exact H.
  - reflexivity.
  - split; [discriminate | repeat constructor].
  - constructor.
  - right. simpl. tauto.
  - split; [rewrite H1 | rewrite H2]; reflexivity.
Defined.

(** X24.  On a typedef whose first line holds a semicolon,
    [parse_typedef] names the entry by the identifier in front of the
    first semicolon. *)
Theorem X24_typedef_name (p : Parser) (pre nm ws rest : cstr) :
  cstr_of (p_line p) = pre ++ nm ++ ws ++ ";"%char :: rest ->
  strlen (cstr_of (p_line p)) < MAX_SIG ->
  ~ In ";"%char pre ->
  begins_without is_ident_char (rev pre) ->
  identifier nm ->
  Forall (fun c => isspace c = true) ws ->
  name (fst (typedef_node p)) = (if strlen nm <? MAX_NAME then nm else [])
  /\ out_of_bounds (snd (typedef_node p)) = out_of_bounds p.
Proof.
  intros E L P1 P N W.
  set (T := pre ++ nm ++ ws).
  assert (ET : cstr_of (p_line p) = T ++ ";"%char :: rest)
    by (rewrite E; subst T; rewrite <- !app_assoc; reflexivity).
  assert (N1 : ~ In ";"%char T).
  { intros H. subst T. apply in_app_or in H as [H | H]; [tauto|].
    apply in_app_or in H as [H | H]; revert H.
    - now apply (Forall_not_In is_ident_char), N.
    - now apply (Forall_not_In isspace). }
  unfold typedef_node.
  rewrite (safe_append_nil _ _ L).
  rewrite typedef_sig_loop_stop
    by (rewrite ET; apply In_found, in_or_app; right; now left).
  rewrite ET, (strchr_app T _ _ N1). cbn [cut_at]. unfold cut.
  rewrite firstn_app_exact.
  assert (HT : exists c T', T = c :: T').
  { subst T. destruct N as [N _]. destruct pre; [|now eexists; eexists].
    destruct nm; [congruence | now eexists; eexists]. }
  destruct HT as (c & T' & HT).
  pose proof (name_before pre nm ws P N W) as NB. cbv zeta in NB.
  fold T in NB. destruct NB as [NB1 NB2].
  rewrite HT in *.
  destruct (attach_doc p _) as [d p2] eqn:A.
  cbn [fst snd name signature]. rewrite NB2.
  split; [reflexivity|].
  unfold attach_doc in A.
  destruct (_ =? _)%Z; injection A as _ <-;
    cbn [flag_out_of_bounds set_pending_comment out_of_bounds];
    apply orb_false_r.
Qed.

(** X24 at [typedef unsigned long word_t;]. *)
Lemma X24_typedef_name_witness :
  name (fst (typedef_node
               (at_first_line (text ["typedef unsigned long word_t;"%string]))))
  = cs "word_t".
Proof.
  apply (X24_typedef_name
           (at_first_line (text ["typedef unsigned long word_t;"%string]))
           (cs "typedef unsigned long ") (cs "word_t") [] []).
  - reflexivity.
  - apply Nat.ltb_lt. vm_compute. reflexivity.
  - intros H; simpl in H;
      repeat (destruct H as [H|H]; [discriminate H|]); exact H.
  - reflexivity.
  - split; [discriminate | repeat constructor].
  - constructor.
Defined.

Lemma type_char_cases (h : ascii) :
  is_ident_char h || chr_eq h " "%char || chr_eq h "*"%char = true ->
  chr_eq h "="%char || chr_eq h "["%char = false
  /\ (isspace h = false ->
      starts_with [h] (cs "[") || starts_with [h] (cs "=")
      || starts_with [h] (cs ";") = false).
Proof.
  unfold is_ident_char, isalnum, isspace, chr_eq.
  destruct h as [[] [] [] [] [] [] [] []]; vm_compute; intros H;
    first [discriminate H | split; [reflexivity | intros H'];
           first [reflexivity | discriminate H']].
Qed.

Lemma starts_with_head (h : ascii) (r pat : cstr) :
  List.length pat <= 1 -> starts_with (h :: r) pat = starts_with [h] pat.
Proof.
  destruct pat as [|x [|y pat]]; cbn [List.length starts_with]; intros H;
    [reflexivity | reflexivity | lia].
Qed.

(** Behind a stretch of the type no candidate of the loop that finds
    the name of a variable passes its test. *)
Lemma candidate_fails (t nm r : cstr) :
  Forall (fun x => is_ident_char x || chr_eq x " "%char || chr_eq x "*"%char
                   = true) t ->
  identifier nm ->
  let after := ltrim (t ++ " "%char :: nm ++ r) in
  starts_with after (cs "[") || starts_with after (cs "=")
  || starts_with after (cs ";") = false.
Proof.
  intros F [N I]. cbv zeta. induction F as [|x t Hx _ IH].
  - destruct I as [|h nm Hh _]; [congruence|].
    change (ltrim ([] ++ " "%char :: (h :: nm) ++ r))
      with (ltrim (h :: nm ++ r)).
    assert (Hs : isspace h = false)
      by (apply (ident_not_space [h] []); split;
          [discriminate | now constructor]).
    cbn [ltrim]. rewrite Hs.
    rewrite !(starts_with_head h (nm ++ r)) by (vm_compute; lia).
    apply type_char_cases; [now rewrite Hh | exact Hs].
  - cbn [app ltrim]. destruct (isspace x) eqn:Hs; [exact IH|].
    rewrite !(starts_with_head x) by (vm_compute; lia).
    now apply type_char_cases.
Qed.

Lemma ident_len_le (t r : cstr) :
  begins_without is_ident_char r -> ident_len (t ++ r) <= List.length t.
Proof.
  intros H. induction t as [|x t IH]; cbn [app ident_len List.length].
  - destruct r as [|c r]; [simpl; lia|]. cbn [ident_len].
    unfold begins_without in H. rewrite H. lia.
  - destruct (is_ident_char x); lia.
Qed.

Lemma variable_name_found (nm ws rest : cstr) (c : ascii) (n : nat) :
  identifier nm ->
  Forall (fun x => isspace x = true) ws ->
  c = "["%char \/ c = "="%char \/ c = ";"%char ->
  forall ty : cstr,
    List.length ty <= n ->
    Forall (fun x => is_ident_char x || chr_eq x " "%char || chr_eq x "*"%char
                     = true) ty ->
    variable_name (ty ++ " "%char :: nm ++ ws ++ c :: rest)
    = copy_name (nm ++ ws ++ c :: rest) (List.length nm).
Proof.
  intros N W C.
  assert (Hc : isspace c = false /\ is_ident_char c = false
               /\ starts_with (c :: rest) (cs "[")
                  || starts_with (c :: rest) (cs "=")
                  || starts_with (c :: rest) (cs ";") = true).
  { destruct C as [-> | [-> | ->]]; repeat split; reflexivity. }
  destruct Hc as (Hc1 & Hc2 & Hc3).
  assert (I : begins_without is_ident_char (ws ++ c :: rest)).
  { destruct W as [|w ws Hw _]; cbn [app begins_without]; [exact Hc2|].
    unfold is_ident_char, isalnum, isspace, chr_eq in *.
    destruct w as [[] [] [] [] [] [] [] []]; vm_compute in Hw |- *;
      first [reflexivity | discriminate Hw]. }
  assert (Base : variable_name (" "%char :: nm ++ ws ++ c :: rest)
                 = copy_name (nm ++ ws ++ c :: rest) (List.length nm)).
  { pose proof (ident_len_app nm (ws ++ c :: rest) (proj2 N) I) as L.
    pose proof (ltrim_app_spaces ws (c :: rest) W Hc1) as T.
    destruct N as [N F]. destruct F as [|h nm Hh F]; [congruence|].
    cbn [variable_name app].
    change (is_ident_char " "%char || chr_eq " "%char " "%char
            || chr_eq " "%char "*"%char) with true.
    change (chr_eq " "%char "="%char || chr_eq " "%char "["%char) with false.
    change (isspace " "%char) with true. rewrite Hh. cbn [andb].
    cbn [app] in L. rewrite L.
    change (h :: nm ++ ws ++ c :: rest) with ((h :: nm) ++ ws ++ c :: rest).
    rewrite skipn_app_exact, T, Hc3. reflexivity. }
  induction n as [|n IH]; intros ty Hl F.
  - destruct ty; [exact Base | simpl in Hl; lia].
  - destruct F as [|x ty Hx F]; [exact Base|].
    cbn [app variable_name]. rewrite Hx.
    rewrite (proj1 (type_char_cases x Hx)).
    destruct F as [|c1 ty Hc F'].
    + cbn [app]. change (is_ident_char " "%char) with false.
      rewrite andb_false_r. apply (IH []); [simpl; lia | constructor].
    + cbn [app]. cbn [List.length] in Hl.
      destruct (isspace x && is_ident_char c1).
      * pose proof (ident_len_le (c1 :: ty) (" "%char :: nm ++ ws ++ c :: rest)
                      eq_refl) as Le.
        cbn [app] in Le.
        set (k := ident_len (c1 :: ty ++ " "%char :: nm ++ ws ++ c :: rest))
          in *.
        assert (Hk : skipn k (c1 :: ty ++ " "%char :: nm ++ ws ++ c :: rest)
                     = skipn k (c1 :: ty)
                       ++ " "%char :: nm ++ ws ++ c :: rest).
        { change (c1 :: ty ++ " "%char :: nm ++ ws ++ c :: rest)
            with ((c1 :: ty) ++ " "%char :: nm ++ ws ++ c :: rest).
          rewrite skipn_app.
          replace (k - List.length (c1 :: ty)) with 0 by lia. reflexivity. }
        rewrite Hk.
        rewrite (candidate_fails (skipn k (c1 :: ty)) nm (ws ++ c :: rest)).
        -- apply IH; [lia | exact F'].
        -- assert (Fa : Forall (fun x => is_ident_char x || chr_eq x " "%char
                                          || chr_eq x "*"%char = true)
                           (firstn k (c1 :: ty) ++ skipn k (c1 :: ty)))
             by (rewrite firstn_skipn; now constructor).
           now apply Forall_app in Fa.
        -- exact N.
      * apply (IH (c1 :: ty)); [simpl; lia | now constructor].
Qed.

(** X25.  The loop of [parse_variable] that skips the type finds the
    identifier behind the last space of the type, when what follows it
    after optional whitespace is [[], [=] or [;]; a name of [MAX_NAME]
    characters or more is dropped. *)
Theorem X25_variable_name (ty nm ws rest : cstr) (c : ascii) :
  Forall (fun x => is_ident_char x || chr_eq x " "%char || chr_eq x "*"%char
                   = true) ty ->
  identifier nm ->
  Forall (fun x => isspace x = true) ws ->
  c = "["%char \/ c = "="%char \/ c = ";"%char ->
  variable_name (ty ++ " "%char :: nm ++ ws ++ c :: rest)
  = if strlen nm <? MAX_NAME then nm else [].
Proof.
  intros F N W C.
  rewrite (variable_name_found nm ws rest c (List.length ty) N W C ty
             (le_n _) F).
  apply copy_name_app.
Qed.

(** X25 at the declaration [unsigned long table[] = {0};] and, through
    [parse_variable], at [static const int limit = 10;]. *)
Lemma X25_variable_name_witness :
  variable_name (cs "unsigned long table[] = {0};") = cs "table"
  /\ name (fst (variable_node
                  (at_first_line (text ["static const int limit = 10;"%string]))
                  0 true))
     = cs "limit".
Proof.
  split.
  - apply (X25_variable_name (cs "unsigned long") (cs "table") []
             (cs "] = {0};") "["%char).
    + repeat constructor.
    + split; [discriminate | repeat constructor].
    + constructor.
    + now left.
  - change (name (fst (variable_node
                         (at_first_line
                            (text ["static const int limit = 10;"%string]))
                         0 true)))
      with (variable_name (cs "int" ++ " "%char :: cs "limit" ++ cs " "
                           ++ "="%char :: cs " 10;")).
    apply (X25_variable_name (cs "int") (cs "limit") (cs " ") (cs " 10;")
             "="%char).
    + repeat constructor.
    + split; [discriminate | repeat constructor].
    + repeat constructor.
    + right. now left.
Defined.

End Extraction.

(* ------------------------------------------------------------------ *)
(** ** Accesses before the array [sig] *)

Section Bounds.

Lemma ADD_NODE_flag (q : Parser) (n : DocNode) :
  out_of_bounds (ADD_NODE q n) = out_of_bounds q.
Proof. unfold ADD_NODE. now destruct (_ <=? _). Qed.

Lemma attach_doc_flag (p : Parser) (b : bool) :
  out_of_bounds (snd (attach_doc p b)) = out_of_bounds p.
Proof. unfold attach_doc. now destruct b. Qed.

Lemma include_node_flag (p : Parser) :
  out_of_bounds (snd (include_node p)) = out_of_bounds p.
Proof. reflexivity. Qed.

Lemma aggregate_node_flag (p : Parser) (t : NodeType) :
  out_of_bounds (snd (aggregate_node p t)) = out_of_bounds p.
Proof.
  unfold aggregate_node, trim_line.
  pose proof (attach_doc_flag (set_line p (trim_buffer (p_line p)))
                (pending_comment_line
                   (set_line p (trim_buffer (p_line p))) =? line_num p - 1)%Z)
    as A.
  destruct (attach_doc _ _) as [d p2]. exact A.
Qed.

Lemma macro_node_flag (p : Parser) (n : DocNode) (q : Parser) :
  macro_node p = Some (n, q) -> out_of_bounds q = out_of_bounds p.
Proof.
  unfold macro_node.
  destruct (strstr _ _) as [def|]; [|discriminate].
  pose proof (macro_loop_reads (fp p) p
                (safe_strcpy [] (skipn def (cstr_of (p_line p))) MAX_SIG)
                eq_refl) as R.
  destruct (macro_loop _ _ _) as [p1 sig]. cbn [fst] in R.
  pose proof (attach_doc_flag p1
                (pending_comment_line p1 =? line_num p - 1)%Z) as A.
  destruct (attach_doc _ _) as [d p2]. cbn [snd] in A.
  intros [= _ <-]. rewrite A. apply (reads_flag _ _ R).
Qed.

Lemma variable_node_flag (p : Parser) (k : nat) (s : bool) :
  out_of_bounds (snd (variable_node p k s)) = out_of_bounds p.
Proof.
  unfold variable_node.
  pose proof (variable_declaration_reads p k) as R.
  destruct (variable_declaration p k) as [p1 sig]. cbn [fst] in R.
  pose proof (attach_doc_flag p1
                (pending_comment_line p1 =? line_num p - 1)%Z) as A.
  destruct (attach_doc _ _) as [d p2]. cbn [snd] in *.
  rewrite A. apply (reads_flag _ _ R).
Qed.

Lemma safe_append_head (c : ascii) (r : cstr) :
  safe_append [] (c :: r) MAX_SIG = c :: firstn (MAX_SIG - 2) r.
Proof. reflexivity. Qed.

Lemma function_sig_loop_prefix (rest : list (list ascii)) (p : Parser)
    (sig : cstr) :
  exists x, snd (function_sig_loop rest p sig) = sig ++ x.
Proof.
  revert p sig. induction rest as [|piece rest IH]; intros p sig;
    cbn [function_sig_loop];
    destruct (found (strchr sig "{"%char) || found (strchr sig ";"%char));
    try (exists []; now rewrite app_nil_r).
  destruct (trim_line (read_line p piece rest)) as [trimmed p1].
  destruct (safe_append_app sig (cs " ") MAX_SIG) as [x1 ->].
  destruct (safe_append_app (sig ++ x1) trimmed MAX_SIG) as [x2 ->].
  destruct (IH p1 ((sig ++ x1) ++ x2)) as [x ->].
  rewrite <- !app_assoc. now eexists.
Qed.

Lemma typedef_sig_loop_prefix (rest : list (list ascii)) (p : Parser)
    (sig : cstr) :
  exists x, snd (typedef_sig_loop rest p sig) = sig ++ x.
Proof.
  revert p sig. induction rest as [|piece rest IH]; intros p sig;
    cbn [typedef_sig_loop];
    destruct (found (strchr sig ";"%char));
    try (exists []; now rewrite app_nil_r).
  destruct (trim_line (read_line p piece rest)) as [trimmed p1].
  destruct (safe_append_app sig (cs " ") MAX_SIG) as [x1 ->].
  destruct (safe_append_app (sig ++ x1) trimmed MAX_SIG) as [x2 ->].
  destruct (IH p1 ((sig ++ x1) ++ x2)) as [x ->].
  rewrite <- !app_assoc. now eexists.
Qed.

Lemma cut_at_head (c d : ascii) (s : cstr) :
  cut_at (c :: s) (strchr (c :: s) d)
  = if chr_eq c d then [] else c :: cut_at s (strchr s d).
Proof.
  cbn [strchr]. destruct (chr_eq c d); [reflexivity|].
  now destruct (strchr s d).
Qed.

Lemma trim_inplace_head (c : ascii) (s : cstr) :
  exists s', trim_inplace (c :: s) = c :: s'.
Proof.
  unfold trim_inplace, trim. cbn [leading_ws ltrim].
  destruct (isspace c); cbn [app rtrim]; now eexists.
Qed.

Lemma typedef_node_flag (p : Parser) (c : ascii) (r : cstr) :
  cstr_of (p_line p) = c :: r -> c <> ";"%char ->
  out_of_bounds (snd (typedef_node p)) = out_of_bounds p.
Proof.
  intros E C. unfold typedef_node. rewrite E, safe_append_head.
  pose proof (typedef_sig_loop_reads (fp p) p
                (c :: firstn (MAX_SIG - 2) r) eq_refl) as R.
  destruct (typedef_sig_loop_prefix (fp p) p (c :: firstn (MAX_SIG - 2) r))
    as [x Hx].
  destruct (typedef_sig_loop _ _ _) as [p1 sig]. cbn [fst snd] in R, Hx.
  subst sig. cbn [app]. rewrite cut_at_head.
  apply chr_eq_false in C. rewrite C.
  pose proof (attach_doc_flag p1
                (pending_comment_line p1 =? line_num p - 1)%Z) as A.
  destruct (attach_doc _ _) as [d p2]. cbn [snd] in *.
  cbn [flag_out_of_bounds out_of_bounds].
  rewrite A, orb_false_r. apply (reads_flag _ _ R).
Qed.

Lemma function_node_flag (p : Parser) (s i e : bool) (c : ascii) (r : cstr) :
  cstr_of (p_line p) = c :: r ->
  out_of_bounds (snd (function_node p s i e))
  = out_of_bounds p || chr_eq c "("%char.
Proof.
  intros E. unfold function_node. rewrite E, safe_append_head.
  pose proof (function_sig_loop_reads (fp p) p
                (c :: firstn (MAX_SIG - 2) r) eq_refl) as R.
  destruct (function_sig_loop_prefix (fp p) p (c :: firstn (MAX_SIG - 2) r))
    as [x Hx].
  destruct (function_sig_loop _ _ _) as [p1 sig]. cbn [fst snd] in R, Hx.
  subst sig. cbn [app].
  set (body := firstn (MAX_SIG - 2) r ++ x).
  assert (H : (exists s3,
                  trim_inplace
                    (cut_at (cut_at (c :: body) (strchr (c :: body) "{"%char))
                       (strchr (cut_at (c :: body)
                                  (strchr (c :: body) "{"%char)) ";"%char))
                  = c :: s3)
              \/ (trim_inplace
                    (cut_at (cut_at (c :: body) (strchr (c :: body) "{"%char))
                       (strchr (cut_at (c :: body)
                                  (strchr (c :: body) "{"%char)) ";"%char))
                  = []
                  /\ chr_eq c "("%char = false)).
  { rewrite (cut_at_head c "{"%char).
    destruct (chr_eq c "{"%char) eqn:C1.
    - right. split; [reflexivity|].
      apply chr_eq_true in C1. now subst c.
    - rewrite (cut_at_head c ";"%char).
      destruct (chr_eq c ";"%char) eqn:C2.
      + right. split; [reflexivity|].
        apply chr_eq_true in C2. now subst c.
      + left. apply trim_inplace_head. }
  pose proof (attach_doc_flag p1
                ((pending_comment_line p1 =? line_num p - 1)%Z
                 || (pending_comment_line p1 =? line_num p)%Z)) as A.
  destruct H as [[s3 H] | [H C]]; rewrite H.
  - cbn [strchr]. destruct (chr_eq c "("%char).
    + destruct (attach_doc _ _) as [d p2]. cbn [snd] in *.
      cbn [flag_out_of_bounds out_of_bounds].
      rewrite A. f_equal. apply (reads_flag _ _ R).
    + destruct (strchr s3 "("%char) as [k|]; cbn [option_map];
        destruct (attach_doc _ _) as [d p2]; cbn [snd] in *;
        cbn [flag_out_of_bounds out_of_bounds];
        rewrite A; f_equal; apply (reads_flag _ _ R).
  - cbn [strchr]. rewrite C.
    destruct (attach_doc _ _) as [d p2]. cbn [snd] in *.
    cbn [flag_out_of_bounds out_of_bounds].
    rewrite A. f_equal. apply (reads_flag _ _ R).
Qed.

Lemma classify_typedef_head (pl : cstr) :
  classify pl = C_typedef ->
  exists c r, pl = c :: r /\ c <> ";"%char.
Proof.
  destruct pl as [|c r]; [discriminate|].
  intros H. exists c, r. split; [reflexivity|]. intros ->.
  revert H. unfold classify.
  change (ltrim (";"%char :: r)) with (";"%char :: r).
  change (begins (";"%char :: r) "/*") with false.
  change (begins (";"%char :: r) "//") with false.
  change (begins (";"%char :: r) "#") with false.
  change (begins (";"%char :: r) "typedef") with false.
  cbv iota.
  repeat match goal with
         | |- context [if ?c then _ else _] => destruct c
         end; discriminate.
Qed.

Lemma parse_line_flag (p : Parser) :
  out_of_bounds (parse_line p)
  = out_of_bounds p
    || match classify (cstr_of (p_line p)) with
       | C_function => starts_with (cstr_of (p_line p)) (cs "(")
       | _ => false
       end.
Proof.
  unfold parse_line.
  destruct (classify (cstr_of (p_line p))) eqn:E; rewrite ?orb_false_r.
  - destruct (parse_block_comment_closed p) as (_ & _ & _ & _ & _ & F & _).
    now destruct (_ && _).
  - reflexivity.
  - unfold parse_include. pose proof (include_node_flag p) as F.
    destruct (include_node p) as [n q]. now rewrite ADD_NODE_flag.
  - unfold parse_macro. destruct (macro_node p) as [[n q]|] eqn:M;
      [|reflexivity].
    rewrite ADD_NODE_flag. now apply (macro_node_flag p n q).
  - reflexivity.
  - unfold parse_aggregate. pose proof (aggregate_node_flag p t) as F.
    destruct (aggregate_node p t) as [n q]. now rewrite ADD_NODE_flag.
  - unfold parse_typedef.
    destruct (classify_typedef_head _ E) as (c & r & Hp & Hc).
    pose proof (typedef_node_flag p c r Hp Hc) as F.
    destruct (typedef_node p) as [n q]. now rewrite ADD_NODE_flag.
  - unfold parse_function.
    destruct (cstr_of (p_line p)) as [|c r] eqn:Hp; [discriminate E|].
    match goal with
    | |- context [function_node p ?s ?i ?e] =>
        pose proof (function_node_flag p s i e c r Hp) as F;
        destruct (function_node p s i e) as [n q]
    end.
    rewrite ADD_NODE_flag. cbn [snd] in F. rewrite F.
    cbn [starts_with cs list_ascii_of_string]. now rewrite andb_true_r.
  - unfold parse_variable.
    match goal with
    | |- context [variable_node p ?k ?s] =>
        pose proof (variable_node_flag p k s) as F;
        destruct (variable_node p k s) as [n q]
    end.
    now rewrite ADD_NODE_flag.
  - now destruct (_ <? _)%Z.
Qed.

(** X26.  One iteration of the loop of [parse_file] reaches the byte
    in front of the array [sig] in exactly one case: the line goes to
    [parse_function] and its first character is the opening
    parenthesis.  Some file brings the scan there. *)
Theorem X26_before_sig_exactly :
  (forall p : Parser,
     out_of_bounds (parse_line p)
     = out_of_bounds p
       || match classify (cstr_of (p_line p)) with
          | C_function => starts_with (cstr_of (p_line p)) (cs "(")
          | _ => false
          end)
  /\ exists content : list ascii,
       out_of_bounds (scan (cs "input.c") content [] []) = true.
Proof.
  split; [exact parse_line_flag|].
  exists (text ["(static int f)(void);"%string]). vm_compute. reflexivity.
Qed.

Section Tails.

Variable ok : list ascii -> Prop.

Ltac keep_step IH :=
  match goal with
  | F : Forall ok (_ :: _) |- _ =>
      inversion F; subst; cbn [fp read_line];
      first [assumption | apply IH; [reflexivity | assumption]]
  end.

Lemma function_sig_loop_tail (rest : list (list ascii)) (p : Parser)
    (sig : cstr) :
  fp p = rest -> Forall ok rest ->
  Forall ok (fp (fst (function_sig_loop rest p sig))).
Proof.
  revert p sig. induction rest as [|piece rest IH]; intros p sig H F;
    cbn [function_sig_loop];
    destruct (found (strchr sig "{"%char) || found (strchr sig ";"%char));
    cbn [fst]; try (now rewrite H).
  unfold trim_line. keep_step IH.
Qed.

Lemma typedef_sig_loop_tail (rest : list (list ascii)) (p : Parser)
    (sig : cstr) :
  fp p = rest -> Forall ok rest ->
  Forall ok (fp (fst (typedef_sig_loop rest p sig))).
Proof.
  revert p sig. induction rest as [|piece rest IH]; intros p sig H F;
    cbn [typedef_sig_loop];
    destruct (found (strchr sig ";"%char));
    cbn [fst]; try (now rewrite H).
  unfold trim_line. keep_step IH.
Qed.

Lemma macro_loop_tail (rest : list (list ascii)) (p : Parser) (sig : cstr) :
  fp p = rest -> Forall ok rest ->
  Forall ok (fp (fst (macro_loop rest p sig))).
Proof.
  revert p sig. induction rest as [|piece rest IH]; intros p sig H F;
    cbn [macro_loop];
    destruct (negb (last_is sig "\"%char)
              && negb (penultimate_is sig "\"%char));
    cbn [fst]; try (now rewrite H).
  unfold trim_line. keep_step IH.
Qed.

Lemma variable_loop_tail (rest : list (list ascii)) (p : Parser) (sig : cstr) :
  fp p = rest -> Forall ok rest ->
  Forall ok (fp (fst (variable_loop rest p sig))).
Proof.
  revert p sig. induction rest as [|piece rest IH]; intros p sig H F;
    cbn [variable_loop]; cbv zeta; [cbn [fst]; now rewrite H|].
  match goal with |- context [if ?c then (_, _) else _] => destruct c end;
    cbn [fst]; keep_step IH.
Qed.

Lemma block_comment_loop_tail (rest : list (list ascii)) (p : Parser)
    (buf : cstr) :
  fp p = rest -> Forall ok rest ->
  Forall ok (fp (fst (block_comment_loop rest p buf))).
Proof.
  revert p buf. induction rest as [|piece rest IH]; intros p buf H F;
    cbn [block_comment_loop]; cbv zeta; [cbn [fst]; now rewrite H|].
  match goal with |- context [if ?c then (_, _) else _] => destruct c end;
    cbn [fst]; keep_step IH.
Qed.

Lemma next_line_from_tail (rest : list (list ascii)) (p : Parser) :
  fp p = rest -> Forall ok rest ->
  Forall ok (fp (snd (next_line_from rest p)))
  /\ (fst (next_line_from rest p) = true ->
      exists piece,
        ok piece
        /\ cstr_of (p_line (snd (next_line_from rest p)))
           = trim_inplace (cstr_of piece)).
Proof.
  revert p. induction rest as [|piece rest IH]; intros p H F;
    cbn [next_line_from].
  - cbn [fst snd]. rewrite H. split; [constructor | discriminate].
  - unfold trim_line. cbn [read_line p_line set_line].
    inversion F as [|? ? Hp F']; subst.
    destruct (0 <? strlen _).
    + cbn [fst snd fp p_line set_line read_line]. split; [exact F'|].
      intros _.
      exists piece. split; [exact Hp|].
      now rewrite cstr_of_trim_buffer, cstr_of_fgets_into.
    + apply IH; [reflexivity | exact F'].
Qed.

Lemma ADD_NODE_fp (q : Parser) (n : DocNode) : fp (ADD_NODE q n) = fp q.
Proof. unfold ADD_NODE. now destruct (_ <=? _). Qed.

Lemma attach_doc_fp (p : Parser) (b : bool) :
  fp (snd (attach_doc p b)) = fp p.
Proof. unfold attach_doc. now destruct b. Qed.

Lemma parse_line_tail (p : Parser) :
  Forall ok (fp p) -> Forall ok (fp (parse_line p)).
Proof.
  intros F. unfold parse_line.
  destruct (classify (cstr_of (p_line p))).
  - unfold parse_block_comment.
    pose proof (block_comment_loop_tail (fp p) p
                  (safe_append [] (cstr_of (p_line p)) MAX_DOC) eq_refl F)
      as T.
    destruct (found _); [now destruct (_ && _)|].
    destruct (block_comment_loop _ _ _) as [p1 buf1].
    now destruct (_ && _).
  - exact F.
  - unfold parse_include.
    destruct (include_node p) as [n q] eqn:E. rewrite ADD_NODE_fp.
    apply (f_equal snd) in E. cbn [snd] in E. now subst q.
  - unfold parse_macro, macro_node.
    destruct (strstr _ _) as [def|]; [|exact F].
    pose proof (macro_loop_tail (fp p) p
                  (safe_strcpy [] (skipn def (cstr_of (p_line p))) MAX_SIG)
                  eq_refl F) as T.
    destruct (macro_loop _ _ _) as [p1 sig]. cbn [fst] in T.
    pose proof (attach_doc_fp p1
                  (pending_comment_line p1 =? line_num p - 1)%Z) as A.
    destruct (attach_doc _ _) as [d p2]. cbn [snd] in A.
    now rewrite ADD_NODE_fp, A.
  - exact F.
  - unfold parse_aggregate, aggregate_node, trim_line.
    pose proof (attach_doc_fp (set_line p (trim_buffer (p_line p)))
                  (pending_comment_line
                     (set_line p (trim_buffer (p_line p)))
                   =? line_num p - 1)%Z) as A.
    destruct (attach_doc _ _) as [d p2]. cbn [snd] in A.
    now rewrite ADD_NODE_fp, A.
  - unfold parse_typedef, typedef_node.
    pose proof (typedef_sig_loop_tail (fp p) p
                  (safe_append [] (cstr_of (p_line p)) MAX_SIG) eq_refl F)
      as T.
    destruct (typedef_sig_loop _ _ _) as [p1 sig]. cbn [fst] in T.
    pose proof (attach_doc_fp p1
                  (pending_comment_line p1 =? line_num p - 1)%Z) as A.
    destruct (cut_at sig _); destruct (attach_doc _ _) as [d p2];
      cbn [snd] in A; now rewrite ADD_NODE_fp; cbn [flag_out_of_bounds fp];
      rewrite A.
  - unfold parse_function, function_node.
    pose proof (function_sig_loop_tail (fp p) p
                  (safe_append [] (cstr_of (p_line p)) MAX_SIG) eq_refl F)
      as T.
    destruct (function_sig_loop _ _ _) as [p1 sig]. cbn [fst] in T.
    pose proof (attach_doc_fp p1
                  ((pending_comment_line p1 =? line_num p - 1)%Z
                   || (pending_comment_line p1 =? line_num p)%Z)) as A.
    destruct (strchr _ "("%char) as [[|before]|];
      destruct (attach_doc _ _) as [d p2];
      cbn [snd] in A; now rewrite ADD_NODE_fp; cbn [flag_out_of_bounds fp];
      rewrite A.
  - unfold parse_variable, variable_node, variable_declaration.
    pose proof (variable_loop_tail (fp p) p
                  (safe_strcpy [] (cstr_at (p_line p) (strlen (leading_ws
                     (cstr_of (p_line p))))) MAX_SIG) eq_refl F) as T.
    destruct (_ && _).
    + destruct (variable_loop _ _ _) as [p1 sig]. cbn [fst] in T.
      pose proof (attach_doc_fp p1
                    (pending_comment_line p1 =? line_num p - 1)%Z) as A.
      destruct (attach_doc _ _) as [d p2]. cbn [snd] in A.
      now rewrite ADD_NODE_fp, A.
    + pose proof (attach_doc_fp p
                    (pending_comment_line p =? line_num p - 1)%Z) as A.
      destruct (attach_doc _ _) as [d p2]. cbn [snd] in A.
      now rewrite ADD_NODE_fp, A.
  - now destruct (_ <? _)%Z.
Qed.

End Tails.

Lemma parse_file_loop_inside (fuel : nat) (p : Parser) :
  Forall (fun piece => starts_with piece (cs "(") = false) (fp p) ->
  out_of_bounds p = false ->
  out_of_bounds (parse_file_loop fuel p) = false.
Proof.
  revert p. induction fuel as [|fuel IH]; intros p F O; [exact O|].
  cbn [parse_file_loop].
  pose proof (next_line_reads p) as R.
  destruct (next_line_from_tail _ (fp p) p eq_refl F) as [T L].
  fold (next_line p) in T, L.
  destruct (next_line p) as [[|] p1]; cbn [fst snd] in *.
  - apply IH.
    + now apply parse_line_tail.
    + rewrite parse_line_flag, (reads_flag _ _ R), O. cbn [orb].
      destruct (classify _); try reflexivity.
      destruct (L eq_refl) as (piece & Hp & E). rewrite E.
      destruct (trim_inplace_split (cstr_of piece)) as [b Hb].
      destruct (trim_inplace (cstr_of piece)) as [|c t]; [reflexivity|].
      cbn [starts_with cs list_ascii_of_string]. rewrite andb_true_r.
      destruct piece as [|c' piece']; [discriminate Hb|].
      cbn [cstr_of] in Hb. destruct (chr_eq c' NUL); [discriminate Hb|].
      injection Hb as <- _.
      cbn [starts_with cs list_ascii_of_string] in Hp.
      now rewrite andb_true_r in Hp.
  - now rewrite (reads_flag _ _ R).
Qed.

(** X27.  The scan of a file in which no piece that [fgets] returns
    begins with an opening parenthesis never reaches the byte in front
    of the array [sig].  (The pieces are the lines when every line,
    newline included, has fewer than [MAX_LINE] characters; a longer
    line is cut, and what follows the cut is a piece of its own.) *)
Theorem X27_scan_inside_arrays
    (filename : cstr) (content : list ascii) (now_document now_file : cstr) :
  Forall (fun piece => starts_with piece (cs "(") = false) (pieces content) ->
  out_of_bounds (scan filename content now_document now_file) = false.
Proof.
  intros F. unfold scan, parse_file.
  apply parse_file_loop_inside; [exact F | reflexivity].
Qed.

(** X27 at a file of a prototype and an indented line that begins
    with a parenthesis behind its indentation. *)
Lemma X27_scan_inside_arrays_witness :
  out_of_bounds
    (scan (cs "input.c")
       (text ["static int f(void);"; "  (static int g)(void);"]%string) [] [])
  = false.
Proof.
  apply X27_scan_inside_arrays. vm_compute. repeat constructor.
Defined.

End Bounds.
